(** * Hash tokenizing, matching and block-distance helpers of the guess game

    A shallow embedding of the helper functions of the [VerifyOffChain]
    and [GuessPage] React components: prefix removal, the two tokenizers
    (sliding window and fixed chunks), the token matchers, the block-range
    indication and the "complex mode" block offset.

    JavaScript strings are modelled as lists of 8-bit characters,
    JavaScript integers as [Z]; [NaN] (only produced by [parseInt]) is
    [None]. A function returns an [outcome]: a value, a thrown error, or
    nothing yet when the fuel of its loop is used up. *)

From Stdlib Require Import List ZArith Lia Bool Ascii String Sorted.
From Stdlib Require Import Numbers.DecimalString.
Import ListNotations.

Local Open Scope Z_scope.

(** ** Outcomes of a call *)

Inductive error : Type :=
| FormatError
| RangeError
| SyntaxError
| Error (msg : string).

(** A call returns a value, throws, or is still looping when the fuel
    given to it is used up. *)
Inductive outcome (A : Type) : Type :=
| Returns (v : A)
| Throws (e : error)
| OutOfFuel.

Arguments Returns {A} v.
Arguments Throws {A} e.
Arguments OutOfFuel {A}.

Definition bind {A B : Type} (m : outcome A) (k : A -> outcome B) : outcome B :=
  match m with
  | Returns v => k v
  | Throws e => Throws e
  | OutOfFuel => OutOfFuel
  end.

Notation "x <- m ;; k" := (bind m (fun x => k))
  (at level 61, m at next level, right associativity).

(** ** The JavaScript primitives the components use *)

Module JS.

Definition jsstring : Type := list ascii.

Definition str (s : string) : jsstring := list_ascii_of_string s.

Definition strlen (s : jsstring) : Z := Z.of_nat (List.length s).

(** [a === b] on strings. *)
Fixpoint jsstring_eqb (a b : jsstring) : bool :=
  match a, b with
  | [], [] => true
  | c :: a', d :: b' => Ascii.eqb c d && jsstring_eqb a' b'
  | _, _ => false
  end.

(** The characters at the positions [from <= k < to]; empty when
    [to <= from]. *)
Definition range (s : jsstring) (from to : Z) : jsstring :=
  firstn (Z.to_nat (to - from)) (skipn (Z.to_nat from) s).

(** [String.prototype.slice(start, end)]: a negative index counts from
    the end of the string. *)
Definition slice (s : jsstring) (start end_ : Z) : jsstring :=
  let len := strlen s in
  let from := if start <? 0 then Z.max (len + start) 0 else Z.min start len in
  let to := if end_ <? 0 then Z.max (len + end_) 0 else Z.min end_ len in
  range s from to.

(** [slice(start)] *)
Definition slice_from (s : jsstring) (start : Z) : jsstring :=
  slice s start (strlen s).

(** [String.prototype.substring(start, end)]: both indices are clamped to
    [0, length] and swapped when out of order. *)
Definition substring (s : jsstring) (start end_ : Z) : jsstring :=
  let len := strlen s in
  let fs := Z.min (Z.max start 0) len in
  let fe := Z.min (Z.max end_ 0) len in
  range s (Z.min fs fe) (Z.max fs fe).

Fixpoint startsWith (s p : jsstring) {struct p} : bool :=
  match p with
  | [] => true
  | c :: p' =>
      match s with
      | [] => false
      | d :: s' => Ascii.eqb c d && startsWith s' p'
      end
  end.

(** [toLowerCase] on one character: the letters [A]-[Z] and the
    upper-case letters of Latin-1 have their lower case 32 places on. *)
Definition lower_char (c : ascii) : ascii :=
  let n := N_of_ascii c in
  if (((65 <=? n) && (n <=? 90)) || ((192 <=? n) && (n <=? 214))
      || ((216 <=? n) && (n <=? 222)))%N
  then ascii_of_N (n + 32) else c.

Definition toLowerCase (s : jsstring) : jsstring := map lower_char s.

(** The values [i = 0, 1, ...] with [i <= bound], in order: the counter
    of [for (let i = 0; i <= bound; i++)]. *)
Definition upto (bound : Z) : list Z :=
  map Z.of_nat (seq 0 (Z.to_nat (bound + 1))).

(** [Array.prototype.includes] on an array of strings. *)
Definition includes (l : list jsstring) (x : jsstring) : bool :=
  existsb (jsstring_eqb x) l.

(** A [Set<string>] keeps its elements in insertion order. *)
Definition Set_has (s : list jsstring) (x : jsstring) : bool := includes s x.

Definition Set_add (s : list jsstring) (x : jsstring) : list jsstring :=
  if Set_has s x then s else s ++ [x].

(** [Array.prototype.indexOf]-style position of the first occurrence
    ([length l] when absent). *)
Fixpoint first_index (l : list jsstring) (x : jsstring) : nat :=
  match l with
  | [] => O
  | y :: l' => if jsstring_eqb x y then O else S (first_index l' x)
  end.

(** [s.replace(/^0x/, empty)]: removes [p] when [s] starts with it. *)
Definition replace_leading (s p : jsstring) : jsstring :=
  if startsWith s p then skipn (List.length p) s else s.

(** [s.replace("0x", empty)]: removes the first occurrence of [p], wherever
    it is. *)
Fixpoint replace_first (s p : jsstring) : jsstring :=
  match s with
  | [] => []
  | c :: s' => if startsWith s p then skipn (List.length p) s
               else c :: replace_first s' p
  end.

(** A JavaScript number that may be [NaN]. *)
Definition number : Type := option Z.

Definition NaN : number := None.

(** [a % m], the remainder with the sign of the dividend. *)
Definition num_rem (a : number) (m : Z) : number :=
  option_map (fun x => Z.rem x m) a.

Definition num_add (a : number) (k : Z) : number :=
  option_map (fun x => x + k) a.

(** [k - a] *)
Definition num_rsub (k : Z) (a : number) : number :=
  option_map (fun x => k - x) a.

Definition is_white (c : ascii) : bool :=
  let n := N_of_ascii c in
  (((9 <=? n) && (n <=? 13)) || (n =? 32) || (n =? 160))%N.

Definition hex_value (c : ascii) : option Z :=
  let n := N_of_ascii c in
  if ((48 <=? n) && (n <=? 57))%N then Some (Z.of_N n - 48)
  else if ((97 <=? n) && (n <=? 102))%N then Some (Z.of_N n - 87)
  else if ((65 <=? n) && (n <=? 70))%N then Some (Z.of_N n - 55)
  else None.

Fixpoint skip_white (s : jsstring) : jsstring :=
  match s with
  | c :: s' => if is_white c then skip_white s' else s
  | [] => []
  end.

(** The value of the longest prefix of hexadecimal digits, [acc] being
    the value read so far and [seen] whether a digit was read. *)
Fixpoint hex_prefix (s : jsstring) (acc : Z) (seen : bool) : number :=
  match s with
  | c :: s' =>
      match hex_value c with
      | Some d => hex_prefix s' (16 * acc + d) true
      | None => if seen then Some acc else NaN
      end
  | [] => if seen then Some acc else NaN
  end.

(** [parseInt(s, 16)]: leading white space, an optional sign, an optional
    [0x]/[0X], then the longest run of hexadecimal digits; [NaN] when
    there is no digit. *)
Definition parseInt16 (s : jsstring) : number :=
  let s1 := skip_white s in
  let '(neg, s2) :=
    match s1 with
    | c :: r => if Ascii.eqb c "-" then (true, r)
                else if Ascii.eqb c "+" then (false, r)
                else (false, s1)
    | [] => (false, s1)
    end in
  let s3 := if startsWith s2 (str "0x") || startsWith s2 (str "0X")
            then skipn 2 s2 else s2 in
  option_map (fun v => if neg then - v else v) (hex_prefix s3 0 false).

(** The code points [.] does not match. *)
Definition is_line_terminator (c : ascii) : bool :=
  let n := N_of_ascii c in ((n =? 10) || (n =? 13))%N.

(** The successive matches of [/.{1,n}/g] for [n >= 1]: greedy runs of at
    most [n] characters that are not line terminators. [cur] is the run
    being read. *)
Fixpoint match_runs (n : nat) (cur s : jsstring) : list jsstring :=
  match s with
  | [] => match cur with [] => [] | _ => [cur] end
  | c :: s' =>
      if is_line_terminator c
      then match cur with [] => [] | _ => [cur] end ++ match_runs n [] s'
      else let cur' := cur ++ [c] in
           if Nat.eqb (List.length cur') n
           then cur' :: match_runs n [] s'
           else match_runs n cur' s'
  end.

(** The successive matches of a pattern made of [.] and then the literal
    text [lit]; [skip] counts the characters of a match still to pass. *)
Fixpoint match_dot_literal (lit s : jsstring) (skip : nat) : list jsstring :=
  match s with
  | [] => []
  | c :: s' =>
      match skip with
      | S k => match_dot_literal lit s' k
      | O => if negb (is_line_terminator c) && startsWith s' lit
             then (c :: lit) :: match_dot_literal lit s' (List.length lit)
             else match_dot_literal lit s' 0
      end
  end.

(** Decimal digits of an integer, as a template literal prints it. *)
Definition int_to_string (z : Z) : jsstring :=
  str (NilEmpty.string_of_int (Z.to_int z)).

(** Decimal digits of an array index, as the template literal prints it. *)
Definition index_to_string (i : nat) : jsstring :=
  str (NilEmpty.string_of_uint (Nat.to_uint i)).

(** [[(0, x0); (1, x1); ...]]: the arguments [forEach] and [every] hand to
    their callback. *)
Definition indexed {A : Type} (l : list A) : list (nat * A) :=
  combine (seq 0 (List.length l)) l.

(** [String.prototype.indexOf(pat)] from position [i] on: the first
    position at which [pat] occurs, [-1] when there is none. *)
Fixpoint indexOf_from (s pat : jsstring) (i : Z) : Z :=
  match s with
  | [] => match pat with [] => i | _ => -1 end
  | _ :: s' => if startsWith s pat then i else indexOf_from s' pat (i + 1)
  end.

Definition indexOf (s pat : jsstring) : Z := indexOf_from s pat 0.

(** [a > k]; a comparison with [NaN] is false. *)
Definition num_gtb (a : number) (k : Z) : bool :=
  match a with Some x => x >? k | None => false end.

(** [Math.floor(a / k)] for a positive [k]. *)
Definition num_div_floor (a : number) (k : Z) : number :=
  option_map (fun x => x / k) a.

(** [try { m } catch (e) { h e }] *)
Definition catch {A : Type} (m : outcome A) (h : error -> outcome A)
    : outcome A :=
  match m with
  | Throws e => h e
  | _ => m
  end.

(** A string read from storage or from a block, in a condition: [null]
    and the empty string are false. *)
Definition truthy (v : option jsstring) : bool :=
  match v with
  | Some (_ :: _) => true
  | _ => false
  end.

(** [localStorage]: the stored strings by key. *)
Definition Storage : Type := list (jsstring * jsstring).

Fixpoint getItem (st : Storage) (key : jsstring) : option jsstring :=
  match st with
  | [] => None
  | (k, v) :: st' => if jsstring_eqb k key then Some v else getItem st' key
  end.

Fixpoint setItem (st : Storage) (key value : jsstring) : Storage :=
  match st with
  | [] => [(key, value)]
  | (k, v) :: st' =>
      if jsstring_eqb k key then (k, value) :: st'
      else (k, v) :: setItem st' key value
  end.

End JS.

Import JS.

Definition is_empty (s : jsstring) : bool :=
  match s with [] => true | _ => false end.

(** The four indications, from the closest to the farthest. *)
Inductive Indication : Type := DarkGreen | LightGreen | LightRed | DarkRed.

Record BlockRangeIndication : Type := {
  blockDistance : Z;
  indication : Indication;
  color : string
}.

Inductive AlertType : Type :=
  AlertSuccess | AlertError | AlertWarning | AlertInfo.

(** An alert the component shows (its [onConfirm] callback left out). *)
Record AlertMessage : Type := {
  alertType : AlertType;
  title : jsstring;
  message : jsstring
}.

(** What the components call on their [Web3] instance: the number of the
    latest block, and the hash of the block with a given number ([None]
    for no block or a block without hash). Either call may throw. *)
Record Web3 : Type := {
  getBlockNumber : outcome Z;
  getBlock : number -> outcome (option jsstring)
}.

(** ** unnamed/part_001, second [VerifyOffChain] component (sliding window) *)

Module Sliding.

(** [removePrefix] *)
Definition removePrefix (hexStr : jsstring) : outcome jsstring :=
  Returns (if startsWith hexStr (str "0x") then slice_from hexStr 2 else hexStr).

(** The body of the loop of [tokenize], run for every start index
    [i <= hexStr.length - size]. *)
Definition tokenize_loop (hexStr : jsstring) (size : Z) : list jsstring :=
  fold_left (fun tokens i => tokens ++ [slice hexStr i (i + size)])
            (upto (strlen hexStr - size)) [].

(** [tokenize] *)
Definition tokenize (hexStr : jsstring) (size : Z) : outcome (list jsstring) :=
  Returns (tokenize_loop hexStr size).

(** First loop of [findMatchingTokens]: the set of the guess's tokens. *)
Definition userGuessTokens (cleanHash1 : jsstring) (size : Z) : list jsstring :=
  fold_left (fun set i => Set_add set (substring cleanHash1 i (i + size)))
            (upto (strlen cleanHash1 - size)) [].

(** Second loop of [findMatchingTokens]: the fetched tokens found in the
    set of the guess. *)
Definition foundMatches (guess : list jsstring) (cleanHash2 : jsstring)
    (size : Z) : list jsstring :=
  fold_left (fun found i =>
               let fetchedToken := substring cleanHash2 i (i + size) in
               if Set_has guess fetchedToken then Set_add found fetchedToken
               else found)
            (upto (strlen cleanHash2 - size)) [].

(** [findMatchingTokens] *)
Definition findMatchingTokens (hash1 hash2 : jsstring) (size : Z)
    : outcome (list jsstring) :=
  if is_empty hash1 || is_empty hash2 || (size <=? 0) then Returns []
  else
    cleanHash1 <- removePrefix (toLowerCase hash1) ;;
    cleanHash2 <- removePrefix (toLowerCase hash2) ;;
    Returns (foundMatches (userGuessTokens cleanHash1 size) cleanHash2 size).

(** [calculateBlockRangeIndication] with its two triples of limits. *)
Definition calculateBlockRangeIndication (blockDistance : Z) (isComplex : bool)
    : BlockRangeIndication :=
  let limits := if isComplex then (32, 64, 96) else (64, 128, 192) in
  let '(l0, l1, l2) := limits in
  if blockDistance <=? l0 then
    {| blockDistance := blockDistance; indication := DarkGreen; color := "#10b981" |}
  else if blockDistance <=? l1 then
    {| blockDistance := blockDistance; indication := LightGreen; color := "#34d399" |}
  else if blockDistance <=? l2 then
    {| blockDistance := blockDistance; indication := LightRed; color := "#f87171" |}
  else
    {| blockDistance := blockDistance; indication := DarkRed; color := "#dc2626" |}.

(** [getWalletStorageKey] of this component: the address as it is. *)
Definition getWalletStorageKey (walletAddress key : jsstring) : jsstring :=
  walletAddress ++ str "_" ++ key.

Section WalletStorage.

Variable value : Type.
Variable parse : jsstring -> option value.

(** [getWalletLocalStorage] of this component. *)
Definition getWalletLocalStorage (st : Storage) (walletAddress key : jsstring)
    : outcome (option value) :=
  let storageKey := getWalletStorageKey walletAddress key in
  let data := getItem st storageKey in
  if truthy data
  then match parse match data with Some d => d | None => [] end with
       | Some v => Returns (Some v)
       | None => Throws SyntaxError
       end
  else Returns None.

End WalletStorage.

Record RandomBlockData : Type := {
  hash : jsstring;
  byteHex : jsstring;
  adjustedRanBlockPos : number;
  randomBlockNumber : number
}.

(** [getRandomBlockHash] *)
Definition getRandomBlockHash (web3Instance : option Web3)
    (seedHash : jsstring) (targetBlockNumber : Z)
    : outcome (option RandomBlockData) :=
  match web3Instance with
  | None => Returns None
  | Some web3 =>
      catch
        (cleanSeedHash <- removePrefix seedHash ;;
         let byteHex := slice cleanSeedHash 30 32 in
         let ranBlockPos := parseInt16 byteHex in
         let adjustedRanBlockPos :=
           if num_gtb ranBlockPos 127 then num_div_floor ranBlockPos 2
           else ranBlockPos in
         let randomBlockNumber := num_rsub targetBlockNumber adjustedRanBlockPos in
         block <- getBlock web3 randomBlockNumber ;;
         if truthy block
         then Returns (Some {| hash := match block with Some h => h | None => [] end;
                               byteHex := byteHex;
                               adjustedRanBlockPos := adjustedRanBlockPos;
                               randomBlockNumber := randomBlockNumber |})
         else Returns None)
        (fun _ => Returns None)
  end.

(** How the first part of [handleFetchAndVerify] ends: with an alert, or
    with the hash the guess is to be compared with. *)
Inductive FetchStep : Type :=
| Stopped (alert : AlertMessage)
| Mined (minedBlockHash : jsstring) (finalTargetBlockNumber : number)
        (blockDistance : Z) (randomBlockData : option RandomBlockData).

(** [handleFetchAndVerify], up to the point where [minedBlockHash] is
    known. *)
Definition handleFetchAndVerify_fetch (web3Instance : option Web3)
    (targetBlockCount : Z) (complex : bool) : outcome FetchStep :=
  match web3Instance with
  | None =>
      Returns (Stopped {| alertType := AlertError;
                          title := str "Initialization Error";
                          message := str "Web3 not initialized." |})
  | Some web3 =>
      if targetBlockCount =? 0 then
        Returns (Stopped {| alertType := AlertWarning;
                            title := str "Missing Information";
                            message := str "No generated target block available. Please submit a guess first." |})
      else
        catch
          (currentBlockNumber <- getBlockNumber web3 ;;
           let blockDistance := currentBlockNumber - targetBlockCount in
           if blockDistance <? 0 then
             Returns (Stopped {| alertType := AlertWarning;
                                 title := str "Block Not Mined";
                                 message := str "The target block hasn't been mined yet. Please wait for it to be confirmed." |})
           else if negb complex then
             if blockDistance >? 255 then
               Returns (Stopped {| alertType := AlertError;
                                   title := str "Block Distance Exceeded";
                                   message := str "Block distance is "
                                              ++ int_to_string blockDistance
                                              ++ str " blocks. It must be within 255 blocks for standard mode." |})
             else
               block <- getBlock web3 (Some targetBlockCount) ;;
               if truthy block
               then Returns (Mined match block with Some h => h | None => [] end
                                   (Some targetBlockCount) blockDistance None)
               else Returns (Stopped {| alertType := AlertError;
                                        title := str "Fetch Error";
                                        message := str "Unable to retrieve block hash. Please try again." |})
           else
             if blockDistance >? 128 then
               Returns (Stopped {| alertType := AlertError;
                                   title := str "Block Distance Exceeded";
                                   message := str "Block distance is "
                                              ++ int_to_string blockDistance
                                              ++ str " blocks. It must be within 128 blocks for complex mode." |})
             else
               targetBlock <- getBlock web3 (Some targetBlockCount) ;;
               if negb (truthy targetBlock) then
                 Returns (Stopped {| alertType := AlertError;
                                     title := str "Fetch Error";
                                     message := str "Unable to retrieve target block hash. Please try again." |})
               else
                 randomBlockData <-
                   getRandomBlockHash web3Instance
                     match targetBlock with Some h => h | None => [] end
                     targetBlockCount ;;
                 match randomBlockData with
                 | None =>
                     Returns (Stopped {| alertType := AlertError;
                                         title := str "Fetch Error";
                                         message := str "Unable to retrieve random block hash. Please try again." |})
                 | Some data =>
                     Returns (Mined (hash data) (randomBlockNumber data)
                                    blockDistance (Some data))
                 end)
          (fun _ =>
             Returns (Stopped {| alertType := AlertError;
                                 title := str "Fetch Error";
                                 message := str "An error occurred while fetching the target block hash." |}))
  end.

(** One of the two hits [encodeMatch] hands to the ABI encoder. *)
Record HitHex : Type := {
  startByte : Z;
  endByte : Z;
  leftSkip : bool;
  rightSkip : bool
}.

Definition hitHex (matchPos tokenSizeParam : Z) : HitHex :=
  {| startByte := matchPos;
     endByte := matchPos + tokenSizeParam - 1;
     leftSkip := matchPos >? 0;
     rightSkip := matchPos + tokenSizeParam <? 64 |}.

(** [encodeMatch]; [encodeParameters] stands for the ABI encoder of the
    [Web3] library applied to the eight values of the two hits. *)
Definition encodeMatch (encodeParameters : HitHex -> HitHex -> outcome jsstring)
    (matches : list jsstring) (tokenSizeParam : Z)
    (actualHashParam fetchedHashParam : jsstring) : outcome jsstring :=
  match matches with
  | [] => Returns []
  | firstMatch :: rest =>
      cleanActual <- removePrefix actualHashParam ;;
      let firstMatchPos := indexOf cleanActual firstMatch in
      let secondMatch := match rest with m :: _ => m | [] => firstMatch end in
      cleanFetched <- removePrefix fetchedHashParam ;;
      let secondMatchPos := indexOf cleanFetched secondMatch in
      encodeParameters (hitHex firstMatchPos tokenSizeParam)
                       (hitHex secondMatchPos tokenSizeParam)
  end.

End Sliding.

(** ** unnamed/part_001, first [VerifyOffChain] component (fixed chunks) *)

Module Chunked.

(** The loop [for (let i = 0; i < cleanHash.length; i += size)] of
    [tokenize], from the counter [i] on. Every turn pushes one token, and
    an array does not grow without end: [fuel] is the number of elements
    the engine still lets [tokens] take, and the [push] that finds no room
    fails with [RangeError: Invalid array length]. That is how the loop
    ends when a [size] that is not positive keeps [i] from advancing. *)
Fixpoint tokenize_loop (fuel : nat) (cleanHash : jsstring) (size i : Z)
    (tokens : list jsstring) : outcome (list jsstring) :=
  if i <? strlen cleanHash then
    match fuel with
    | O => Throws RangeError
    | S fuel' =>
        tokenize_loop fuel' cleanHash size (i + size)
          (tokens ++ [substring cleanHash i (i + size)])
    end
  else Returns tokens.

(** [tokenize] *)
Definition tokenize (fuel : nat) (hash : jsstring) (size : Z)
    : outcome (list jsstring) :=
  let cleanHash := replace_leading hash (str "0x") in
  tokenize_loop fuel cleanHash size 0 [].

(** [calculateBlockRangeIndication] *)
Definition calculateBlockRangeIndication (distance : Z) : BlockRangeIndication :=
  if distance <=? 2 then
    {| blockDistance := distance; indication := DarkGreen; color := "#10b981" |}
  else if distance <=? 10 then
    {| blockDistance := distance; indication := LightGreen; color := "#34d399" |}
  else if distance <=? 256 then
    {| blockDistance := distance; indication := LightRed; color := "#fb923c" |}
  else
    {| blockDistance := distance; indication := DarkRed; color := "#ef4444" |}.

(** What the complex branch of [fetchTargetBlockHash] derives from the
    hash of the target block before it fetches the random block. *)
Record ComplexOffset : Type := {
  byteHex : jsstring;
  byteValue : number;
  adjustedPosition : number;
  randomBlockNumber : number
}.

Definition complexOffset (targetHash : jsstring) (targetBlockCount : Z)
    : outcome ComplexOffset :=
  let byteHex := slice targetHash 2 4 in
  let byteValue := parseInt16 byteHex in
  let adjustedPosition := num_rem byteValue 256 in
  let randomBlockNumber := num_rsub targetBlockCount adjustedPosition in
  Returns {| byteHex := byteHex; byteValue := byteValue;
             adjustedPosition := adjustedPosition;
             randomBlockNumber := randomBlockNumber |}.

(** The [forEach] of [fetchTargetBlockHash] that collects the matches as
    [index:token] strings. *)
Definition collectMatches (guessTokens fetchedTokens : list jsstring)
    : list jsstring :=
  fold_left (fun matches '(index, token) =>
               if includes fetchedTokens token
               then matches ++ [index_to_string index ++ str ":" ++ token]
               else matches)
            (indexed guessTokens) [].

(** The mark a fetched token gets in the token comparison. *)
Definition highlighted (guessTokens : list jsstring) (token : jsstring) : bool :=
  includes guessTokens token.

(** Tokenizing both hashes and collecting the matches, as
    [fetchTargetBlockHash] does once the fetched hash is known. *)
Definition matchHashes (fuel : nat) (actualHash fetchedHash : jsstring)
    (tokenSize : Z) : outcome (list jsstring) :=
  guessTokens <- tokenize fuel actualHash tokenSize ;;
  fetchedTokens <- tokenize fuel fetchedHash tokenSize ;;
  Returns (collectMatches guessTokens fetchedTokens).

(** [getWalletStorageKey] of this component: the address in lower case. *)
Definition getWalletStorageKey (walletAddress key : jsstring) : jsstring :=
  toLowerCase walletAddress ++ str "_" ++ key.

Section WalletStorage.

(** The values [JSON.parse] yields, with [JSON.parse] ([None] when it
    throws) and [JSON.stringify] ([None] when it throws). *)
Variable value : Type.
Variable parse : jsstring -> option value.
Variable stringify : value -> option jsstring.

(** [getWalletLocalStorage]: [Returns None] is [null]. *)
Definition getWalletLocalStorage (st : Storage) (walletAddress key : jsstring)
    : outcome (option value) :=
  let storageKey := getWalletStorageKey walletAddress key in
  let data := getItem st storageKey in
  if truthy data
  then match parse match data with Some d => d | None => [] end with
       | Some v => Returns (Some v)
       | None => Throws SyntaxError
       end
  else Returns None.

(** [setWalletLocalStorage]: the storage after the call. *)
Definition setWalletLocalStorage (st : Storage) (walletAddress key : jsstring)
    (v : value) : outcome Storage :=
  let storageKey := getWalletStorageKey walletAddress key in
  match stringify v with
  | Some text => Returns (setItem st storageKey text)
  | None => Throws (Error "TypeError")
  end.

(** [migrateOldDataToWalletSpecific]: the storage after the call; what
    is thrown inside is caught and leaves the storage as it is then. *)
Definition migrateOldDataToWalletSpecific (st : Storage)
    (walletAddress : jsstring) : Storage :=
  let oldAllGuesses := getItem st (str "allGuessSubmissions") in
  let walletKey := getWalletStorageKey walletAddress (str "allGuessSubmissions") in
  let alreadyMigrated := getItem st walletKey in
  if truthy oldAllGuesses && negb (truthy alreadyMigrated) then
    match parse match oldAllGuesses with Some d => d | None => [] end with
    | Some oldGuesses =>
        match setWalletLocalStorage st walletAddress
                (str "allGuessSubmissions") oldGuesses with
        | Returns st' => st'
        | _ => st
        end
    | None => st
    end
  else st.

End WalletStorage.

(** What [fetchTargetBlockHash] has when the hash to compare with is
    known. *)
Record Fetched : Type := {
  rangeIndication : BlockRangeIndication;
  complexCalculation : option ComplexOffset;
  fetchedHash : jsstring;
  targetBlockNumber : Z
}.

Inductive FetchStep : Type :=
| Stopped (alert : AlertMessage)
| Found (result : Fetched).

(** The message of a caught error, or the given text when it has none. *)
Definition message_or (e : error) (default : jsstring) : jsstring :=
  match e with
  | Error msg => match str msg with [] => default | m => m end
  | _ => default
  end.

(** [fetchTargetBlockHash], up to the point where [fetchedHash] is
    known. *)
Definition fetchTargetBlockHash_fetch (web3Instance : option Web3)
    (targetBlockCount : Z) (complex : bool) : outcome FetchStep :=
  match web3Instance with
  | None =>
      Returns (Stopped {| alertType := AlertError;
                          title := str "Web3 Not Initialized";
                          message := str "Please wait for Web3 to initialize." |})
  | Some web3 =>
      if targetBlockCount =? 0 then
        Returns (Stopped {| alertType := AlertError;
                            title := str "Invalid Block Number";
                            message := str "Target block number is not set." |})
      else
        catch
          (currentBlock <- getBlockNumber web3 ;;
           let distanceToTarget := Z.abs (currentBlock - targetBlockCount) in
           let rangeIndication := calculateBlockRangeIndication distanceToTarget in
           let targetBlockNumber := targetBlockCount in
           if complex && (distanceToTarget >? 256) then
             targetBlock <- getBlock web3 (Some targetBlockCount) ;;
             if negb (truthy targetBlock) then Throws (Error "Target block not found")
             else
               let targetHash := match targetBlock with Some h => h | None => [] end in
               offset <- complexOffset targetHash targetBlockCount ;;
               randomBlock <- getBlock web3 (randomBlockNumber offset) ;;
               if negb (truthy randomBlock) then Throws (Error "Random block not found")
               else
                 Returns (Found {| rangeIndication := rangeIndication;
                                   complexCalculation := Some offset;
                                   fetchedHash :=
                                     match randomBlock with Some h => h | None => [] end;
                                   targetBlockNumber := targetBlockNumber |})
           else
             block <- getBlock web3 (Some targetBlockCount) ;;
             if negb (truthy block) then Throws (Error "Block not found")
             else
               Returns (Found {| rangeIndication := rangeIndication;
                                 complexCalculation := None;
                                 fetchedHash :=
                                   match block with Some h => h | None => [] end;
                                 targetBlockNumber := targetBlockNumber |}))
          (fun e =>
             Returns (Stopped {| alertType := AlertError;
                                 title := str "Fetch Error";
                                 message :=
                                   message_or e (str "Failed to fetch block hash.") |}))
  end.

End Chunked.

(** ** History/-174c82bc/taF9.tsx, [VerifyOffChain] (token by token) *)

Module Positional.

(** What the complex branch of [handleVerify] derives from the hash of
    the target block. *)
Record ComplexOffset : Type := {
  byteHex : jsstring;
  byteValue : number;
  ranBlockPos : number;
  adjustedRanBlockPos : number
}.

Definition complexOffset (targetBlockHashStr : jsstring) (targetBlockCount : Z)
    : outcome ComplexOffset :=
  let byteHex := slice targetBlockHashStr 2 4 in
  let byteValue := parseInt16 byteHex in
  let ranBlockPos := num_add (num_rem byteValue 100) 1 in
  let adjustedRanBlockPos := num_rsub targetBlockCount ranBlockPos in
  Returns {| byteHex := byteHex; byteValue := byteValue;
             ranBlockPos := ranBlockPos;
             adjustedRanBlockPos := adjustedRanBlockPos |}.

(** [str.match(new RegExp(`.{1,${tokenSize}}`, "g")) || []]. The pattern
    [.{1,0}] is rejected when the [RegExp] is built; with a negative
    [tokenSize] the braces are not a quantifier and the pattern is one
    character followed by the literal text [{1,tokenSize}]. *)
Definition matchTokens (s : jsstring) (tokenSize : Z)
    : outcome (list jsstring) :=
  if tokenSize =? 0 then Throws SyntaxError
  else if tokenSize <? 0 then
    Returns (match_dot_literal
               (str "{1," ++ int_to_string tokenSize ++ str "}") s 0)
  else Returns (match_runs (Z.to_nat tokenSize) [] s).

(** [fetchedTokens] of [handleVerify]. *)
Definition fetchedTokens (userTokens : list jsstring) (finalBlockHash : jsstring)
    (tokenSize : Z) : outcome (list jsstring) :=
  matchTokens
    (substring (replace_first finalBlockHash (str "0x")) 0
               (tokenSize * Z.of_nat (List.length userTokens)))
    tokenSize.

(** [userTokens.every((token, i) => token === fetchedTokens[i])] *)
Definition every_equal (userTokens fetched : list jsstring) : bool :=
  forallb (fun '(i, token) =>
             match nth_error fetched i with
             | Some t => jsstring_eqb token t
             | None => false
             end)
          (indexed userTokens).

(** [isMatch] of [handleVerify]. *)
Definition isMatch (userTokens : list jsstring) (finalBlockHash : jsstring)
    (tokenSize : Z) : outcome bool :=
  fetched <- fetchedTokens userTokens finalBlockHash tokenSize ;;
  Returns (Nat.eqb (List.length userTokens) (List.length fetched)
           && every_equal userTokens fetched).

(** [getWalletStorageKey] of this component: the base key first, and the
    base key alone without a wallet. *)
Definition getWalletStorageKey (baseKey : jsstring)
    (walletAddress : option jsstring) : jsstring :=
  match walletAddress with
  | None => baseKey
  | Some w =>
      if is_empty w || jsstring_eqb w (str "0x0") then baseKey
      else baseKey ++ str "_" ++ toLowerCase w
  end.

(** The effect that sets [blockRangeIndication] from the target and the
    current block number; [None] when it leaves the state as it is. *)
Definition blockRangeEffect (targetBlockCount : option Z)
    (currentBlockNumber : Z) : option BlockRangeIndication :=
  match targetBlockCount with
  | None => None
  | Some target =>
      if negb (target =? 0) && (currentBlockNumber >? 0) then
        let distance := target - currentBlockNumber in
        Some
          (if distance >? 0 then
             if distance >? 100 then
               {| blockDistance := distance; indication := DarkRed; color := "#dc2626" |}
             else
               {| blockDistance := distance; indication := LightRed; color := "#f87171" |}
           else
             let absDist := Z.abs distance in
             if absDist <=? 100 then
               {| blockDistance := distance; indication := LightGreen; color := "#4ade80" |}
             else
               {| blockDistance := distance; indication := DarkGreen; color := "#10b981" |})
      else None
  end.

(** The state [blockRangeIndication] at the start. *)
Definition initialBlockRangeIndication : BlockRangeIndication :=
  {| blockDistance := 0; indication := DarkGreen; color := "#10b981" |}.

(** The state [blockRangeIndication] once the effect has run for a target
    and a current block number: what the effect sets, or else what the
    state held before. *)
Definition blockRangeIndication_after (blockRangeIndication : BlockRangeIndication)
    (targetBlockCount : option Z) (currentBlockNumber : Z)
    : BlockRangeIndication :=
  match blockRangeEffect targetBlockCount currentBlockNumber with
  | Some set => set
  | None => blockRangeIndication
  end.

(** The three guards at the head of [handleVerify]: the alert they stop
    with, or [None] when the verification goes on. *)
Definition handleVerify_guards (hasStoredGuessData : bool)
    (targetBlockCount : option Z) (currentBlockNumber : Z)
    : option (AlertType * jsstring) :=
  if negb hasStoredGuessData then
    Some (AlertError, str "No guess data found to verify.")
  else
    match targetBlockCount with
    | None => Some (AlertError, str "Target block number not available.")
    | Some target =>
        if target =? 0 then
          Some (AlertError, str "Target block number not available.")
        else if currentBlockNumber <? target then
          Some (AlertWarning,
                str "Target block " ++ int_to_string target
                ++ str " has not been mined yet. Current block: "
                ++ int_to_string currentBlockNumber)
        else None
    end.

(** [renderFetchedTokens]: the fetched tokens with the mark each gets;
    [None] is [null]. *)
Definition renderFetchedTokens (fetchedBlockHash : jsstring)
    (userTokens : list jsstring) (tokenSize : Z)
    : outcome (option (list (jsstring * bool))) :=
  if is_empty fetchedBlockHash then Returns None
  else
    fetched <- fetchedTokens userTokens fetchedBlockHash tokenSize ;;
    Returns (Some (map (fun '(index, token) =>
                          (token,
                           match nth_error userTokens index with
                           | Some u => jsstring_eqb u token
                           | None => false
                           end))
                       (indexed fetched))).

End Positional.

(** ** History/-3fea083f/a6Xk.tsx, [GuessPage] *)

Unset Elimination Schemes.

(** The JavaScript values [convertBigIntToString] tells apart. An object
    is given by its own enumerable properties, in the order in which
    [for ... in] visits them, and by its prototype when that is not
    [Object.prototype]: [Some VNull] stands for no prototype at all. *)
Inductive JSValue : Type :=
| VNull
| VUndefined
| VBigInt (z : Z)
| VString (s : jsstring)
| VNumber (n : number)
| VBool (b : bool)
| VArray (items : list JSValue)
| VObject (proto : option JSValue) (props : list (jsstring * JSValue)).

Set Elimination Schemes.

Module GuessPage.

(** Whether [key] is among the own properties. *)
Definition has_key {A : Type} (key : jsstring) (props : list (jsstring * A))
    : bool :=
  existsb (fun '(k, _) => jsstring_eqb k key) props.

(** Writing an own data property: the value of an existing key is
    replaced where it stands, a new key comes last. *)
Fixpoint assign_property (props : list (jsstring * JSValue)) (key : jsstring)
    (value : JSValue) : list (jsstring * JSValue) :=
  match props with
  | [] => [(key, value)]
  | (k, v) :: rest =>
      if jsstring_eqb k key then (k, value) :: rest
      else (k, v) :: assign_property rest key value
  end.

(** Whether an assignment to [__proto__] that goes up the prototype chain
    from [proto] arrives at the setter of [Object.prototype]: not when the
    chain ends before, nor when an object on the way has a property of
    that name of its own. *)
Fixpoint proto_setter_inherited (proto : JSValue) : bool :=
  match proto with
  | VArray _ => true
  | VObject above props =>
      negb (has_key (str "__proto__") props)
      && match above with
         | None => true
         | Some q => proto_setter_inherited q
         end
  | _ => false
  end.

(** [converted[key] = value] on the object that [convertBigIntToString]
    builds. The key [__proto__], as long as the object has no property of
    that name itself, goes to the setter it inherits from
    [Object.prototype]: an object, an array or [null] becomes the
    prototype, any other value is dropped, and in neither case does the
    object get a property. *)
Definition set_property (converted : JSValue) (key : jsstring) (value : JSValue)
    : JSValue :=
  match converted with
  | VObject proto props =>
      if jsstring_eqb key (str "__proto__") && negb (has_key key props)
         && match proto with
            | None => true
            | Some p => proto_setter_inherited p
            end
      then match value with
           | VNull | VArray _ | VObject _ _ => VObject (Some value) props
           | _ => converted
           end
      else VObject proto (assign_property props key value)
  | _ => converted
  end.

(** [convertBigIntToString] *)
Fixpoint convertBigIntToString (obj : JSValue) : JSValue :=
  match obj with
  | VNull => obj
  | VUndefined => obj
  | VBigInt z => VString (int_to_string z)
  | VArray items => VArray (map convertBigIntToString items)
  | VObject _ props =>
      fold_left (fun converted '(key, v) =>
                   set_property converted key (convertBigIntToString v))
                props (VObject None [])
  | _ => obj
  end.

(** [ExportableGuessData] *)
Record ExportableGuessData : Type := {
  Sno : Z;
  blockIncrementCount : Z;
  blockHashGuess : jsstring;
  tokenSize : Z;
  paymentPaidBet : jsstring;
  overWrite : bool;
  complex : bool;
  dummyHash : jsstring;
  actualHash : jsstring;
  secretKey : jsstring;
  guessId : Z;
  tokens : list jsstring;
  timestamp : Z;
  txHash : option jsstring;
  gasUsed : option jsstring;
  formattedPayment : jsstring;
  contractBlockNumber : option jsstring
}.

(** [existingGuesses.findIndex((g) => g.guessId === guessId)], counting
    from [i]; [-1] when no guess has the id. *)
Fixpoint findIndex_from (existingGuesses : list ExportableGuessData)
    (id i : Z) : Z :=
  match existingGuesses with
  | [] => -1
  | g :: rest => if guessId g =? id then i else findIndex_from rest id (i + 1)
  end.

(** [existingGuesses[index] = exportableData] for an index of the list. *)
Fixpoint assign_at (existingGuesses : list ExportableGuessData) (index : nat)
    (exportableData : ExportableGuessData) : list ExportableGuessData :=
  match existingGuesses, index with
  | [], _ => []
  | _ :: rest, O => exportableData :: rest
  | g :: rest, S k => g :: assign_at rest k exportableData
  end.

(** The update of the list of guesses in the receipt handler of
    [handleSubmit]: the guess replaces the one with its id, or is put at
    the end. *)
Definition saveGuess (existingGuesses : list ExportableGuessData) (id : Z)
    (exportableData : ExportableGuessData) : list ExportableGuessData :=
  let index := findIndex_from existingGuesses id 0 in
  if negb (index =? -1)
  then assign_at existingGuesses (Z.to_nat index) exportableData
  else existingGuesses ++ [exportableData].

(** [allGuesses.find((g) => g.guessId === guessId)], as the verification
    pages look a guess up. *)
Definition findGuess (allGuesses : list ExportableGuessData) (id : Z)
    : option ExportableGuessData :=
  find (fun g => guessId g =? id) allGuesses.

(** What [JSON.parse] can yield where the guesses are kept, as far as the
    receipt handler and the loaders tell values apart; an array is taken
    to hold guesses. *)
Inductive StoredValue : Type :=
| SFalsy
| SGuesses (guesses : list ExportableGuessData)
| SGuess (guess : ExportableGuessData)
| SOther.

Section Receipt.

(** [JSON.parse] ([None] when it throws) and [JSON.stringify] ([None]
    when it throws). *)
Variable parse : jsstring -> option StoredValue.
Variable stringify : StoredValue -> option jsstring.

(** [getWalletLocalStorage(registeredWallet, "allGuessSubmissions") || []]
    in the receipt handler of [handleSubmit]; a value that is neither
    falsy nor an array fails at [existingGuesses.findIndex]. Reading and
    writing are those of [getWalletLocalStorage] and
    [setWalletLocalStorage] of this file, which build the key from the
    address in lower case. *)
Definition existingGuesses (st : Storage) (registeredWallet : jsstring)
    : outcome (list ExportableGuessData) :=
  stored <- Chunked.getWalletLocalStorage StoredValue parse st registeredWallet
              (str "allGuessSubmissions") ;;
  match stored with
  | None => Returns []
  | Some SFalsy => Returns []
  | Some (SGuesses guesses) => Returns guesses
  | Some _ => Throws (Error "TypeError")
  end.

(** The receipt handler of [handleSubmit] from [existingGuesses] to the
    second [setWalletLocalStorage]: the storage after it. *)
Definition saveToStorage (st : Storage) (registeredWallet : jsstring) (id : Z)
    (exportableData : ExportableGuessData) : outcome Storage :=
  existing <- existingGuesses st registeredWallet ;;
  st1 <- Chunked.setWalletLocalStorage StoredValue stringify st registeredWallet
           (str "allGuessSubmissions")
           (SGuesses (saveGuess existing id exportableData)) ;;
  Chunked.setWalletLocalStorage StoredValue stringify st1 registeredWallet
    (str "lastGuessSubmission") (SGuess exportableData).

End Receipt.

(** The two numbers of the form the handlers guard. *)
Record FormNumbers : Type := {
  blockIncrement : number;
  formTokenSize : number
}.

Definition initialForm : FormNumbers :=
  {| blockIncrement := Some 10; formTokenSize := Some 3 |}.

Definition num_in_range (lo hi : Z) (v : number) : bool :=
  match v with
  | Some x => (lo <=? x) && (x <=? hi)
  | None => false
  end.

(** [handleBlockIncrementChange] *)
Definition handleBlockIncrementChange (f : FormNumbers) (v : number)
    : FormNumbers :=
  if num_in_range 10 2048 v
  then {| blockIncrement := v; formTokenSize := formTokenSize f |}
  else f.

(** [handleTokenSizeChange] *)
Definition handleTokenSizeChange (f : FormNumbers) (v : number) : FormNumbers :=
  if num_in_range 3 64 v
  then {| blockIncrement := blockIncrement f; formTokenSize := v |}
  else f.

(** What can happen to the two numbers: a change through a handler, or
    the confirmed [handleClear]. *)
Inductive FormEvent : Type :=
| BlockIncrementChange (v : number)
| TokenSizeChange (v : number)
| Clear.

Definition formStep (f : FormNumbers) (e : FormEvent) : FormNumbers :=
  match e with
  | BlockIncrementChange v => handleBlockIncrementChange f v
  | TokenSizeChange v => handleTokenSizeChange f v
  | Clear => initialForm
  end.

(** The fields [validateForm] reads. *)
Record Form : Type := {
  formGuessId : number;
  numbers : FormNumbers;
  formActualHash : jsstring;
  secretHash : jsstring;
  formDummyHash : jsstring;
  overwrite : bool
}.

(** [!n] for a number: zero and [NaN] are false. *)
Definition num_falsy (n : number) : bool :=
  match n with
  | Some x => x =? 0
  | None => true
  end.

Definition num_ltb (n : number) (k : Z) : bool :=
  match n with Some x => x <? k | None => false end.

Definition num_isNaN (n : number) : bool :=
  match n with Some _ => false | None => true end.

Section ValidateForm.

(** [validateHashFormat] and [ZERO_HASH] of the module [HashUtils]. *)
Variable validateHashFormat : jsstring -> bool.
Variable ZERO_HASH : jsstring.

Definition push_if (c : bool) (msg : string) (errors : list jsstring)
    : list jsstring :=
  if c then errors ++ [str msg] else errors.

(** [validateForm] *)
Definition validateForm (f : Form) : list jsstring :=
  let blockIncrement := blockIncrement (numbers f) in
  let tokenSize := formTokenSize (numbers f) in
  let errors := [] in
  let errors := push_if (num_falsy (formGuessId f)) "Guess ID is required." errors in
  let errors := push_if (num_falsy blockIncrement) "Block Increment Count is required." errors in
  let errors := push_if (is_empty (formActualHash f)) "Actual Hash is required." errors in
  let errors := push_if (is_empty (secretHash f)) "Secret Key Hash is required." errors in
  let errors := push_if (is_empty (formDummyHash f)) "Dummy Hash is required." errors in
  let errors := push_if (num_falsy tokenSize) "Token Size is required." errors in
  let errors := push_if (num_ltb blockIncrement 10 || num_gtb blockIncrement 2048)
                  "Please enter a valid block number between 513 and 2048" errors in
  let errors := push_if (num_ltb tokenSize 3 || num_gtb tokenSize 64)
                  "Please enter a valid token size between 4 and 64" errors in
  let errors := push_if (negb (is_empty (formActualHash f))
                         && negb (validateHashFormat (formActualHash f)))
                  "Actual hash must be a valid 64-character hexadecimal string." errors in
  let errors := push_if (negb (is_empty (secretHash f))
                         && negb (validateHashFormat (secretHash f)))
                  "Secret key Hash must be a valid 64-character hexadecimal string." errors in
  let errors := push_if (negb (is_empty (formDummyHash f))
                         && negb (validateHashFormat (formDummyHash f)))
                  "Dummy hash must be a valid 64-character hexadecimal string." errors in
  let errors := push_if (negb (overwrite f))
                  "Cannot submit the form with overwrite is false. Please enable overwrite to submit." errors in
  let errors := push_if (jsstring_eqb (formDummyHash f) ZERO_HASH)
                  "Dummy hash cannot be the default zero value." errors in
  let errors := push_if (jsstring_eqb (formActualHash f) ZERO_HASH)
                  "Actual hash cannot be the default zero value." errors in
  let errors := push_if (jsstring_eqb (secretHash f) ZERO_HASH)
                  "Secret key cannot be the default zero value." errors in
  let errors := push_if (num_isNaN blockIncrement)
                  "Block Increment Count must be a number." errors in
  let errors := push_if (num_isNaN tokenSize) "Token Size must be a number." errors in
  let errors := push_if (match tokenSize with Some 0 => true | _ => false end)
                  "Token Size cannot be zero." errors in
  errors.

End ValidateForm.

Section Migration.

Variable value : Type.
Variable parse : jsstring -> option value.
Variable stringify : value -> option jsstring.

(** [migrateOldDataToWalletSpecific] of this file, which also copies the
    last guess: the storage after the call. *)
Definition migrateOldDataToWalletSpecific (st : Storage)
    (walletAddress : jsstring) : Storage :=
  let oldAllGuesses := getItem st (str "allGuessSubmissions") in
  let oldLastGuess := getItem st (str "lastGuessSubmission") in
  let walletKey :=
    Chunked.getWalletStorageKey walletAddress (str "allGuessSubmissions") in
  let alreadyMigrated := getItem st walletKey in
  if truthy oldAllGuesses && negb (truthy alreadyMigrated) then
    match parse match oldAllGuesses with Some d => d | None => [] end with
    | None => st
    | Some oldGuesses =>
        match Chunked.setWalletLocalStorage value stringify st walletAddress
                (str "allGuessSubmissions") oldGuesses with
        | Returns st1 =>
            if truthy oldLastGuess then
              match parse match oldLastGuess with Some d => d | None => [] end with
              | None => st1
              | Some lastGuess =>
                  match Chunked.setWalletLocalStorage value stringify st1
                          walletAddress (str "lastGuessSubmission") lastGuess with
                  | Returns st2 => st2
                  | _ => st1
                  end
              end
            else st1
        | _ => st
        end
    end
  else st.

End Migration.

End GuessPage.

(** ** part_001, [loadGuessData] of the two [VerifyOffChain] components *)

Section LoadGuessData.

Variable parse : jsstring -> option GuessPage.StoredValue.

(** [(getWalletLocalStorage(...) || []).find((g) => g.guessId === guessId)]
    inside the [try] of [loadGuessData]: the guess handed to
    [setStoredGuessData], [None] when there is none or when something was
    thrown and caught. *)
Definition find_stored (read : outcome (option GuessPage.StoredValue))
    (guessId : Z) : option GuessPage.ExportableGuessData :=
  match read with
  | Returns (Some (GuessPage.SGuesses allGuesses)) =>
      GuessPage.findGuess allGuesses guessId
  | _ => None
  end.

(** [loadGuessData] of the chunking component. *)
Definition Chunked_loadGuessData (st : Storage)
    (connectedAccount : option jsstring) (guessId : Z)
    : option GuessPage.ExportableGuessData :=
  match connectedAccount with
  | None => None
  | Some account =>
      if is_empty account then None
      else find_stored
             (Chunked.getWalletLocalStorage GuessPage.StoredValue parse st
                account (str "allGuessSubmissions"))
             guessId
  end.

(** [loadGuessData] of the sliding-window component. *)
Definition Sliding_loadGuessData (st : Storage)
    (connectedAccount : option jsstring) (guessId : Z)
    : option GuessPage.ExportableGuessData :=
  match connectedAccount with
  | None => None
  | Some account =>
      if is_empty account then None
      else find_stored
             (Sliding.getWalletLocalStorage GuessPage.StoredValue parse st
                account (str "allGuessSubmissions"))
             guessId
  end.

End LoadGuessData.

(** ** Input validation of [GuessPage] *)

Definition is_hex_digit (c : ascii) : bool :=
  let n := N_of_ascii c in
  (((48 <=? n) && (n <=? 57)) || ((97 <=? n) && (n <=? 102))
   || ((65 <=? n) && (n <=? 70)))%N.

Definition is_hex (s : jsstring) : bool := forallb is_hex_digit s.

(** A canonical hash: exactly 64 hexadecimal digits, no prefix. *)
Definition valid_hash (h : jsstring) : Prop :=
  List.length h = 64%nat /\ is_hex h = true.

(** The token-size rule of [validateForm]: an error is reported when
    [tokenSize < 3 || tokenSize > 64]. *)
Definition tokenSize_accepted (tokenSize : Z) : bool :=
  negb ((tokenSize <? 3) || (tokenSize >? 64)).

(** ** Sample inputs *)

(** A 64-digit hash, and the same hash as a block comes with it. *)
Definition sample_hash : jsstring :=
  str "9f86d081884c7d659a2feaa0c55ad015a3bf4f1b2b0b822cd15d6c15b0f00a08".

Definition sample_block_hash : jsstring := str "0x" ++ sample_hash.

(** The two halves of the sample hash in the other order. *)
Definition sample_hash_swapped : jsstring :=
  skipn 32 sample_hash ++ firstn 32 sample_hash.

(** The sample hash cut into pieces of three characters. *)
Definition sample_tokens : list jsstring := match_runs 3 [] sample_hash.

(** A chain of [current + 1] blocks that all carry the sample hash. *)
Definition sample_web3 (current : Z) : Web3 :=
  {| getBlockNumber := Returns current;
     getBlock := fun n =>
       match n with
       | Some k => if (0 <=? k) && (k <=? current)
                   then Returns (Some sample_block_hash) else Returns None
       | None => Throws (Error "invalid block number")
       end |}.

(** The matches of the sample hash against its halves swapped. *)
Definition sample_matches : list jsstring :=
  match Sliding.findMatchingTokens sample_block_hash
          (str "0x" ++ sample_hash_swapped) 3 with
  | Returns l => l
  | _ => []
  end.

(** An encoder that writes the two start bytes in decimal. *)
Definition sample_encoder (h1 h2 : Sliding.HitHex) : outcome jsstring :=
  Returns (int_to_string (Sliding.startByte h1) ++ str ","
           ++ int_to_string (Sliding.startByte h2)).

(** A stand-in for [JSON.stringify] and [JSON.parse] on strings without
    quotes or escapes: the text between double quotes. *)
Definition quote_char : ascii := ascii_of_nat 34.

Definition sample_stringify (v : jsstring) : option jsstring :=
  Some (quote_char :: v ++ [quote_char]).

Definition sample_parse (text : jsstring) : option jsstring :=
  match text with
  | c :: r => if Ascii.eqb c quote_char
              then match rev r with
                   | d :: body => if Ascii.eqb d quote_char then Some (rev body) else None
                   | [] => None
                   end
              else None
  | [] => None
  end.

(** A wallet address in mixed case. *)
Definition sample_wallet : jsstring :=
  str "0x52908400098527886E0F7030069857D2E4169EE7".

(** What [fetchTargetBlockHash] has in complex mode on a chain of 2001
    blocks for the target block 1000. *)
Definition sample_fetched : Chunked.Fetched :=
  {| Chunked.rangeIndication := Chunked.calculateBlockRangeIndication 1000;
     Chunked.complexCalculation :=
       Some {| Chunked.byteHex := str "9f";
               Chunked.byteValue := Some 159;
               Chunked.adjustedPosition := Some 159;
               Chunked.randomBlockNumber := Some 841 |};
     Chunked.fetchedHash := sample_block_hash;
     Chunked.targetBlockNumber := 1000 |}.

(** A guess as [GuessPage] stores it. *)
Definition sample_guess (id size : Z) : GuessPage.ExportableGuessData :=
  {| GuessPage.Sno := id;
     GuessPage.blockIncrementCount := 10;
     GuessPage.blockHashGuess := sample_block_hash;
     GuessPage.tokenSize := size;
     GuessPage.paymentPaidBet := str "0";
     GuessPage.overWrite := true;
     GuessPage.complex := false;
     GuessPage.dummyHash := sample_block_hash;
     GuessPage.actualHash := sample_block_hash;
     GuessPage.secretKey := sample_block_hash;
     GuessPage.guessId := id;
     GuessPage.tokens := sample_tokens;
     GuessPage.timestamp := 0;
     GuessPage.txHash := None;
     GuessPage.gasUsed := None;
     GuessPage.formattedPayment := str "Free";
     GuessPage.contractBlockNumber := None |}.

(** A storage that holds two guesses of the sample wallet, with a
    stand-in for [JSON.parse] and [JSON.stringify] that knows the texts
    of the list before and after the guess 2 is submitted again. *)
Definition sample_storage : Storage :=
  [(toLowerCase sample_wallet ++ str "_allGuessSubmissions", str "before")].

Definition sample_parse_guesses (text : jsstring)
    : option GuessPage.StoredValue :=
  if jsstring_eqb text (str "before")
  then Some (GuessPage.SGuesses [sample_guess 1 3; sample_guess 2 4])
  else if jsstring_eqb text (str "after")
  then Some (GuessPage.SGuesses [sample_guess 1 3; sample_guess 2 5])
  else if jsstring_eqb text (str "last")
  then Some (GuessPage.SGuess (sample_guess 2 5))
  else None.

Definition sample_stringify_guesses (v : GuessPage.StoredValue)
    : option jsstring :=
  match v with
  | GuessPage.SGuesses _ => Some (str "after")
  | GuessPage.SGuess _ => Some (str "last")
  | _ => None
  end.

(** A format check and a zero hash to try [validateForm] with. *)
Definition sample_validateHashFormat (h : jsstring) : bool :=
  let body := replace_leading h (str "0x") in
  Nat.eqb (List.length body) 64 && is_hex body.

Definition sample_zero_hash : jsstring := str "0x" ++ repeat "0"%char 64.

(** A form after some typing and a reset. *)
Definition sample_form : GuessPage.Form :=
  {| GuessPage.formGuessId := Some 1;
     GuessPage.numbers :=
       fold_left GuessPage.formStep
         [GuessPage.TokenSizeChange (Some 5); GuessPage.BlockIncrementChange None;
          GuessPage.Clear; GuessPage.TokenSizeChange (Some 100);
          GuessPage.BlockIncrementChange (Some 600)]
         GuessPage.initialForm;
     GuessPage.formActualHash := sample_block_hash;
     GuessPage.secretHash := sample_block_hash;
     GuessPage.formDummyHash := sample_block_hash;
     GuessPage.overwrite := true |}.

(** ** The notions the properties are stated with *)

(** The conditions under which a hash field of the form raises no
    error. *)
Definition hash_accepted (validateHashFormat : jsstring -> bool)
    (ZERO_HASH h : jsstring) : Prop :=
  h <> [] /\ validateHashFormat h = true /\ h <> ZERO_HASH.

(** A list of pieces of [n] characters each, the last one possibly
    shorter but not empty. *)
Definition pieces_of (n : nat) (l : list jsstring) : Prop :=
  Forall (fun t => List.length t = n) (removelast l)
  /\ (l <> [] -> (1 <= List.length (last l []) <= n)%nat).

(** Whether a [BigInt] occurs anywhere in a value, its prototypes
    included. *)
Fixpoint has_bigint (v : JSValue) : bool :=
  match v with
  | VBigInt _ => true
  | VArray items => existsb has_bigint items
  | VObject proto props =>
      match proto with
      | Some p => has_bigint p
      | None => false
      end
      || existsb (fun '(_, x) => has_bigint x) props
  | _ => false
  end.

(** No key twice. *)
Fixpoint distinct_keys (keys : list jsstring) : bool :=
  match keys with
  | [] => true
  | k :: rest => negb (includes rest k) && distinct_keys rest
  end.

(** A value whose objects, at every depth, have [Object.prototype] as
    their prototype, no key twice and no key [__proto__]. *)
Fixpoint ordinary (v : JSValue) : bool :=
  match v with
  | VArray items => forallb ordinary items
  | VObject proto props =>
      match proto with
      | None => true
      | Some _ => false
      end
      && distinct_keys (map fst props)
      && negb (GuessPage.has_key (str "__proto__") props)
      && forallb (fun '(_, x) => ordinary x) props
  | _ => true
  end.

(** The keys other than [__proto__]. *)
Definition without_proto_key (keys : list jsstring) : list jsstring :=
  filter (fun k => negb (jsstring_eqb k (str "__proto__"))) keys.

(** Every hash the chain gives is [0x] and 64 hexadecimal digits. *)
Definition block_hashes_valid (web3 : Web3) : Prop :=
  forall n h, getBlock web3 n = Returns (Some h) -> h <> [] ->
    exists body, h = str "0x" ++ body /\ valid_hash body.


(** Putting overlapping windows of width [size] back together: the first
    window, then the one new character each later window brings. *)
Definition merge_overlapping (size : nat) (tokens : list jsstring) : jsstring :=
  match tokens with
  | [] => []
  | t :: ts => t ++ flat_map (skipn (size - 1)) ts
  end.

(** The characters [h[i:i+s]]. *)
Definition window (h : jsstring) (i s : nat) : jsstring := firstn s (skipn i h).

(** All windows of width [s] of [h], from left to right. *)
Definition windows (h : jsstring) (s : nat) : list jsstring :=
  map (fun i => window h i s) (seq 0 (List.length h - s + 1)).

(** Position of an indication among the four buckets. *)
Definition bucket (i : Indication) : nat :=
  match i with
  | DarkGreen => 1 | LightGreen => 2 | LightRed => 3 | DarkRed => 4
  end.

(** The classifier as the specification words it: bucket 1 for
    [distance <= t1], bucket 2 for [distance <= t2], bucket 3 for
    [distance <= t3], bucket 4 otherwise. *)
Definition spec_classify (distance : Z) (thresholds : Z * Z * Z) : nat :=
  let '(t1, t2, t3) := thresholds in
  if distance <=? t1 then 1%nat
  else if distance <=? t2 then 2%nat
  else if distance <=? t3 then 3%nat
  else 4%nat.

(** The distinct values of [l], each at its first occurrence. *)
Definition distinct (l : list jsstring) : list jsstring :=
  fold_left Set_add l [].

(** The SET policy as the specification words it: the distinct values of
    [a] that occur in [b], in first-occurrence order of [a], each with its
    first index in [a] and in [b]. *)
Definition spec_findMatches_SET (a b : list jsstring)
    : list (jsstring * nat * nat) :=
  map (fun t => (t, first_index a t, first_index b t))
      (filter (includes b) (distinct a)).

(** The POSITIONAL policy as the specification words it (truncate to the
    shorter sequence): both sequences are non-empty and agree at every
    shared index. *)
Definition spec_findMatches_POSITIONAL (a b : list jsstring) : bool :=
  negb (Nat.eqb (List.length a) 0) && negb (Nat.eqb (List.length b) 0)
  && forallb (fun '(x, y) => jsstring_eqb x y) (combine a b).

(** [ceil(a / b)] for [b > 0]. *)
Definition ceil_div (a b : Z) : Z := (a + b - 1) / b.

(** * Proofs *)

(** ** Lists and loops *)

Section ListFacts.

Context {A B : Type}.

Lemma fold_left_push (f : B -> A) (l : list B) (acc : list A) :
  fold_left (fun tokens i => tokens ++ [f i]) l acc = acc ++ map f l.
Proof.
  revert acc. induction l as [|x l IH]; intros acc; simpl.
  - now rewrite app_nil_r.
  - rewrite IH. now rewrite <- app_assoc.
Qed.

Lemma fold_left_pointwise (f g : A -> B -> A) (l : list B) (acc : A) :
  (forall a x, f a x = g a x) -> fold_left f l acc = fold_left g l acc.
Proof.
  intros H. revert acc. induction l as [|x l IH]; intros acc; simpl.
  - reflexivity.
  - now rewrite H, IH.
Qed.

End ListFacts.

Lemma slice_window (s : jsstring) (i size : Z) :
  0 <= i -> 0 <= size -> i + size <= strlen s ->
  slice s i (i + size) = window s (Z.to_nat i) (Z.to_nat size).
Proof.
  intros Hi Hs Hb. unfold slice, range, window.
  destruct (Z.ltb_spec i 0); [lia|].
  destruct (Z.ltb_spec (i + size) 0); [lia|].
  rewrite !Z.min_l by lia.
  f_equal. lia.
Qed.

(** ** The sliding-window tokenizer *)

Lemma sliding_loop_windows (h : jsstring) (s : nat) :
  (s <= List.length h)%nat ->
  Sliding.tokenize_loop h (Z.of_nat s) = windows h s.
Proof.
  intros Hs. unfold Sliding.tokenize_loop, windows.
  rewrite fold_left_push. simpl. unfold upto.
  rewrite map_map.
  replace (Z.to_nat (strlen h - Z.of_nat s + 1)) with (List.length h - s + 1)%nat
    by (unfold strlen; lia).
  apply map_ext_in. intros i Hi. apply in_seq in Hi.
  rewrite slice_window by (unfold strlen; lia).
  now rewrite !Nat2Z.id.
Qed.

Lemma window_length (h : jsstring) (i s : nat) :
  (i + s <= List.length h)%nat -> List.length (window h i s) = s.
Proof.
  intros H. unfold window. rewrite length_firstn, length_skipn. lia.
Qed.

Lemma windows_length (h : jsstring) (s : nat) :
  List.length (windows h s) = (List.length h - s + 1)%nat.
Proof. unfold windows. now rewrite length_map, length_seq. Qed.

Lemma windows_nth (h : jsstring) (s i : nat) :
  (i < List.length h - s + 1)%nat ->
  nth_error (windows h s) i = Some (window h i s).
Proof.
  intros Hi. unfold windows. rewrite nth_error_map, nth_error_seq.
  destruct (Nat.ltb_spec i (List.length h - s + 1)); [reflexivity | lia].
Qed.

Lemma windows_all_length (h : jsstring) (s : nat) :
  (s <= List.length h)%nat ->
  Forall (fun t => List.length t = s) (windows h s).
Proof.
  intros Hs. unfold windows. apply Forall_forall. intros t Ht.
  apply in_map_iff in Ht. destruct Ht as [i [<- Hi]]. apply in_seq in Hi.
  apply window_length. lia.
Qed.

Lemma single_chars_run (h : jsstring) (n a : nat) :
  (a + n <= List.length h)%nat ->
  flat_map (fun j => firstn 1 (skipn j h)) (seq a n) = firstn n (skipn a h).
Proof.
  revert a. induction n as [|n IH]; intros a Ha; simpl.
  - reflexivity.
  - rewrite IH by lia.
    assert (Hlen : (a < List.length h)%nat) by lia.
    clear IH Ha. revert a Hlen.
    induction h as [|c h IHh]; intros a Hlen; simpl in *; [lia|].
    destruct a as [|a]; simpl.
    + reflexivity.
    + apply IHh. lia.
Qed.

Lemma map_seq_offset {A : Type} (f : nat -> A) (k n a : nat) :
  map (fun j => f (k + j)%nat) (seq a n) = map f (seq (k + a) n).
Proof.
  revert a. induction n as [|n IH]; intros a; simpl.
  - reflexivity.
  - f_equal. rewrite IH. now rewrite Nat.add_succ_r.
Qed.

Lemma windows_merge (h : jsstring) (s : nat) :
  (1 <= s <= List.length h)%nat ->
  merge_overlapping s (windows h s) = h.
Proof.
  intros [H1 Hs]. unfold windows.
  replace (List.length h - s + 1)%nat with (S (List.length h - s)) by lia.
  rewrite <- cons_seq. simpl map. unfold merge_overlapping.
  rewrite flat_map_concat_map, map_map.
  rewrite (map_ext (fun i => skipn (s - 1) (window h i s))
                   (fun i => firstn 1 (skipn ((s - 1) + i) h))).
  2:{ intros j. unfold window. rewrite skipn_firstn_comm, skipn_skipn.
      now replace (s - (s - 1))%nat with 1%nat by lia. }
  rewrite (map_seq_offset (fun j => firstn 1 (skipn j h))).
  rewrite <- flat_map_concat_map.
  replace (s - 1 + 1)%nat with s by lia.
  rewrite single_chars_run by lia.
  unfold window. simpl skipn.
  rewrite (firstn_all2 (n := List.length h - s)) by (rewrite length_skipn; lia).
  apply firstn_skipn.
Qed.

Lemma tokenSize_accepted_range (tokenSize : Z) :
  tokenSize_accepted tokenSize = true <-> 3 <= tokenSize <= 64.
Proof.
  unfold tokenSize_accepted. rewrite negb_true_iff, orb_false_iff.
  rewrite Z.ltb_ge, Z.gtb_ltb, Z.ltb_ge. tauto.
Qed.

(** C1: on a 64-digit hash and a token size the form accepts (3 to 64) the
    sliding-window [tokenize] returns [64 - s + 1] tokens; token [i] is
    [h[i:i+s]], every token has length [s], and the overlapping tokens put
    back together give [h]. *)
Theorem sliding_tokenize_windows (h : jsstring) (s : Z) :
  valid_hash h -> tokenSize_accepted s = true ->
  exists tokens,
    Sliding.tokenize h s = Returns tokens
    /\ Z.of_nat (List.length tokens) = 64 - s + 1
    /\ (forall i, (i < List.length tokens)%nat ->
                  nth_error tokens i = Some (window h i (Z.to_nat s)))
    /\ Forall (fun t => strlen t = s) tokens
    /\ merge_overlapping (Z.to_nat s) tokens = h.
Proof.
  intros [Hlen _] Hs. apply tokenSize_accepted_range in Hs.
  exists (windows h (Z.to_nat s)).
  assert (Hle : (Z.to_nat s <= List.length h)%nat) by lia.
  repeat split.
  - unfold Sliding.tokenize. f_equal.
    rewrite <- (sliding_loop_windows h (Z.to_nat s) Hle).
    f_equal. lia.
  - rewrite windows_length. lia.
  - intros i Hi. rewrite windows_length in Hi. now apply windows_nth.
  - eapply Forall_impl; [|apply windows_all_length; exact Hle].
    intros t Ht. unfold strlen. simpl in Ht. lia.
  - apply windows_merge. lia.
Qed.

Lemma sliding_tokenize_windows_witness :
  exists tokens,
    Sliding.tokenize sample_hash 3 = Returns tokens
    /\ Z.of_nat (List.length tokens) = 64 - 3 + 1
    /\ (forall i, (i < List.length tokens)%nat ->
                  nth_error tokens i = Some (window sample_hash i (Z.to_nat 3)))
    /\ Forall (fun t => strlen t = 3) tokens
    /\ merge_overlapping (Z.to_nat 3) tokens = sample_hash.
Proof.
  apply (sliding_tokenize_windows sample_hash 3).
  - split; reflexivity.
  - reflexivity.
Defined.

(** ** The chunking tokenizer *)

Lemma ceil_div_last (x size : Z) :
  1 <= x <= size -> ceil_div x size = 1.
Proof.
  intros H. unfold ceil_div. symmetry.
  apply (Z.div_unique _ _ 1 (x - 1)); lia.
Qed.

Lemma ceil_div_step (x size : Z) :
  1 <= size -> size < x -> ceil_div x size = 1 + ceil_div (x - size) size.
Proof.
  intros Hs Hx. unfold ceil_div.
  replace (x + size - 1) with ((x - size + size - 1) + 1 * size) by lia.
  rewrite Z.div_add by lia. lia.
Qed.

Lemma substring_chunk (s : jsstring) (i size : Z) :
  0 <= i < strlen s -> 1 <= size ->
  substring s i (i + size)
  = firstn (Z.to_nat (Z.min size (strlen s - i))) (skipn (Z.to_nat i) s).
Proof.
  intros Hi Hs. unfold substring, range. f_equal; [|f_equal]; lia.
Qed.

Section ChunkLoop.

Variable cleanHash : jsstring.
Variable size : Z.
Hypothesis size_pos : 1 <= size.

Lemma chunk_loop_done (fuel : nat) (i : Z) (tokens : list jsstring) :
  strlen cleanHash <= i ->
  Chunked.tokenize_loop (S fuel) cleanHash size i tokens = Returns tokens.
Proof.
  intros Hi. simpl. destruct (Z.ltb_spec i (strlen cleanHash)); [lia | reflexivity].
Qed.

Lemma chunk_loop_spec (fuel : nat) :
  forall (i : Z) (tokens : list jsstring),
    0 <= i < strlen cleanHash ->
    (Z.to_nat (strlen cleanHash - i) < fuel)%nat ->
    exists rest,
      Chunked.tokenize_loop fuel cleanHash size i tokens = Returns (tokens ++ rest)
      /\ rest <> []
      /\ List.concat rest = skipn (Z.to_nat i) cleanHash
      /\ Z.of_nat (List.length rest) = ceil_div (strlen cleanHash - i) size
      /\ Forall (fun t => strlen t = size) (removelast rest)
      /\ 1 <= strlen (last rest []) <= size.
Proof.
  induction fuel as [|fuel IH]; intros i tokens Hi Hfuel; [lia|].
  simpl. destruct (Z.ltb_spec i (strlen cleanHash)) as [_|]; [|lia].
  rewrite substring_chunk by lia.
  set (tok := firstn _ _).
  assert (Htok : strlen tok = Z.min size (strlen cleanHash - i)).
  { unfold tok, strlen. rewrite length_firstn, length_skipn.
    unfold strlen in *. lia. }
  destruct (Z.le_gt_cases (strlen cleanHash) (i + size)) as [Hlast|Hmore].
  - (* the last chunk *)
    exists [tok]. destruct fuel as [|fuel]; [lia|].
    rewrite chunk_loop_done by lia.
    repeat split; simpl; try lia.
    + discriminate.
    + rewrite app_nil_r. unfold tok. apply firstn_all2.
      rewrite length_skipn. unfold strlen in *. lia.
    + rewrite ceil_div_last; lia.
    + constructor.
  - (* a full chunk, and more to come *)
    destruct (IH (i + size) (tokens ++ [tok])) as (rest & Hrun & Hne & Hcat & Hcnt & Hall & Hlst);
      [lia | lia |].
    exists (tok :: rest).
    split; [etransitivity; [exact Hrun | now rewrite <- app_assoc]|].
    repeat split.
    + discriminate.
    + simpl. rewrite Hcat. unfold tok.
      replace (Z.to_nat (i + size)) with (Z.to_nat size + Z.to_nat i)%nat by lia.
      rewrite <- skipn_skipn.
      replace (Z.to_nat (Z.min size (strlen cleanHash - i))) with (Z.to_nat size) by lia.
      apply firstn_skipn.
    + rewrite (ceil_div_step (strlen cleanHash - i)) by lia.
      simpl List.length. rewrite Nat2Z.inj_succ, Hcnt.
      replace (strlen cleanHash - (i + size)) with (strlen cleanHash - i - size) by lia.
      lia.
    + destruct rest as [|r rest]; [congruence|].
      change (removelast (tok :: r :: rest)) with (tok :: removelast (r :: rest)).
      constructor; [lia | exact Hall].
    + destruct rest as [|r rest]; [congruence|].
      change (last (tok :: r :: rest) []) with (last (r :: rest) []). lia.
    + destruct rest as [|r rest]; [congruence|].
      change (last (tok :: r :: rest) []) with (last (r :: rest) []). lia.
Qed.

End ChunkLoop.

Lemma chunk_loop_deterministic (cleanHash : jsstring) (size : Z) (f1 : nat) :
  forall (f2 : nat) (i : Z) (acc r1 r2 : list jsstring),
    Chunked.tokenize_loop f1 cleanHash size i acc = Returns r1 ->
    Chunked.tokenize_loop f2 cleanHash size i acc = Returns r2 ->
    r1 = r2.
Proof.
  induction f1 as [|f1 IH]; intros f2 i acc r1 r2 H1 H2;
    destruct f2 as [|f2]; simpl in H1, H2;
    destruct (i <? strlen cleanHash); try discriminate; try congruence.
  eapply IH; eassumption.
Qed.

Lemma startsWith_hex_0x (h : jsstring) :
  is_hex h = true -> startsWith h (str "0x") = false.
Proof.
  destruct h as [|c [|d h]]; cbn [startsWith str list_ascii_of_string is_hex forallb];
    intros H; try reflexivity.
  - apply andb_false_r.
  - destruct (Ascii.eqb_spec "0" c); [|reflexivity].
    destruct (Ascii.eqb_spec "x" d) as [<-|]; [|reflexivity].
    apply andb_prop in H. destruct H as [_ H].
    apply andb_prop in H. destruct H as [H _]. discriminate.
Qed.

Lemma replace_leading_hex (h : jsstring) :
  is_hex h = true -> replace_leading h (str "0x") = h.
Proof.
  intros H. unfold replace_leading. now rewrite startsWith_hex_0x.
Qed.

(** C2: on a string of hexadecimal digits and a token size of at least 1
    the chunking [tokenize] returns [ceil(len(h)/s)] tokens whose
    concatenation is [h]; every token but the last has length [s] and the
    last one has between 1 and [s] characters. The loop needs one turn
    per token, so any fuel above [len(h)] is enough. *)
Theorem chunked_tokenize_partition (h : jsstring) (s : Z) :
  is_hex h = true -> 1 <= s ->
  exists tokens,
    (forall fuel, (List.length h < fuel)%nat ->
                  Chunked.tokenize fuel h s = Returns tokens)
    /\ Z.of_nat (List.length tokens) = ceil_div (strlen h) s
    /\ List.concat tokens = h
    /\ Forall (fun t => strlen t = s) (removelast tokens)
    /\ (tokens <> [] -> 1 <= strlen (last tokens []) <= s).
Proof.
  intros Hhex Hs. unfold Chunked.tokenize. rewrite (replace_leading_hex h Hhex).
  destruct h as [|c h].
  - exists []. repeat split.
    + intros fuel Hf. destruct fuel; [simpl in Hf; lia | reflexivity].
    + unfold ceil_div, strlen. simpl. symmetry. apply Z.div_small. lia.
    + constructor.
    + congruence.
    + congruence.
  - set (hs := c :: h).
    assert (Hpos : 0 <= 0 < strlen hs) by (unfold strlen, hs; simpl; lia).
    destruct (chunk_loop_spec hs s Hs (S (List.length hs)) 0 [] Hpos)
      as (tokens & Hrun & Hne & Hcat & Hcnt & Hall & Hlst);
      [unfold strlen; lia|].
    exists tokens. split; [|split; [|split; [|split]]].
    + intros fuel Hf.
      destruct (chunk_loop_spec hs s Hs fuel 0 [] Hpos)
        as (tokens' & Hrun' & _ & Hcat' & Hcnt' & Hall' & Hlst');
        [unfold strlen; lia|].
      rewrite Hrun'. f_equal.
      eapply chunk_loop_deterministic; [exact Hrun' | exact Hrun].
    + now rewrite Z.sub_0_r in Hcnt.
    + exact Hcat.
    + exact Hall.
    + intros _. exact Hlst.
Qed.

Lemma chunked_tokenize_partition_witness :
  exists tokens,
    (forall fuel, (List.length sample_hash < fuel)%nat ->
                  Chunked.tokenize fuel sample_hash 3 = Returns tokens)
    /\ Z.of_nat (List.length tokens) = ceil_div (strlen sample_hash) 3
    /\ List.concat tokens = sample_hash
    /\ Forall (fun t => strlen t = 3) (removelast tokens)
    /\ (tokens <> [] -> 1 <= strlen (last tokens []) <= 3).
Proof.
  apply (chunked_tokenize_partition sample_hash 3).
  - reflexivity.
  - lia.
Defined.

(** ** Sets of tokens *)

Lemma jsstring_eqb_spec (a b : jsstring) : reflect (a = b) (jsstring_eqb a b).
Proof.
  revert b. induction a as [|c a IH]; intros [|d b]; simpl;
    try (constructor; congruence).
  destruct (Ascii.eqb_spec c d) as [->|Hne]; simpl.
  - destruct (IH b) as [->|Hne]; constructor; congruence.
  - constructor. congruence.
Qed.

Lemma includes_In (l : list jsstring) (x : jsstring) :
  includes l x = true <-> In x l.
Proof.
  unfold includes. rewrite existsb_exists. split.
  - intros [y [Hy Heq]]. destruct (jsstring_eqb_spec x y); congruence.
  - intros H. exists x. split; [exact H|].
    destruct (jsstring_eqb_spec x x); congruence.
Qed.

Lemma includes_false (l : list jsstring) (x : jsstring) :
  includes l x = false <-> ~ In x l.
Proof.
  rewrite <- includes_In. destruct (includes l x); split; congruence.
Qed.

Lemma Set_add_In (s : list jsstring) (x t : jsstring) :
  In t (Set_add s x) <-> In t s \/ t = x.
Proof.
  unfold Set_add, Set_has. destruct (includes s x) eqn:E.
  - apply includes_In in E. split; [tauto|]. intros [H| ->]; assumption.
  - rewrite in_app_iff. simpl. intuition congruence.
Qed.

Lemma Set_add_NoDup (s : list jsstring) (x : jsstring) :
  NoDup s -> NoDup (Set_add s x).
Proof.
  intros H. unfold Set_add, Set_has. destruct (includes s x) eqn:E; [exact H|].
  apply includes_false in E.
  apply NoDup_rev in H. rewrite <- (rev_involutive (s ++ [x])).
  apply NoDup_rev. rewrite rev_app_distr. simpl. constructor; [|exact H].
  now rewrite <- in_rev.
Qed.

Lemma distinct_from_In (l acc : list jsstring) (t : jsstring) :
  In t (fold_left Set_add l acc) <-> In t acc \/ In t l.
Proof.
  revert acc. induction l as [|x l IH]; intros acc; simpl.
  - tauto.
  - rewrite IH, Set_add_In. intuition congruence.
Qed.

Lemma distinct_from_NoDup (l acc : list jsstring) :
  NoDup acc -> NoDup (fold_left Set_add l acc).
Proof.
  revert acc. induction l as [|x l IH]; intros acc H; simpl.
  - exact H.
  - apply IH. now apply Set_add_NoDup.
Qed.

Lemma distinct_In (l : list jsstring) (t : jsstring) :
  In t (distinct l) <-> In t l.
Proof. unfold distinct. rewrite distinct_from_In. simpl. tauto. Qed.

Lemma distinct_NoDup (l : list jsstring) : NoDup (distinct l).
Proof. apply distinct_from_NoDup. constructor. Qed.

Lemma includes_ext (l l' : list jsstring) :
  (forall t, In t l <-> In t l') -> forall x, includes l x = includes l' x.
Proof.
  intros H x. destruct (includes l' x) eqn:E.
  - apply includes_In. apply H. now apply includes_In.
  - apply includes_false. rewrite H. now apply includes_false.
Qed.

(** The tokens the loops of [findMatchingTokens] read with [substring]. *)
Lemma substring_slice (s : jsstring) (i size : Z) :
  0 <= i -> 0 < size -> substring s i (i + size) = slice s i (i + size).
Proof.
  intros Hi Hs. unfold substring, slice.
  destruct (Z.ltb_spec i 0); [lia|].
  destruct (Z.ltb_spec (i + size) 0); [lia|].
  f_equal; lia.
Qed.

Lemma upto_nonneg (b i : Z) : In i (upto b) -> 0 <= i.
Proof.
  unfold upto. rewrite in_map_iff. intros [k [<- _]]. lia.
Qed.

Lemma userGuessTokens_distinct (cleanHash : jsstring) (size : Z) :
  0 < size ->
  Sliding.userGuessTokens cleanHash size
  = distinct (Sliding.tokenize_loop cleanHash size).
Proof.
  intros Hs. unfold Sliding.userGuessTokens, Sliding.tokenize_loop, distinct.
  rewrite fold_left_push. simpl app.
  generalize (@nil jsstring) at 1 2.
  assert (H : forall i, In i (upto (strlen cleanHash - size)) -> 0 <= i)
    by (intros i; apply upto_nonneg).
  induction (upto (strlen cleanHash - size)) as [|i l IH]; intros acc; simpl.
  - reflexivity.
  - rewrite substring_slice by (try apply H; simpl; auto; lia).
    apply IH. intros j Hj. apply H. now right.
Qed.

Lemma foundMatches_distinct (guess : list jsstring) (cleanHash : jsstring)
    (size : Z) :
  0 < size ->
  Sliding.foundMatches guess cleanHash size
  = distinct (filter (includes guess) (Sliding.tokenize_loop cleanHash size)).
Proof.
  intros Hs. unfold Sliding.foundMatches, Sliding.tokenize_loop, distinct.
  rewrite fold_left_push. simpl app.
  generalize (@nil jsstring) at 1 2.
  assert (H : forall i, In i (upto (strlen cleanHash - size)) -> 0 <= i)
    by (intros i; apply upto_nonneg).
  induction (upto (strlen cleanHash - size)) as [|i l IH]; intros acc; simpl.
  - reflexivity.
  - rewrite substring_slice by (try apply H; simpl; auto; lia).
    unfold Set_has.
    destruct (includes guess (slice cleanHash i (i + size))); simpl;
      apply IH; intros j Hj; apply H; now right.
Qed.

(** ** Order of the matches *)

Lemma first_index_lt (l : list jsstring) (t : jsstring) :
  In t l -> (first_index l t < List.length l)%nat.
Proof.
  induction l as [|y l IH]; simpl; [tauto|].
  intros H. destruct (jsstring_eqb_spec t y) as [->|Hne]; [lia|].
  destruct H as [H|H]; [congruence|]. apply IH in H. lia.
Qed.

Lemma first_index_app_old (l : list jsstring) (x t : jsstring) :
  In t l -> first_index (l ++ [x]) t = first_index l t.
Proof.
  induction l as [|y l IH]; simpl; [tauto|].
  intros H. destruct (jsstring_eqb_spec t y) as [->|Hne]; [reflexivity|].
  destruct H as [H|H]; [congruence|]. now rewrite IH.
Qed.

Lemma first_index_app_new (l : list jsstring) (x : jsstring) :
  ~ In x l -> first_index (l ++ [x]) x = List.length l.
Proof.
  induction l as [|y l IH]; simpl; intros H.
  - now destruct (jsstring_eqb_spec x x).
  - destruct (jsstring_eqb_spec x y) as [->|Hne]; [tauto|].
    rewrite IH; tauto.
Qed.

Lemma StronglySorted_snoc (l : list nat) (n : nat) :
  StronglySorted lt l -> Forall (fun k => (k < n)%nat) l ->
  StronglySorted lt (l ++ [n]).
Proof.
  induction 1 as [|k l Hs IH Hk]; intros Hall; simpl.
  - repeat constructor.
  - inversion Hall; subst. constructor; [now apply IH|].
    apply Forall_app. split; [exact Hk | now constructor].
Qed.

(** The distinct values of [b] that satisfy a test come out in the order
    of their first occurrence in [b]. *)
Lemma distinct_filter_sorted (p : jsstring -> bool) (b : list jsstring) :
  StronglySorted lt (map (first_index b) (distinct (filter p b))).
Proof.
  induction b as [|x b IH] using rev_ind.
  - constructor.
  - assert (Hmem : forall t, In t (distinct (filter p b)) -> In t b).
    { intros t Ht. rewrite distinct_In, filter_In in Ht. tauto. }
    assert (Hold : map (first_index (b ++ [x])) (distinct (filter p b))
                   = map (first_index b) (distinct (filter p b))).
    { apply map_ext_in. intros t Ht. apply first_index_app_old. auto. }
    rewrite filter_app. unfold distinct. rewrite fold_left_app.
    fold (distinct (filter p b)). simpl filter.
    destruct (p x) eqn:Hp; simpl fold_left; [|now rewrite Hold].
    unfold Set_add, Set_has.
    destruct (includes (distinct (filter p b)) x) eqn:Hin; [now rewrite Hold|].
    apply includes_false in Hin.
    assert (Hx : ~ In x b).
    { intros Hb. apply Hin. rewrite distinct_In, filter_In. tauto. }
    rewrite map_app, Hold. simpl map. rewrite first_index_app_new by exact Hx.
    apply StronglySorted_snoc; [exact IH|].
    apply Forall_forall. intros k Hk. apply in_map_iff in Hk.
    destruct Hk as [t [<- Ht]]. apply first_index_lt. auto.
Qed.

Lemma findMatchingTokens_run (hash1 hash2 : jsstring) (size : Z) :
  hash1 <> [] -> hash2 <> [] -> 0 < size ->
  forall cleanHash1 cleanHash2 a b,
    Sliding.removePrefix (toLowerCase hash1) = Returns cleanHash1 ->
    Sliding.removePrefix (toLowerCase hash2) = Returns cleanHash2 ->
    Sliding.tokenize cleanHash1 size = Returns a ->
    Sliding.tokenize cleanHash2 size = Returns b ->
    Sliding.findMatchingTokens hash1 hash2 size
    = Returns (distinct (filter (includes a) b)).
Proof.
  intros H1 H2 Hs c1 c2 a b Hc1 Hc2 Ha Hb.
  unfold Sliding.findMatchingTokens.
  destruct hash1 as [|x1 r1]; [congruence|].
  destruct hash2 as [|x2 r2]; [congruence|].
  destruct (Z.leb_spec size 0); [lia|]. cbn [is_empty orb].
  rewrite Hc1, Hc2. cbn [bind]. f_equal.
  unfold Sliding.tokenize in Ha, Hb.
  injection Ha as <-. injection Hb as <-.
  rewrite userGuessTokens_distinct, foundMatches_distinct by lia.
  f_equal. apply filter_ext. intros t.
  apply includes_ext. intros u. apply distinct_In.
Qed.

Lemma collect_push {A : Type} (p : A -> bool) (g : A -> jsstring) (l : list A)
    (acc : list jsstring) :
  fold_left (fun matches x => if p x then matches ++ [g x] else matches) l acc
  = acc ++ map g (filter p l).
Proof.
  revert acc. induction l as [|x l IH]; intros acc; simpl.
  - now rewrite app_nil_r.
  - rewrite IH. destruct (p x); simpl; [now rewrite <- app_assoc | reflexivity].
Qed.

Lemma collectMatches_filter (guessTokens fetchedTokens : list jsstring) :
  Chunked.collectMatches guessTokens fetchedTokens
  = map (fun '(index, token) => index_to_string index ++ str ":" ++ token)
        (filter (fun '(_, token) => includes fetchedTokens token)
                (indexed guessTokens)).
Proof.
  unfold Chunked.collectMatches.
  rewrite <- (app_nil_l (map _ _)), <- collect_push.
  apply fold_left_pointwise. intros matches [index token]. reflexivity.
Qed.

Lemma matchHashes_run (fuel : nat) (actualHash fetchedHash : jsstring)
    (tokenSize : Z) (guessTokens fetchedTokens : list jsstring) :
  Chunked.tokenize fuel actualHash tokenSize = Returns guessTokens ->
  Chunked.tokenize fuel fetchedHash tokenSize = Returns fetchedTokens ->
  Chunked.matchHashes fuel actualHash fetchedHash tokenSize
  = Returns (Chunked.collectMatches guessTokens fetchedTokens).
Proof.
  intros Hg Hf. unfold Chunked.matchHashes. now rewrite Hg, Hf.
Qed.

(** ** The set matcher [findMatchingTokens] *)

(** C10: when either hash is the empty string or the token size is not
    positive, [findMatchingTokens] returns the empty list; it does not
    throw. *)
Theorem findMatchingTokens_degenerate (hash1 hash2 : jsstring) (size : Z) :
  hash1 = [] \/ hash2 = [] \/ size <= 0 ->
  Sliding.findMatchingTokens hash1 hash2 size = Returns [].
Proof.
  intros H. unfold Sliding.findMatchingTokens.
  destruct H as [-> | [-> | H]].
  - reflexivity.
  - cbn [is_empty]. now rewrite orb_true_r.
  - destruct (Z.leb_spec size 0); [|lia]. now rewrite orb_true_r.
Qed.

Lemma findMatchingTokens_degenerate_witness :
  Sliding.findMatchingTokens (str "0xabc") (str "0xabd") (-1) = Returns [].
Proof.
  apply (findMatchingTokens_degenerate (str "0xabc") (str "0xabd") (-1)).
  right. right. lia.
Defined.

(** C5: the values [findMatchingTokens] returns for [(hash1, hash2)] and
    for [(hash2, hash1)] are the same set, and a call is a function of its
    three arguments: equal arguments give equal results. *)
Theorem findMatchingTokens_symmetric (hash1 hash2 : jsstring) (size : Z) :
  (exists m12 m21,
     Sliding.findMatchingTokens hash1 hash2 size = Returns m12
     /\ Sliding.findMatchingTokens hash2 hash1 size = Returns m21
     /\ forall t, In t m12 <-> In t m21)
  /\ (forall hash1' hash2' size',
        hash1' = hash1 -> hash2' = hash2 -> size' = size ->
        Sliding.findMatchingTokens hash1' hash2' size'
        = Sliding.findMatchingTokens hash1 hash2 size).
Proof.
  split; [|intros; subst; reflexivity].
  destruct (is_empty hash1 || is_empty hash2 || (size <=? 0)) eqn:G.
  - exists [], []. unfold Sliding.findMatchingTokens.
    rewrite G. rewrite (orb_comm (is_empty hash2)), G. tauto.
  - apply orb_false_elim in G. destruct G as [G G3].
    apply orb_false_elim in G. destruct G as [G1 G2].
    destruct (Z.leb_spec size 0); [discriminate|].
    assert (N1 : hash1 <> []) by now destruct hash1.
    assert (N2 : hash2 <> []) by now destruct hash2.
    do 2 eexists. split; [|split].
    + eapply (findMatchingTokens_run hash1 hash2 size N1 N2); try reflexivity; lia.
    + eapply (findMatchingTokens_run hash2 hash1 size N2 N1); try reflexivity; lia.
    + intros t. rewrite !distinct_In, !filter_In, !includes_In. tauto.
Qed.

(** C3, as the code has it: on non-empty hashes and a positive size,
    [findMatchingTokens] returns the token values common to the
    sliding-window tokens [a] of the guess and [b] of the fetched hash,
    each once, without indices, in the order of their first occurrence in
    [b]. The [forEach] matcher of the chunking component keeps the order of
    the guess and writes [index:token] for every guess token found among
    the fetched ones; on [abc, bcd] against [xyz, bcd] it yields [1:bcd]. *)
Theorem set_matches_as_computed (hash1 hash2 cleanHash1 cleanHash2 : jsstring)
    (size : Z) (a b : list jsstring) :
  hash1 <> [] -> hash2 <> [] -> 0 < size ->
  Sliding.removePrefix (toLowerCase hash1) = Returns cleanHash1 ->
  Sliding.removePrefix (toLowerCase hash2) = Returns cleanHash2 ->
  Sliding.tokenize cleanHash1 size = Returns a ->
  Sliding.tokenize cleanHash2 size = Returns b ->
  (exists matches,
     Sliding.findMatchingTokens hash1 hash2 size = Returns matches
     /\ NoDup matches
     /\ (forall t, In t matches <-> In t a /\ In t b)
     /\ StronglySorted lt (map (first_index b) matches))
  /\ (forall guessTokens fetchedTokens,
        Chunked.collectMatches guessTokens fetchedTokens
        = map (fun '(index, token) => index_to_string index ++ str ":" ++ token)
              (filter (fun '(_, token) => includes fetchedTokens token)
                      (indexed guessTokens)))
  /\ Chunked.collectMatches [str "abc"; str "bcd"] [str "xyz"; str "bcd"]
     = [str "1:bcd"].
Proof.
  intros N1 N2 Hs Hc1 Hc2 Ha Hb. split; [|split].
  - exists (distinct (filter (includes a) b)). split; [|split; [|split]].
    + now apply (findMatchingTokens_run hash1 hash2 size N1 N2 Hs cleanHash1 cleanHash2).
    + apply distinct_NoDup.
    + intros t. rewrite distinct_In, filter_In, includes_In. tauto.
    + apply distinct_filter_sorted.
  - apply collectMatches_filter.
  - reflexivity.
Qed.

Lemma set_matches_as_computed_witness :
  (exists matches,
     Sliding.findMatchingTokens (str "0xABCD") (str "0xbcdabc") 3 = Returns matches
     /\ NoDup matches
     /\ (forall t, In t matches <->
                   In t [str "abc"; str "bcd"]
                   /\ In t [str "bcd"; str "cda"; str "dab"; str "abc"])
     /\ StronglySorted lt
          (map (first_index [str "bcd"; str "cda"; str "dab"; str "abc"]) matches))
  /\ (forall guessTokens fetchedTokens,
        Chunked.collectMatches guessTokens fetchedTokens
        = map (fun '(index, token) => index_to_string index ++ str ":" ++ token)
              (filter (fun '(_, token) => includes fetchedTokens token)
                      (indexed guessTokens)))
  /\ Chunked.collectMatches [str "abc"; str "bcd"] [str "xyz"; str "bcd"]
     = [str "1:bcd"].
Proof.
  apply (set_matches_as_computed (str "0xABCD") (str "0xbcdabc")
           (str "abcd") (str "bcdabc") 3);
    try reflexivity; try discriminate; lia.
Defined.

(** C3 as stated fails: the matches of [abcd] against [bcdabc] come out
    as [bcd, abc], the order of the fetched hash, where first-occurrence
    order in the guess is [abc, bcd]. Likewise for a 64-digit hash against
    its two halves swapped: the first match returned is [a3b], the token
    that opens the fetched hash, not [9f8], the one that opens the guess. *)
Lemma set_matches_order_counterexample :
  Sliding.tokenize (str "abcd") 3 = Returns [str "abc"; str "bcd"]
  /\ Sliding.tokenize (str "bcdabc") 3
     = Returns [str "bcd"; str "cda"; str "dab"; str "abc"]
  /\ spec_findMatches_SET [str "abc"; str "bcd"]
       [str "bcd"; str "cda"; str "dab"; str "abc"]
     = [(str "abc", 0%nat, 3%nat); (str "bcd", 1%nat, 0%nat)]
  /\ Sliding.findMatchingTokens (str "abcd") (str "bcdabc") 3
     = Returns [str "bcd"; str "abc"]
  /\ Sliding.findMatchingTokens (str "abcd") (str "bcdabc") 3
     <> Returns (map (fun m => fst (fst m))
                    (spec_findMatches_SET [str "abc"; str "bcd"]
                       [str "bcd"; str "cda"; str "dab"; str "abc"]))
  /\ (exists matches a64 b64,
        Sliding.tokenize sample_hash 3 = Returns a64
        /\ Sliding.tokenize sample_hash_swapped 3 = Returns b64
        /\ Sliding.findMatchingTokens sample_block_hash
             (str "0x" ++ sample_hash_swapped) 3 = Returns matches
        /\ firstn 1 matches = [str "a3b"]
        /\ firstn 1 (spec_findMatches_SET a64 b64) = [(str "9f8", 0%nat, 32%nat)]
        /\ matches <> map (fun m => fst (fst m)) (spec_findMatches_SET a64 b64)).
Proof.
  repeat match goal with |- _ /\ _ => split end; try reflexivity.
  - vm_compute. discriminate.
  - do 3 eexists.
    repeat match goal with |- _ /\ _ => split end;
      try (vm_compute; reflexivity).
    vm_compute. discriminate.
Qed.

(** ** The block-range indication *)

Lemma spec_classify_monotonic (thresholds : Z * Z * Z) (d1 d2 : Z) :
  d1 <= d2 ->
  (spec_classify d1 thresholds <= spec_classify d2 thresholds)%nat.
Proof.
  intros H. destruct thresholds as [[t1 t2] t3]. unfold spec_classify.
  repeat match goal with
         | |- context [?a <=? ?b] => destruct (Z.leb_spec a b)
         end; lia.
Qed.

Lemma chunked_indication_classify (distance : Z) :
  bucket (indication (Chunked.calculateBlockRangeIndication distance))
  = spec_classify distance (2, 10, 256).
Proof.
  unfold Chunked.calculateBlockRangeIndication, spec_classify.
  repeat match goal with
         | |- context [?a <=? ?b] => destruct (a <=? b)
         end; reflexivity.
Qed.

Lemma sliding_indication_classify (blockDistance : Z) (isComplex : bool) :
  bucket (indication (Sliding.calculateBlockRangeIndication blockDistance isComplex))
  = spec_classify blockDistance
      (if isComplex then (32, 64, 96) else (64, 128, 192)).
Proof.
  unfold Sliding.calculateBlockRangeIndication, spec_classify.
  destruct isComplex;
    repeat match goal with
           | |- context [?a <=? ?b] => destruct (a <=? b)
           end; reflexivity.
Qed.

(** C6: a larger distance never gets a lower-numbered bucket, for any
    triple of thresholds and in both [calculateBlockRangeIndication]
    functions, whose buckets are those of the triples [2, 10, 256],
    [32, 64, 96] and [64, 128, 192]; distance 5 under [2, 10, 256] is
    light green and distance 500 is dark red. *)
Theorem classify_monotonic (d1 d2 : Z) (isComplex : bool)
    (thresholds : Z * Z * Z) :
  d1 <= d2 ->
  (spec_classify d1 thresholds <= spec_classify d2 thresholds)%nat
  /\ (bucket (indication (Chunked.calculateBlockRangeIndication d1))
      <= bucket (indication (Chunked.calculateBlockRangeIndication d2)))%nat
  /\ (bucket (indication (Sliding.calculateBlockRangeIndication d1 isComplex))
      <= bucket (indication (Sliding.calculateBlockRangeIndication d2 isComplex)))%nat
  /\ bucket (indication (Chunked.calculateBlockRangeIndication d1))
     = spec_classify d1 (2, 10, 256)
  /\ bucket (indication (Sliding.calculateBlockRangeIndication d1 isComplex))
     = spec_classify d1 (if isComplex then (32, 64, 96) else (64, 128, 192))
  /\ indication (Chunked.calculateBlockRangeIndication 5) = LightGreen
  /\ indication (Chunked.calculateBlockRangeIndication 500) = DarkRed.
Proof.
  intros H. repeat split.
  - now apply spec_classify_monotonic.
  - rewrite !chunked_indication_classify. now apply spec_classify_monotonic.
  - rewrite !sliding_indication_classify. now apply spec_classify_monotonic.
  - apply chunked_indication_classify.
  - apply sliding_indication_classify.
Qed.

Lemma classify_monotonic_witness :
  (spec_classify 5%Z (2, 10, 256)%Z <= spec_classify 500%Z (2, 10, 256)%Z)%nat
  /\ (bucket (indication (Chunked.calculateBlockRangeIndication 5%Z))
      <= bucket (indication (Chunked.calculateBlockRangeIndication 500%Z)))%nat
  /\ (bucket (indication (Sliding.calculateBlockRangeIndication 5%Z true))
      <= bucket (indication (Sliding.calculateBlockRangeIndication 500%Z true)))%nat
  /\ bucket (indication (Chunked.calculateBlockRangeIndication 5))
     = spec_classify 5 (2, 10, 256)
  /\ bucket (indication (Sliding.calculateBlockRangeIndication 5 true))
     = spec_classify 5 (32, 64, 96)
  /\ indication (Chunked.calculateBlockRangeIndication 5) = LightGreen
  /\ indication (Chunked.calculateBlockRangeIndication 500) = DarkRed.
Proof.
  apply (classify_monotonic 5 500 true (2, 10, 256)). lia.
Defined.

(** ** Prefix removal *)

Lemma slice_from_2 (s : jsstring) :
  (2 <= List.length s)%nat -> slice_from s 2 = skipn 2 s.
Proof.
  intros H. unfold slice_from, slice, range, strlen.
  change (2 <? 0) with false. cbv iota.
  destruct (Z.ltb_spec (Z.of_nat (List.length s)) 0); [lia|].
  rewrite !Z.min_l by lia.
  change (Z.to_nat 2) with 2%nat.
  apply firstn_all2. rewrite length_skipn. lia.
Qed.

Lemma removePrefix_replace_leading (hexStr : jsstring) :
  Sliding.removePrefix hexStr = Returns (replace_leading hexStr (str "0x")).
Proof.
  unfold Sliding.removePrefix, replace_leading. f_equal.
  destruct (startsWith hexStr (str "0x")) eqn:E; [|reflexivity].
  apply slice_from_2.
  destruct hexStr as [|c [|d r]]; cbn in E; try discriminate.
  - now rewrite andb_false_r in E.
  - simpl. lia.
Qed.

(** C9, as the code has it: [removePrefix] and the [replace(/^0x/, ...)] of
    the chunking [tokenize] take away a leading lower-case [0x] and
    nothing else; they check nothing and always return. A 64-digit hash
    behind [0x] comes back without the prefix, [0x12] gives [12], and a
    string that starts with [0X] comes back unchanged. *)
Theorem removePrefix_lowercase_only (body : jsstring) :
  Sliding.removePrefix (str "0x" ++ body) = Returns body
  /\ Sliding.removePrefix (str "0X" ++ body) = Returns (str "0X" ++ body)
  /\ (forall hexStr,
        Sliding.removePrefix hexStr = Returns (replace_leading hexStr (str "0x")))
  /\ replace_leading (str "0x" ++ body) (str "0x") = body
  /\ replace_leading (str "0X" ++ body) (str "0x") = str "0X" ++ body
  /\ Sliding.removePrefix sample_block_hash = Returns sample_hash
  /\ Sliding.removePrefix (str "0x12") = Returns (str "12").
Proof.
  assert (H0x : replace_leading (str "0x" ++ body) (str "0x") = body)
    by reflexivity.
  assert (H0X : replace_leading (str "0X" ++ body) (str "0x") = str "0X" ++ body)
    by reflexivity.
  split; [now rewrite removePrefix_replace_leading, H0x|].
  split; [now rewrite removePrefix_replace_leading, H0X|].
  split; [apply removePrefix_replace_leading|].
  repeat split; assumption || reflexivity.
Qed.

(** C9 as stated fails: [0x12] is not rejected, nor are [0x] and [0xzz],
    and an upper-case [0X] is not removed. *)
Lemma removePrefix_counterexample :
  Sliding.removePrefix (str "0x12") = Returns (str "12")
  /\ Sliding.removePrefix (str "0x12") <> Throws FormatError
  /\ Sliding.removePrefix (str "0x") = Returns []
  /\ Sliding.removePrefix (str "0xzz") = Returns (str "zz")
  /\ Sliding.removePrefix (str "0X12") = Returns (str "0X12")
  /\ replace_leading (str "0X12") (str "0x") = str "0X12".
Proof.
  repeat split; try reflexivity. discriminate.
Qed.

(** ** Token sizes outside the valid range *)

Lemma sliding_tokenize_oversize (h : jsstring) (s : Z) :
  strlen h < s -> Sliding.tokenize h s = Returns [].
Proof.
  intros H. unfold Sliding.tokenize, Sliding.tokenize_loop, upto.
  replace (Z.to_nat (strlen h - s + 1)) with 0%nat by lia. reflexivity.
Qed.

Lemma chunk_loop_end (cleanHash : jsstring) (size i : Z) (fuel : nat)
    (tokens : list jsstring) :
  strlen cleanHash <= i ->
  Chunked.tokenize_loop fuel cleanHash size i tokens = Returns tokens.
Proof.
  intros Hi. destruct fuel; simpl;
    destruct (Z.ltb_spec i (strlen cleanHash)); try lia; reflexivity.
Qed.

Lemma chunked_tokenize_oversize (h : jsstring) (s : Z) (fuel : nat) :
  is_hex h = true -> h <> [] -> strlen h < s -> (1 <= fuel)%nat ->
  Chunked.tokenize fuel h s = Returns [h].
Proof.
  intros Hhex Hne Hs Hfuel. unfold Chunked.tokenize.
  rewrite (replace_leading_hex h Hhex).
  assert (Hlen : 0 < strlen h) by (destruct h; [congruence | unfold strlen; simpl; lia]).
  destruct fuel as [|fuel]; [lia|].
  cbn [Chunked.tokenize_loop].
  destruct (Z.ltb_spec 0 (strlen h)); [|lia].
  rewrite chunk_loop_end by lia.
  rewrite substring_chunk by lia. simpl app. do 2 f_equal.
  simpl skipn. apply firstn_all2. unfold strlen in *. lia.
Qed.

(** With a token size that is not positive the counter of the chunking
    loop never reaches the end of a non-empty string: the loop pushes
    until the array is full. *)
Lemma chunked_tokenize_nonpositive_size (h : jsstring) (s : Z) (fuel : nat) :
  s <= 0 -> replace_leading h (str "0x") <> [] ->
  Chunked.tokenize fuel h s = Throws RangeError.
Proof.
  intros Hs Hne. unfold Chunked.tokenize.
  set (c := replace_leading h (str "0x")) in *.
  assert (Hlen : 0 < strlen c) by (destruct c; [congruence | unfold strlen; simpl; lia]).
  assert (H : forall i tokens, i <= 0 ->
                Chunked.tokenize_loop fuel c s i tokens = Throws RangeError).
  { induction fuel as [|fuel IH]; intros i tokens Hi; simpl;
      (destruct (Z.ltb_spec i (strlen c)); [|lia]); [reflexivity|].
    apply IH. lia. }
  apply H. lia.
Qed.

Lemma chunked_tokenize_empty (h : jsstring) (s : Z) (fuel : nat) :
  replace_leading h (str "0x") = [] -> Chunked.tokenize fuel h s = Returns [].
Proof.
  intros H. unfold Chunked.tokenize. rewrite H. now destruct fuel.
Qed.

Lemma sliding_tokenize_windows_upto (h : jsstring) (s : Z) :
  0 <= s <= strlen h -> Sliding.tokenize h s = Returns (windows h (Z.to_nat s)).
Proof.
  intros Hs. unfold Sliding.tokenize. f_equal.
  rewrite <- sliding_loop_windows by (unfold strlen in Hs; lia).
  f_equal. lia.
Qed.




(** ** The block derived in complex mode *)

Lemma hex_digit_facts (c : ascii) :
  is_hex_digit c = true ->
  exists v, hex_value c = Some v /\ 0 <= v <= 15
            /\ is_white c = false
            /\ Ascii.eqb c "-" = false /\ Ascii.eqb c "+" = false
            /\ Ascii.eqb "x" c = false /\ Ascii.eqb "X" c = false.
Proof.
  destruct c as [[] [] [] [] [] [] [] []]; intros H;
    try discriminate H;
    (eexists; split; [reflexivity|]; repeat split; try reflexivity; cbv; discriminate).
Qed.

Lemma parseInt16_two_digits (c d : ascii) :
  is_hex_digit c = true -> is_hex_digit d = true ->
  exists v, parseInt16 [c; d] = Some v /\ 0 <= v <= 255.
Proof.
  intros Hc Hd.
  destruct (hex_digit_facts c Hc) as (vc & Hvc & Bc & Wc & Mc & Pc & _).
  destruct (hex_digit_facts d Hd) as (vd & Hvd & Bd & _ & _ & _ & Xd & XXd).
  exists (16 * (16 * 0 + vc) + vd). split; [|lia].
  unfold parseInt16. cbn [skip_white]. rewrite Wc, Mc, Pc.
  cbn [startsWith str list_ascii_of_string]. rewrite Xd, XXd.
  rewrite !andb_false_r. cbn [orb hex_prefix]. rewrite Hvc, Hvd. reflexivity.
Qed.

Lemma slice_first_byte (h : jsstring) :
  (2 <= List.length h)%nat -> slice (str "0x" ++ h) 2 4 = firstn 2 h.
Proof.
  intros H. unfold slice, range, strlen.
  change (2 <? 0) with false. change (4 <? 0) with false. cbv iota.
  rewrite !Z.min_l by (rewrite length_app; simpl; lia).
  reflexivity.
Qed.

(** C7, as the code has it: from the first byte [v] of the hash of the
    target block, [fetchTargetBlockHash] derives the offset [v % 256] and
    [handleVerify] the offset [(v % 100) + 1]; both subtract it from the
    target block number and hand the result on, whatever its sign, without
    throwing. With a target block of at least 256 (resp. 100) the derived
    block number is not negative. *)
Theorem complexOffset_derived_block (h : jsstring) (targetBlockCount : Z) :
  valid_hash h ->
  exists v,
    0 <= v <= 255
    /\ parseInt16 (firstn 2 h) = Some v
    /\ Chunked.complexOffset (str "0x" ++ h) targetBlockCount
       = Returns {| Chunked.byteHex := firstn 2 h;
                    Chunked.byteValue := Some v;
                    Chunked.adjustedPosition := Some (Z.rem v 256);
                    Chunked.randomBlockNumber :=
                      Some (targetBlockCount - Z.rem v 256) |}
    /\ (256 <= targetBlockCount -> 0 <= targetBlockCount - Z.rem v 256)
    /\ Positional.complexOffset (str "0x" ++ h) targetBlockCount
       = Returns {| Positional.byteHex := firstn 2 h;
                    Positional.byteValue := Some v;
                    Positional.ranBlockPos := Some (Z.rem v 100 + 1);
                    Positional.adjustedRanBlockPos :=
                      Some (targetBlockCount - (Z.rem v 100 + 1)) |}
    /\ (100 <= targetBlockCount -> 0 <= targetBlockCount - (Z.rem v 100 + 1)).
Proof.
  intros [Hlen Hhex].
  destruct h as [|c [|d r]]; try discriminate Hlen.
  cbn [is_hex forallb] in Hhex.
  apply andb_prop in Hhex. destruct Hhex as [Hc Hhex].
  apply andb_prop in Hhex. destruct Hhex as [Hd _].
  destruct (parseInt16_two_digits c d Hc Hd) as (v & Hv & Hb).
  exists v.
  assert (Hr256 : 0 <= Z.rem v 256 < 256) by (apply Z.rem_bound_pos; lia).
  assert (Hr100 : 0 <= Z.rem v 100 < 100) by (apply Z.rem_bound_pos; lia).
  unfold Chunked.complexOffset, Positional.complexOffset.
  rewrite slice_first_byte by (simpl; lia).
  cbn [firstn]. rewrite Hv. cbn [num_rem num_add num_rsub option_map].
  repeat split; try lia.
Qed.

Lemma complexOffset_derived_block_witness :
  exists v,
    0 <= v <= 255
    /\ parseInt16 (firstn 2 sample_hash) = Some v
    /\ Chunked.complexOffset (str "0x" ++ sample_hash) 1000
       = Returns {| Chunked.byteHex := firstn 2 sample_hash;
                    Chunked.byteValue := Some v;
                    Chunked.adjustedPosition := Some (Z.rem v 256);
                    Chunked.randomBlockNumber := Some (1000 - Z.rem v 256) |}
    /\ (256 <= 1000 -> 0 <= 1000 - Z.rem v 256)
    /\ Positional.complexOffset (str "0x" ++ sample_hash) 1000
       = Returns {| Positional.byteHex := firstn 2 sample_hash;
                    Positional.byteValue := Some v;
                    Positional.ranBlockPos := Some (Z.rem v 100 + 1);
                    Positional.adjustedRanBlockPos :=
                      Some (1000 - (Z.rem v 100 + 1)) |}
    /\ (100 <= 1000 -> 0 <= 1000 - (Z.rem v 100 + 1)).
Proof.
  apply (complexOffset_derived_block sample_hash 1000).
  split; reflexivity.
Defined.

(** C7 as stated fails: with target block 5 and first byte [9f] the
    derived block numbers are -154 and -55, and they are returned, not
    refused; the offset of [handleVerify] is 60, one more than
    [0x9f % 100]. *)
Lemma complexOffset_negative_counterexample :
  Chunked.complexOffset sample_block_hash 5
  = Returns {| Chunked.byteHex := str "9f";
               Chunked.byteValue := Some 159;
               Chunked.adjustedPosition := Some 159;
               Chunked.randomBlockNumber := Some (-154) |}
  /\ Chunked.complexOffset sample_block_hash 5 <> Throws RangeError
  /\ Positional.complexOffset sample_block_hash 5
     = Returns {| Positional.byteHex := str "9f";
                  Positional.byteValue := Some 159;
                  Positional.ranBlockPos := Some 60;
                  Positional.adjustedRanBlockPos := Some (-55) |}
  /\ Positional.complexOffset sample_block_hash 5 <> Throws RangeError.
Proof.
  repeat split; try reflexivity; discriminate.
Qed.

(** ** The token-by-token comparison of [handleVerify] *)

Lemma indexed_from_In {A : Type} (l : list A) (a i : nat) (t : A) :
  In (i, t) (combine (seq a (List.length l)) l)
  <-> (a <= i)%nat /\ nth_error l (i - a) = Some t.
Proof.
  revert a. induction l as [|x l IH]; intros a; simpl.
  - split; [tauto|]. intros [_ H]. destruct (i - a)%nat; discriminate.
  - rewrite IH. split.
    + intros [H|[Ha H]].
      * injection H as <- <-. rewrite Nat.sub_diag. split; [lia | reflexivity].
      * split; [lia|]. replace (i - a)%nat with (S (i - S a)) by lia. exact H.
    + intros [Ha H]. destruct (i - a)%nat as [|k] eqn:E.
      * left. injection H as <-. f_equal. lia.
      * right. split; [lia|]. replace (i - S a)%nat with k by lia. exact H.
Qed.

Lemma indexed_In {A : Type} (l : list A) (i : nat) (t : A) :
  In (i, t) (indexed l) <-> nth_error l i = Some t.
Proof.
  unfold indexed. rewrite indexed_from_In, Nat.sub_0_r.
  split; [tauto | intros H; split; [lia | exact H]].
Qed.

Lemma every_equal_spec (userTokens fetched : list jsstring) :
  Positional.every_equal userTokens fetched = true
  <-> forall i t, nth_error userTokens i = Some t -> nth_error fetched i = Some t.
Proof.
  unfold Positional.every_equal. rewrite forallb_forall. split.
  - intros H i t Hi. specialize (H (i, t)). cbv beta iota in H.
    rewrite indexed_In in H. specialize (H Hi).
    destruct (nth_error fetched i) as [u|]; [|discriminate].
    destruct (jsstring_eqb_spec t u); congruence.
  - intros H [i t] Hi. apply indexed_In in Hi. rewrite (H i t Hi).
    now destruct (jsstring_eqb_spec t t).
Qed.

Lemma strict_match_spec (userTokens fetched : list jsstring) :
  Nat.eqb (List.length userTokens) (List.length fetched)
  && Positional.every_equal userTokens fetched = true
  <-> fetched = userTokens.
Proof.
  rewrite andb_true_iff, Nat.eqb_eq, every_equal_spec. split.
  - intros [Hlen H]. apply nth_error_ext. intros i.
    destruct (nth_error userTokens i) as [t|] eqn:E.
    + now apply H.
    + apply nth_error_None. apply nth_error_None in E. lia.
  - intros ->. split; [reflexivity | auto].
Qed.

Lemma positional_reflexive (l : list jsstring) :
  forallb (fun '(x, y) => jsstring_eqb x y) (combine l l) = true.
Proof.
  induction l as [|x l IH]; simpl; [reflexivity|].
  rewrite IH. now destruct (jsstring_eqb_spec x x).
Qed.

Lemma substring_prefix (s : jsstring) (n : Z) :
  0 <= n -> substring s 0 n = firstn (Z.to_nat n) s.
Proof.
  intros Hn. unfold substring, range, strlen.
  replace (Z.to_nat (Z.min _ _)) with 0%nat by lia. simpl skipn.
  destruct (Z.le_gt_cases n (Z.of_nat (List.length s))).
  - f_equal. lia.
  - rewrite !firstn_all2 by lia. reflexivity.
Qed.

(** C4, as the code has it: for a non-empty list of guess tokens and a
    token size of at least 1, [handleVerify] cuts the fetched hash (its
    first [0x] removed) to [tokenSize * userTokens.length] characters,
    splits it into runs of [tokenSize] characters and reports a match
    exactly when these fetched tokens are as many as the guess tokens and
    equal to them index by index; both sequences are then non-empty and
    agree at every shared index. *)
Theorem positional_match_strict (userTokens : list jsstring)
    (finalBlockHash : jsstring) (tokenSize : Z) :
  userTokens <> [] -> 1 <= tokenSize ->
  exists fetched b,
    Positional.fetchedTokens userTokens finalBlockHash tokenSize = Returns fetched
    /\ fetched
       = match_runs (Z.to_nat tokenSize) []
           (firstn (Z.to_nat tokenSize * List.length userTokens)
                   (replace_first finalBlockHash (str "0x")))
    /\ Positional.isMatch userTokens finalBlockHash tokenSize = Returns b
    /\ (b = true <->
        List.length fetched = List.length userTokens
        /\ forall i, nth_error fetched i = nth_error userTokens i)
    /\ (b = true ->
        fetched <> [] /\ spec_findMatches_POSITIONAL userTokens fetched = true).
Proof.
  intros Hne Hs.
  assert (Hf : Positional.fetchedTokens userTokens finalBlockHash tokenSize
               = Returns (match_runs (Z.to_nat tokenSize) []
                   (firstn (Z.to_nat tokenSize * List.length userTokens)
                           (replace_first finalBlockHash (str "0x"))))).
  { unfold Positional.fetchedTokens, Positional.matchTokens.
    destruct (Z.eqb_spec tokenSize 0); [lia|].
    destruct (Z.ltb_spec tokenSize 0); [lia|].
    rewrite substring_prefix by lia. do 3 f_equal. lia. }
  eexists. eexists. split; [exact Hf|]. split; [reflexivity|].
  split; [unfold Positional.isMatch; rewrite Hf; reflexivity|].
  rewrite strict_match_spec. split.
  - split.
    + intros H. rewrite H. split; [reflexivity | reflexivity].
    + intros [_ H]. now apply nth_error_ext.
  - intros H. rewrite H. split; [exact Hne|].
    unfold spec_findMatches_POSITIONAL. rewrite positional_reflexive.
    destruct userTokens; [congruence | reflexivity].
Qed.

Lemma positional_match_strict_witness :
  exists fetched b,
    Positional.fetchedTokens [str "9f8"; str "6d0"] sample_block_hash 3
    = Returns fetched
    /\ fetched
       = match_runs (Z.to_nat 3) []
           (firstn (Z.to_nat 3 * List.length [str "9f8"; str "6d0"])
                   (replace_first sample_block_hash (str "0x")))
    /\ Positional.isMatch [str "9f8"; str "6d0"] sample_block_hash 3 = Returns b
    /\ (b = true <->
        List.length fetched = List.length [str "9f8"; str "6d0"]
        /\ forall i, nth_error fetched i = nth_error [str "9f8"; str "6d0"] i)
    /\ (b = true ->
        fetched <> []
        /\ spec_findMatches_POSITIONAL [str "9f8"; str "6d0"] fetched = true).
Proof.
  apply (positional_match_strict [str "9f8"; str "6d0"] sample_block_hash 3).
  - discriminate.
  - lia.
Defined.

(** C4 as stated fails in both directions: an empty list of guess tokens
    is reported as a match, and a guess that agrees with the fetched
    tokens at every shared index but is one token longer is not. *)
Lemma positional_match_counterexample :
  Positional.fetchedTokens [] sample_block_hash 3 = Returns []
  /\ Positional.isMatch [] sample_block_hash 3 = Returns true
  /\ spec_findMatches_POSITIONAL [] [] = false
  /\ Positional.fetchedTokens (sample_tokens ++ [str "abc"]) sample_block_hash 3
     = Returns sample_tokens
  /\ spec_findMatches_POSITIONAL (sample_tokens ++ [str "abc"]) sample_tokens = true
  /\ Positional.isMatch (sample_tokens ++ [str "abc"]) sample_block_hash 3
     = Returns false.
Proof.
  repeat match goal with |- _ /\ _ => split end; vm_compute; reflexivity.
Qed.

(** * Further properties of the components *)

(** ** The random block of the sliding-window component *)

Lemma is_hex_skipn (h : jsstring) (n : nat) :
  is_hex h = true -> is_hex (skipn n h) = true.
Proof.
  revert h. induction n as [|n IH]; intros h H; [exact H|].
  destruct h as [|c h]; [reflexivity|].
  simpl. apply IH. simpl in H. apply andb_prop in H. tauto.
Qed.

Lemma removePrefix_hex (h : jsstring) :
  is_hex h = true -> Sliding.removePrefix h = Returns h.
Proof.
  intros H. unfold Sliding.removePrefix. now rewrite startsWith_hex_0x.
Qed.

Lemma removePrefix_0x (body : jsstring) :
  Sliding.removePrefix (str "0x" ++ body) = Returns body.
Proof. now rewrite removePrefix_replace_leading. Qed.

(** The byte [getRandomBlockHash] reads, halved when above 127. *)
Lemma random_offset_bound (h : jsstring) :
  valid_hash h ->
  exists v, 0 <= v <= 255 /\ parseInt16 (slice h 30 32) = Some v.
Proof.
  intros [Hlen Hhex].
  change 32 with (30 + 2). rewrite slice_window by (unfold strlen; lia).
  unfold window. change (Z.to_nat 30) with 30%nat. change (Z.to_nat 2) with 2%nat.
  pose proof (is_hex_skipn h 30 Hhex) as Hs.
  assert (Hl : List.length (skipn 30 h) = 34%nat) by (rewrite length_skipn; lia).
  destruct (skipn 30 h) as [|c [|d r]]; try discriminate Hl.
  cbn [is_hex forallb] in Hs.
  apply andb_prop in Hs. destruct Hs as [Hc Hs].
  apply andb_prop in Hs. destruct Hs as [Hd _].
  destruct (parseInt16_two_digits c d Hc Hd) as (v & Hv & Hb).
  exists v. split; [exact Hb | exact Hv].
Qed.

Lemma truthy_Some (b : option jsstring) :
  truthy b = true -> exists h, b = Some h /\ h <> [].
Proof.
  destruct b as [[|c h]|]; try discriminate. intros _. eexists. split; [reflexivity|discriminate].
Qed.

Lemma getRandomBlockHash_data (web3 : Web3) (seedHash h : jsstring)
    (targetBlockNumber : Z) (data : Sliding.RandomBlockData) :
  valid_hash h -> seedHash = h \/ seedHash = str "0x" ++ h ->
  Sliding.getRandomBlockHash (Some web3) seedHash targetBlockNumber
  = Returns (Some data) ->
  exists adjusted,
    0 <= adjusted <= 127
    /\ Sliding.byteHex data = slice h 30 32
    /\ Sliding.adjustedRanBlockPos data = Some adjusted
    /\ Sliding.randomBlockNumber data = Some (targetBlockNumber - adjusted)
    /\ getBlock web3 (Some (targetBlockNumber - adjusted))
       = Returns (Some (Sliding.hash data))
    /\ Sliding.hash data <> [].
Proof.
  intros Hv Hseed Hrun.
  destruct (random_offset_bound h Hv) as (v & Hb & Hparse).
  assert (Hclean : Sliding.removePrefix seedHash = Returns h).
  { destruct Hseed as [-> | ->]; [apply removePrefix_hex, Hv | apply removePrefix_0x]. }
  unfold Sliding.getRandomBlockHash in Hrun.
  rewrite Hclean in Hrun. cbn [bind] in Hrun. rewrite Hparse in Hrun.
  set (adj := if num_gtb (Some v) 127 then num_div_floor (Some v) 2 else Some v) in Hrun.
  assert (Hadj : exists a, adj = Some a /\ 0 <= a <= 127).
  { unfold adj, num_gtb, num_div_floor. simpl option_map.
    destruct (Z.gtb_spec v 127).
    - exists (v / 2). split; [reflexivity|].
      assert (v / 2 < 128) by (apply Z.div_lt_upper_bound; lia).
      split; [apply Z.div_pos; lia | lia].
    - exists v. split; [reflexivity | lia]. }
  destruct Hadj as (a & Ha & Hab). rewrite Ha in Hrun. cbn [num_rsub option_map] in Hrun.
  exists a. split; [exact Hab|].
  destruct (getBlock web3 (Some (targetBlockNumber - a))) as [b|e|] eqn:Hb';
    cbn [bind catch] in Hrun; try discriminate Hrun.
  destruct (truthy b) eqn:Ht; cbn [catch] in Hrun; [|discriminate Hrun].
  destruct (truthy_Some b Ht) as (bh & -> & Hne).
  injection Hrun as <-. cbn. auto.
Qed.

(** X1: for a seed that is a 64-digit hash, with or without [0x],
    [getRandomBlockHash] never throws, and the data it returns name a
    block at most 127 before the target block, together with the hash
    the chain gives for that very block. *)
Theorem getRandomBlockHash_within_127 (web3 : Web3) (seedHash h : jsstring)
    (targetBlockNumber : Z) :
  valid_hash h -> seedHash = h \/ seedHash = str "0x" ++ h ->
  (forall e,
     Sliding.getRandomBlockHash (Some web3) seedHash targetBlockNumber <> Throws e)
  /\ (forall data,
        Sliding.getRandomBlockHash (Some web3) seedHash targetBlockNumber
        = Returns (Some data) ->
        exists n,
          Sliding.randomBlockNumber data = Some n
          /\ targetBlockNumber - 127 <= n <= targetBlockNumber
          /\ getBlock web3 (Some n) = Returns (Some (Sliding.hash data))
          /\ Sliding.hash data <> []).
Proof.
  intros Hv Hseed. split.
  - intros e. unfold Sliding.getRandomBlockHash, catch.
    destruct (_ <- Sliding.removePrefix seedHash ;; _); discriminate.
  - intros data Hrun.
    destruct (getRandomBlockHash_data web3 seedHash h targetBlockNumber data Hv Hseed Hrun)
      as (a & Hab & _ & _ & Hn & Hb & Hne).
    exists (targetBlockNumber - a). repeat split; auto; lia.
Qed.

Lemma getRandomBlockHash_within_127_witness :
  (forall e,
     Sliding.getRandomBlockHash (Some (sample_web3 1000)) sample_block_hash 900
     <> Throws e)
  /\ (forall data,
        Sliding.getRandomBlockHash (Some (sample_web3 1000)) sample_block_hash 900
        = Returns (Some data) ->
        exists n,
          Sliding.randomBlockNumber data = Some n
          /\ 900 - 127 <= n <= 900
          /\ getBlock (sample_web3 1000) (Some n) = Returns (Some (Sliding.hash data))
          /\ Sliding.hash data <> []).
Proof.
  apply (getRandomBlockHash_within_127 (sample_web3 1000) sample_block_hash
           sample_hash 900).
  - split; reflexivity.
  - right. reflexivity.
Defined.

Lemma sample_web3_valid (current : Z) : block_hashes_valid (sample_web3 current).
Proof.
  intros n h Hb _. exists sample_hash. split; [|split; reflexivity].
  unfold sample_web3, getBlock in Hb. destruct n as [k|]; [|discriminate].
  destruct ((0 <=? k) && (k <=? current)); [|discriminate].
  now injection Hb as <-.
Qed.

(** X2: when [handleFetchAndVerify] gets as far as a block hash, the
    target block is mined and at most 255 (standard mode) or 128 (complex
    mode) blocks old, and the block whose hash is compared with the guess
    -- the target block, or in complex mode a block at most 127 before it
    -- is never more than 255 blocks behind the current block. *)
Theorem handleFetchAndVerify_block_within_255 (web3 : Web3)
    (targetBlockCount currentBlockNumber : Z) (complex : bool)
    (minedBlockHash : jsstring) (finalTargetBlockNumber : number)
    (blockDistance : Z) (data : option Sliding.RandomBlockData) :
  block_hashes_valid web3 ->
  getBlockNumber web3 = Returns currentBlockNumber ->
  Sliding.handleFetchAndVerify_fetch (Some web3) targetBlockCount complex
  = Returns (Sliding.Mined minedBlockHash finalTargetBlockNumber blockDistance data) ->
  blockDistance = currentBlockNumber - targetBlockCount
  /\ 0 <= blockDistance <= (if complex then 128 else 255)
  /\ exists n,
       finalTargetBlockNumber = Some n
       /\ (if complex then targetBlockCount - 127 <= n <= targetBlockCount
           else n = targetBlockCount)
       /\ 0 <= currentBlockNumber - n <= 255
       /\ getBlock web3 (Some n) = Returns (Some minedBlockHash).
Proof.
  intros Hchain Hcur Hrun.
  unfold Sliding.handleFetchAndVerify_fetch in Hrun.
  destruct (targetBlockCount =? 0); [discriminate Hrun|].
  rewrite Hcur in Hrun. cbn [bind] in Hrun.
  destruct (Z.ltb_spec (currentBlockNumber - targetBlockCount) 0) as [|Hpos];
    [discriminate Hrun|].
  destruct complex; cbn [negb] in Hrun.
  - destruct (Z.gtb_spec (currentBlockNumber - targetBlockCount) 128) as [|Hle];
      [discriminate Hrun|].
    destruct (getBlock web3 (Some targetBlockCount)) as [tb|e|] eqn:Htb;
      cbn [bind catch] in Hrun; try discriminate Hrun.
    destruct (truthy tb) eqn:Ht; cbn [negb] in Hrun; [|discriminate Hrun].
    destruct (truthy_Some tb Ht) as (th & -> & Hne).
    destruct (Hchain _ _ Htb Hne) as (body & -> & Hvalid).
    destruct (Sliding.getRandomBlockHash (Some web3) (str "0x" ++ body) targetBlockCount)
      as [[d|]|e|] eqn:Hr; cbn [bind catch] in Hrun; try discriminate Hrun.
    injection Hrun as <- <- <- <-.
    destruct (getRandomBlockHash_data web3 _ body targetBlockCount d Hvalid
                (or_intror eq_refl) Hr) as (a & Hab & _ & _ & Hn & Hb & _).
    split; [reflexivity|]. split; [lia|].
    exists (targetBlockCount - a). repeat split; auto; lia.
  - destruct (Z.gtb_spec (currentBlockNumber - targetBlockCount) 255) as [|Hle];
      [discriminate Hrun|].
    destruct (getBlock web3 (Some targetBlockCount)) as [tb|e|] eqn:Htb;
      cbn [bind catch] in Hrun; try discriminate Hrun.
    destruct (truthy tb) eqn:Ht; cbn [catch] in Hrun; [|discriminate Hrun].
    destruct (truthy_Some tb Ht) as (th & -> & Hne).
    injection Hrun as <- <- <- <-.
    split; [reflexivity|]. split; [lia|].
    exists targetBlockCount. repeat split; auto; lia.
Qed.

Lemma handleFetchAndVerify_block_within_255_witness :
  121 = 1000 - 879
  /\ 0 <= 121 <= 128
  /\ exists n,
       Some 858 = Some n
       /\ (879 - 127 <= n <= 879)
       /\ 0 <= 1000 - n <= 255
       /\ getBlock (sample_web3 1000) (Some n) = Returns (Some sample_block_hash).
Proof.
  apply (handleFetchAndVerify_block_within_255 (sample_web3 1000) 879 1000 true
           sample_block_hash (Some 858) 121
           (Some {| Sliding.hash := sample_block_hash;
                    Sliding.byteHex := str "15";
                    Sliding.adjustedRanBlockPos := Some 21;
                    Sliding.randomBlockNumber := Some 858 |})).
  - apply sample_web3_valid.
  - reflexivity.
  - vm_compute. reflexivity.
Defined.

(** ** The positions [encodeMatch] encodes *)

Lemma startsWith_firstn (s p : jsstring) :
  startsWith s p = true <-> firstn (List.length p) s = p.
Proof.
  revert s. induction p as [|c p IH]; intros s; simpl.
  - tauto.
  - destruct s as [|d s]; simpl.
    + split; discriminate.
    + rewrite andb_true_iff, IH. split.
      * intros [Hc Hp]. apply Ascii.eqb_eq in Hc. congruence.
      * intros H. injection H as -> H. split; [apply Ascii.eqb_refl | exact H].
Qed.

Lemma indexOf_from_found (s pat : jsstring) :
  forall (j : nat) (i : Z),
    startsWith (skipn j s) pat = true ->
    exists k, (k <= j)%nat
              /\ indexOf_from s pat i = i + Z.of_nat k
              /\ startsWith (skipn k s) pat = true.
Proof.
  induction s as [|c s IH]; intros j i Hj.
  - rewrite skipn_nil in Hj. exists 0%nat.
    destruct pat; [|discriminate Hj].
    split; [lia|]. split; [simpl; lia | reflexivity].
  - cbn [indexOf_from]. destruct (startsWith (c :: s) pat) eqn:E.
    + exists 0%nat. repeat split; [lia | lia | exact E].
    + destruct j as [|j]; [simpl in Hj; congruence|].
      simpl in Hj. destruct (IH j (i + 1) Hj) as (k & Hk & Hi & Hs).
      exists (S k). repeat split; [lia | lia | exact Hs].
Qed.

Lemma tokenize_loop_window (clean t : jsstring) (size : Z) :
  0 < size -> In t (Sliding.tokenize_loop clean size) ->
  exists j, (j + Z.to_nat size <= List.length clean)%nat
            /\ t = window clean j (Z.to_nat size).
Proof.
  intros Hs Ht.
  destruct (Z.le_gt_cases size (strlen clean)) as [Hle|Hgt].
  - rewrite <- (Z2Nat.id size) in Ht by lia.
    rewrite sliding_loop_windows in Ht by (unfold strlen in Hle; lia).
    unfold windows in Ht. apply in_map_iff in Ht. destruct Ht as (j & <- & Hj).
    apply in_seq in Hj. exists j. split; [unfold strlen in Hle; lia | reflexivity].
  - pose proof (sliding_tokenize_oversize clean size Hgt) as H.
    unfold Sliding.tokenize in H. injection H as H. rewrite H in Ht. destruct Ht.
Qed.

(** A token of the sliding-window tokenizer is found by [indexOf], at a
    position where it fits. *)
Lemma indexOf_token (clean t : jsstring) (size : Z) :
  0 < size -> In t (Sliding.tokenize_loop clean size) ->
  0 <= indexOf clean t
  /\ indexOf clean t + size <= strlen clean
  /\ slice clean (indexOf clean t) (indexOf clean t + size) = t.
Proof.
  intros Hs Ht.
  destruct (tokenize_loop_window clean t size Hs Ht) as (j & Hj & ->).
  assert (Hlen : List.length (window clean j (Z.to_nat size)) = Z.to_nat size)
    by now apply window_length.
  assert (Hstart : startsWith (skipn j clean) (window clean j (Z.to_nat size)) = true).
  { apply startsWith_firstn. rewrite Hlen. reflexivity. }
  destruct (indexOf_from_found clean _ j 0 Hstart) as (k & Hk & Hi & Hsk).
  unfold indexOf. rewrite Hi. simpl Z.add.
  apply startsWith_firstn in Hsk. rewrite Hlen in Hsk.
  assert (Hfit : (k + Z.to_nat size <= List.length clean)%nat).
  { assert (H : List.length (firstn (Z.to_nat size) (skipn k clean)) = Z.to_nat size)
      by (rewrite Hsk; exact Hlen).
    rewrite length_firstn, length_skipn in H. lia. }
  split; [lia|]. split; [unfold strlen; lia|].
  rewrite slice_window by (unfold strlen; lia).
  unfold window at 1. rewrite Nat2Z.id. exact Hsk.
Qed.

(** X3: for hashes written in lower case, the two positions [encodeMatch]
    passes to the ABI encoder, computed for matches [findMatchingTokens]
    returned, are places where the first match really stands in the
    guessed hash and the second (or, when there is only one, the first)
    in the fetched hash: no position is [-1] and no token runs over the
    end of its hash. *)
Theorem encodeMatch_positions_valid
    (encodeParameters : Sliding.HitHex -> Sliding.HitHex -> outcome jsstring)
    (actualHash fetchedHash cleanActual cleanFetched firstMatch : jsstring)
    (size : Z) (rest : list jsstring) :
  toLowerCase actualHash = actualHash ->
  toLowerCase fetchedHash = fetchedHash ->
  Sliding.removePrefix actualHash = Returns cleanActual ->
  Sliding.removePrefix fetchedHash = Returns cleanFetched ->
  Sliding.findMatchingTokens actualHash fetchedHash size
  = Returns (firstMatch :: rest) ->
  exists p1 p2,
    Sliding.encodeMatch encodeParameters (firstMatch :: rest) size
      actualHash fetchedHash
    = encodeParameters (Sliding.hitHex p1 size) (Sliding.hitHex p2 size)
    /\ 0 <= p1 /\ p1 + size <= strlen cleanActual
    /\ slice cleanActual p1 (p1 + size) = firstMatch
    /\ 0 <= p2 /\ p2 + size <= strlen cleanFetched
    /\ slice cleanFetched p2 (p2 + size) = hd firstMatch rest.
Proof.
  intros Hl1 Hl2 Hc1 Hc2 Hfind.
  assert (Hguard : is_empty actualHash || is_empty fetchedHash || (size <=? 0) = false).
  { unfold Sliding.findMatchingTokens in Hfind.
    destruct (is_empty actualHash || is_empty fetchedHash || (size <=? 0));
      [discriminate Hfind | reflexivity]. }
  apply orb_false_elim in Hguard. destruct Hguard as [Hguard Hs].
  apply orb_false_elim in Hguard. destruct Hguard as [He1 He2].
  apply Z.leb_gt in Hs.
  assert (N1 : actualHash <> []) by (now destruct actualHash).
  assert (N2 : fetchedHash <> []) by (now destruct fetchedHash).
  rewrite <- Hl1 in Hc1. rewrite <- Hl2 in Hc2.
  rewrite (findMatchingTokens_run actualHash fetchedHash size N1 N2 Hs
             cleanActual cleanFetched _ _ Hc1 Hc2 eq_refl eq_refl) in Hfind.
  injection Hfind as Hfind. rewrite Hl1 in Hc1. rewrite Hl2 in Hc2.
  assert (Hmem : forall t, In t (firstMatch :: rest) ->
                   In t (Sliding.tokenize_loop cleanActual size)
                   /\ In t (Sliding.tokenize_loop cleanFetched size)).
  { intros t Ht. rewrite <- Hfind in Ht.
    rewrite distinct_In, filter_In, includes_In in Ht. tauto. }
  exists (indexOf cleanActual firstMatch), (indexOf cleanFetched (hd firstMatch rest)).
  split.
  - unfold Sliding.encodeMatch. rewrite Hc1, Hc2. cbn [bind].
    destruct rest; reflexivity.
  - destruct (Hmem firstMatch (or_introl eq_refl)) as [H1 _].
    assert (H2 : In (hd firstMatch rest) (Sliding.tokenize_loop cleanFetched size)).
    { apply Hmem. destruct rest; simpl; auto. }
    destruct (indexOf_token cleanActual firstMatch size Hs H1) as (A & B & C).
    destruct (indexOf_token cleanFetched _ size Hs H2) as (D & E & F).
    repeat split; assumption.
Qed.

Lemma encodeMatch_positions_valid_witness :
  exists p1 p2,
    Sliding.encodeMatch sample_encoder (str "a3b" :: tl sample_matches) 3
      sample_block_hash (str "0x" ++ sample_hash_swapped)
    = sample_encoder (Sliding.hitHex p1 3) (Sliding.hitHex p2 3)
    /\ 0 <= p1 /\ p1 + 3 <= strlen sample_hash
    /\ slice sample_hash p1 (p1 + 3) = str "a3b"
    /\ 0 <= p2 /\ p2 + 3 <= strlen sample_hash_swapped
    /\ slice sample_hash_swapped p2 (p2 + 3) = hd (str "a3b") (tl sample_matches).
Proof.
  apply (encodeMatch_positions_valid sample_encoder
           sample_block_hash (str "0x" ++ sample_hash_swapped)
           sample_hash sample_hash_swapped (str "a3b") 3 (tl sample_matches));
    vm_compute; reflexivity.
Defined.

(** ** What [findMatchingTokens] does not look at *)

Lemma lower_char_idem (c : ascii) : lower_char (lower_char c) = lower_char c.
Proof. destruct c as [[] [] [] [] [] [] [] []]; reflexivity. Qed.

Lemma toLowerCase_idem (s : jsstring) : toLowerCase (toLowerCase s) = toLowerCase s.
Proof.
  unfold toLowerCase. rewrite map_map. apply map_ext. apply lower_char_idem.
Qed.

Lemma removePrefix_noprefix (h : jsstring) :
  startsWith h (str "0x") = false -> Sliding.removePrefix h = Returns h.
Proof. intros H. unfold Sliding.removePrefix. now rewrite H. Qed.

Lemma clean_prefixed (p b : jsstring) :
  p = [] \/ toLowerCase p = str "0x" ->
  startsWith (toLowerCase b) (str "0x") = false ->
  Sliding.removePrefix (toLowerCase (p ++ b)) = Returns (toLowerCase b).
Proof.
  intros [-> | Hp] Hb.
  - now apply removePrefix_noprefix.
  - unfold toLowerCase in *. rewrite map_app, Hp. apply removePrefix_0x.
Qed.

(** X4: [findMatchingTokens] looks at neither the case of the letters
    nor a leading [0x] or [0X]: with or without prefix, in upper or lower
    case, the result is that of the two hashes in lower case without
    prefix. *)
Theorem findMatchingTokens_ignores_case_and_prefix (p1 p2 b1 b2 : jsstring)
    (size : Z) :
  p1 = [] \/ toLowerCase p1 = str "0x" ->
  p2 = [] \/ toLowerCase p2 = str "0x" ->
  b1 <> [] -> b2 <> [] ->
  startsWith (toLowerCase b1) (str "0x") = false ->
  startsWith (toLowerCase b2) (str "0x") = false ->
  Sliding.findMatchingTokens (p1 ++ b1) (p2 ++ b2) size
  = Sliding.findMatchingTokens (toLowerCase b1) (toLowerCase b2) size.
Proof.
  intros Hp1 Hp2 N1 N2 Hb1 Hb2. unfold Sliding.findMatchingTokens.
  assert (E1 : is_empty (p1 ++ b1) = false)
    by (destruct p1; [destruct b1; [congruence | reflexivity] | reflexivity]).
  assert (E2 : is_empty (p2 ++ b2) = false)
    by (destruct p2; [destruct b2; [congruence | reflexivity] | reflexivity]).
  assert (E3 : is_empty (toLowerCase b1) = false) by (destruct b1; [congruence | reflexivity]).
  assert (E4 : is_empty (toLowerCase b2) = false) by (destruct b2; [congruence | reflexivity]).
  rewrite E1, E2, E3, E4. cbn [orb].
  destruct (size <=? 0); [reflexivity|].
  rewrite (clean_prefixed p1 b1 Hp1 Hb1), (clean_prefixed p2 b2 Hp2 Hb2).
  rewrite !toLowerCase_idem.
  rewrite (removePrefix_noprefix _ Hb1), (removePrefix_noprefix _ Hb2).
  reflexivity.
Qed.

Lemma findMatchingTokens_ignores_case_and_prefix_witness :
  Sliding.findMatchingTokens (str "0X" ++ str "9F86D081") ([] ++ str "D0819f") 3
  = Sliding.findMatchingTokens (toLowerCase (str "9F86D081"))
      (toLowerCase (str "D0819f")) 3.
Proof.
  apply (findMatchingTokens_ignores_case_and_prefix (str "0X") [] 
           (str "9F86D081") (str "D0819f") 3);
    try discriminate; try reflexivity.
  - right. reflexivity.
  - left. reflexivity.
Defined.

Lemma window_in_tokens (clean : jsstring) (j n : nat) :
  (0 < n)%nat -> (j + n <= List.length clean)%nat ->
  In (window clean j n) (Sliding.tokenize_loop clean (Z.of_nat n)).
Proof.
  intros Hn Hj. rewrite sliding_loop_windows by lia.
  unfold windows. apply in_map_iff. exists j. split; [reflexivity|].
  apply in_seq. lia.
Qed.

Lemma window_prefix (clean : jsstring) (j n n' : nat) :
  (n' <= n)%nat -> firstn n' (window clean j n) = window clean j n'.
Proof.
  intros H. unfold window. rewrite firstn_firstn. f_equal. lia.
Qed.

(** X5: a smaller token size never loses the matches of a larger one:
    when [findMatchingTokens] finds matches of size [s], it finds, for
    every smaller positive size, at least the beginnings of those
    matches. *)
Theorem findMatchingTokens_smaller_size (hash1 hash2 : jsstring) (s s' : Z)
    (matches : list jsstring) :
  0 < s' <= s ->
  Sliding.findMatchingTokens hash1 hash2 s = Returns matches ->
  matches <> [] ->
  exists matches',
    Sliding.findMatchingTokens hash1 hash2 s' = Returns matches'
    /\ matches' <> []
    /\ forall t, In t matches -> In (firstn (Z.to_nat s') t) matches'.
Proof.
  intros Hs Hfind Hne.
  assert (Hguard : is_empty hash1 || is_empty hash2 = false).
  { unfold Sliding.findMatchingTokens in Hfind.
    destruct (is_empty hash1 || is_empty hash2); [|reflexivity].
    cbn [orb] in Hfind. congruence. }
  apply orb_false_elim in Hguard. destruct Hguard as [He1 He2].
  assert (N1 : hash1 <> []) by (now destruct hash1).
  assert (N2 : hash2 <> []) by (now destruct hash2).
  destruct (Sliding.removePrefix (toLowerCase hash1)) as [c1| |] eqn:Hc1;
    try (unfold Sliding.removePrefix in Hc1; discriminate Hc1).
  destruct (Sliding.removePrefix (toLowerCase hash2)) as [c2| |] eqn:Hc2;
    try (unfold Sliding.removePrefix in Hc2; discriminate Hc2).
  rewrite (findMatchingTokens_run hash1 hash2 s N1 N2 ltac:(lia) c1 c2 _ _
             Hc1 Hc2 eq_refl eq_refl) in Hfind.
  injection Hfind as Hfind.
  rewrite (findMatchingTokens_run hash1 hash2 s' N1 N2 ltac:(lia) c1 c2 _ _
             Hc1 Hc2 eq_refl eq_refl).
  eexists. split; [reflexivity|].
  assert (Hall : forall t, In t matches ->
            In (firstn (Z.to_nat s') t)
               (distinct (filter (includes (Sliding.tokenize_loop c1 s'))
                                 (Sliding.tokenize_loop c2 s')))).
  { intros t Ht. rewrite <- Hfind in Ht.
    rewrite distinct_In, filter_In, includes_In in Ht. destruct Ht as [Hb Ha].
    destruct (tokenize_loop_window c1 t s ltac:(lia) Ha) as (j1 & Hj1 & E1).
    destruct (tokenize_loop_window c2 t s ltac:(lia) Hb) as (j2 & Hj2 & E2).
    rewrite distinct_In, filter_In, includes_In.
    rewrite <- (Z2Nat.id s') by lia. rewrite Nat2Z.id. split.
    - rewrite E2, window_prefix by lia. apply window_in_tokens; lia.
    - rewrite E1, window_prefix by lia. apply window_in_tokens; lia. }
  split; [|exact Hall].
  destruct matches as [|t r]; [congruence|].
  intros Hnil. specialize (Hall t (or_introl eq_refl)). rewrite Hnil in Hall.
  destruct Hall.
Qed.

Lemma findMatchingTokens_smaller_size_witness :
  exists matches',
    Sliding.findMatchingTokens (str "0xabcd") (str "0xbcdabc") 2 = Returns matches'
    /\ matches' <> []
    /\ forall t, In t [str "bcd"; str "abc"] ->
                 In (firstn (Z.to_nat 2) t) matches'.
Proof.
  apply (findMatchingTokens_smaller_size (str "0xabcd") (str "0xbcdabc") 3 2
           [str "bcd"; str "abc"]).
  - lia.
  - reflexivity.
  - discriminate.
Defined.

(** ** Wallet-scoped storage *)

Lemma jsstring_eqb_refl (a : jsstring) : jsstring_eqb a a = true.
Proof. now destruct (jsstring_eqb_spec a a). Qed.

Lemma getItem_setItem_same (st : Storage) (key text : jsstring) :
  getItem (setItem st key text) key = Some text.
Proof.
  induction st as [|[k v] st IH]; simpl.
  - now rewrite jsstring_eqb_refl.
  - destruct (jsstring_eqb k key) eqn:E; simpl; rewrite E; [reflexivity | exact IH].
Qed.

Lemma getItem_setItem_other (st : Storage) (key key' text : jsstring) :
  key' <> key -> getItem (setItem st key text) key' = getItem st key'.
Proof.
  intros Hne. induction st as [|[k v] st IH]; simpl.
  - destruct (jsstring_eqb_spec key key'); [congruence | reflexivity].
  - destruct (jsstring_eqb_spec k key) as [->|]; simpl.
    + destruct (jsstring_eqb_spec key key'); [congruence | reflexivity].
    + destruct (jsstring_eqb k key'); [reflexivity | exact IH].
Qed.

Lemma chunked_key_case (w w' key : jsstring) :
  Chunked.getWalletStorageKey w key = Chunked.getWalletStorageKey w' key
  <-> toLowerCase w = toLowerCase w'.
Proof.
  unfold Chunked.getWalletStorageKey. split.
  - apply app_inv_tail.
  - now intros ->.
Qed.

Section WalletStorageFacts.

Variable value : Type.
Variable parse : jsstring -> option value.
Variable stringify : value -> option jsstring.

(** X6: what [setWalletLocalStorage] stores for a wallet and a key,
    [getWalletLocalStorage] reads back for that key and any spelling of
    the wallet address that differs only in case, provided the value
    survives [JSON.stringify] and [JSON.parse]; no other entry of the
    storage changes. *)
Theorem wallet_storage_round_trip (st st' : Storage) (w w' key text : jsstring)
    (v : value) :
  stringify v = Some text -> text <> [] -> parse text = Some v ->
  toLowerCase w' = toLowerCase w ->
  Chunked.setWalletLocalStorage value stringify st w key v = Returns st' ->
  Chunked.getWalletLocalStorage value parse st' w' key = Returns (Some v)
  /\ forall key', key' <> Chunked.getWalletStorageKey w key ->
                  getItem st' key' = getItem st key'.
Proof.
  intros Hs Hne Hp Hcase Hset.
  unfold Chunked.setWalletLocalStorage in Hset. rewrite Hs in Hset.
  injection Hset as <-. split.
  - unfold Chunked.getWalletLocalStorage.
    rewrite (proj2 (chunked_key_case w' w key) Hcase), getItem_setItem_same.
    destruct text; [congruence|]. cbn [truthy]. now rewrite Hp.
  - intros key' Hk. now apply getItem_setItem_other.
Qed.

(** X7: the sliding-window component builds its storage key from the
    address as it is, so for an address that is not all lower case it
    reads another entry than the chunking component writes: what the one
    has stored for the wallet, the other does not see. *)
Theorem wallet_storage_key_mismatch (st st' : Storage) (w key : jsstring)
    (v : value) :
  toLowerCase w <> w ->
  Chunked.setWalletLocalStorage value stringify st w key v = Returns st' ->
  Sliding.getWalletStorageKey w key <> Chunked.getWalletStorageKey w key
  /\ Sliding.getWalletLocalStorage value parse st' w key
     = Sliding.getWalletLocalStorage value parse st w key.
Proof.
  intros Hcase Hset.
  assert (Hk : Sliding.getWalletStorageKey w key <> Chunked.getWalletStorageKey w key).
  { unfold Sliding.getWalletStorageKey, Chunked.getWalletStorageKey.
    intros H. apply app_inv_tail in H. congruence. }
  split; [exact Hk|].
  unfold Chunked.setWalletLocalStorage in Hset.
  destruct (stringify v) as [text|]; [|discriminate Hset].
  injection Hset as <-. unfold Sliding.getWalletLocalStorage.
  now rewrite getItem_setItem_other.
Qed.

End WalletStorageFacts.

Lemma wallet_storage_round_trip_witness :
  Chunked.getWalletLocalStorage jsstring sample_parse
    (setItem [] (Chunked.getWalletStorageKey sample_wallet (str "matchData_1"))
             (quote_char :: str "abc" ++ [quote_char]))
    (toLowerCase sample_wallet) (str "matchData_1")
  = Returns (Some (str "abc"))
  /\ forall key',
       key' <> Chunked.getWalletStorageKey sample_wallet (str "matchData_1") ->
       getItem (setItem [] (Chunked.getWalletStorageKey sample_wallet (str "matchData_1"))
                        (quote_char :: str "abc" ++ [quote_char])) key'
       = getItem [] key'.
Proof.
  apply (wallet_storage_round_trip jsstring sample_parse sample_stringify
           [] _ sample_wallet (toLowerCase sample_wallet) (str "matchData_1")
           (quote_char :: str "abc" ++ [quote_char]) (str "abc"));
    try reflexivity.
  discriminate.
Defined.

Lemma wallet_storage_key_mismatch_witness :
  Sliding.getWalletStorageKey sample_wallet (str "allGuessSubmissions")
  <> Chunked.getWalletStorageKey sample_wallet (str "allGuessSubmissions")
  /\ Sliding.getWalletLocalStorage jsstring sample_parse
       (setItem [] (Chunked.getWalletStorageKey sample_wallet (str "allGuessSubmissions"))
                (quote_char :: str "abc" ++ [quote_char]))
       sample_wallet (str "allGuessSubmissions")
     = Sliding.getWalletLocalStorage jsstring sample_parse [] sample_wallet
         (str "allGuessSubmissions").
Proof.
  apply (wallet_storage_key_mismatch jsstring sample_parse sample_stringify
           [] _ sample_wallet (str "allGuessSubmissions") (str "abc")).
  - vm_compute. discriminate.
  - reflexivity.
Defined.

(** ** The migration to wallet-scoped storage *)

Lemma wallet_key_not_legacy (w key : jsstring) :
  Chunked.getWalletStorageKey w key <> key.
Proof.
  unfold Chunked.getWalletStorageKey. intros H.
  apply (f_equal (@List.length ascii)) in H.
  rewrite !length_app in H. simpl in H. lia.
Qed.

Lemma wallet_keys_differ (w : jsstring) :
  Chunked.getWalletStorageKey w (str "lastGuessSubmission")
  <> Chunked.getWalletStorageKey w (str "allGuessSubmissions").
Proof.
  unfold Chunked.getWalletStorageKey. intros H.
  apply app_inv_head in H. discriminate H.
Qed.

Lemma wallet_key_not_other_legacy (w : jsstring) :
  Chunked.getWalletStorageKey w (str "lastGuessSubmission")
  <> str "allGuessSubmissions"
  /\ Chunked.getWalletStorageKey w (str "allGuessSubmissions")
     <> str "lastGuessSubmission".
Proof.
  unfold Chunked.getWalletStorageKey. split; intros H;
    apply (f_equal (@List.length ascii)) in H;
    rewrite !length_app in H; simpl in H; lia.
Qed.

Section MigrationFacts.

Variable value : Type.
Variable parse : jsstring -> option value.
Variable stringify : value -> option jsstring.

Local Abbreviation migrate :=
  (Chunked.migrateOldDataToWalletSpecific value parse stringify).
Local Abbreviation migrate2 :=
  (GuessPage.migrateOldDataToWalletSpecific value parse stringify).

Lemma chunked_migrate_cases (st : Storage) (w : jsstring) :
  migrate st w = st
  \/ exists old g text,
       getItem st (str "allGuessSubmissions") = Some old /\ old <> []
       /\ truthy (getItem st (Chunked.getWalletStorageKey w (str "allGuessSubmissions")))
          = false
       /\ parse old = Some g /\ stringify g = Some text
       /\ migrate st w
          = setItem st (Chunked.getWalletStorageKey w (str "allGuessSubmissions")) text.
Proof.
  unfold Chunked.migrateOldDataToWalletSpecific.
  destruct (getItem st (str "allGuessSubmissions")) as [[|c old]|] eqn:Hold;
    cbn [truthy andb]; auto.
  destruct (truthy (getItem st _)) eqn:Hmig; cbn [negb]; auto.
  destruct (parse (c :: old)) as [g|] eqn:Hp; auto.
  unfold Chunked.setWalletLocalStorage.
  destruct (stringify g) as [text|] eqn:Hs; auto.
  right. exists (c :: old), g, text. repeat split; auto. discriminate.
Qed.

(** X8: the migration of the chunking component loses nothing: it never
    throws, changes no entry but the wallet's own list of guesses, leaves
    the old list in place, and touches nothing at all when the wallet
    already has a list. When it does migrate, the wallet's entry is the
    old list parsed and written again. *)
Theorem migration_keeps_data (st : Storage) (w : jsstring) :
  (forall key,
     key <> Chunked.getWalletStorageKey w (str "allGuessSubmissions") ->
     getItem (migrate st w) key = getItem st key)
  /\ getItem (migrate st w) (str "allGuessSubmissions")
     = getItem st (str "allGuessSubmissions")
  /\ (truthy (getItem st (Chunked.getWalletStorageKey w (str "allGuessSubmissions")))
      = true -> migrate st w = st)
  /\ (forall old g text,
        getItem st (str "allGuessSubmissions") = Some old -> old <> [] ->
        truthy (getItem st (Chunked.getWalletStorageKey w (str "allGuessSubmissions")))
        = false ->
        parse old = Some g -> stringify g = Some text ->
        getItem (migrate st w) (Chunked.getWalletStorageKey w (str "allGuessSubmissions"))
        = Some text).
Proof.
  assert (Hframe : forall key,
            key <> Chunked.getWalletStorageKey w (str "allGuessSubmissions") ->
            getItem (migrate st w) key = getItem st key).
  { intros key Hk.
    destruct (chunked_migrate_cases st w) as [-> | (old & g & text & _ & _ & _ & _ & _ & ->)];
      [reflexivity | now apply getItem_setItem_other]. }
  split; [exact Hframe|]. split; [|split].
  - apply Hframe. intros H. symmetry in H. now apply wallet_key_not_legacy in H.
  - intros Hm.
    destruct (chunked_migrate_cases st w) as [H | (old & g & text & _ & _ & Hn & _)];
      [exact H | congruence].
  - intros old g text Hold Hne Hm Hp Hs.
    unfold Chunked.migrateOldDataToWalletSpecific.
    rewrite Hold, Hm. destruct old; [congruence|]. cbn [truthy andb negb].
    rewrite Hp. unfold Chunked.setWalletLocalStorage. rewrite Hs.
    apply getItem_setItem_same.
Qed.

Lemma guesspage_migrate_cases (st : Storage) (w : jsstring) :
  migrate2 st w = st
  \/ exists g text,
       stringify g = Some text
       /\ (migrate2 st w
           = setItem st (Chunked.getWalletStorageKey w (str "allGuessSubmissions")) text
           \/ exists text2,
                migrate2 st w
                = setItem
                    (setItem st
                       (Chunked.getWalletStorageKey w (str "allGuessSubmissions")) text)
                    (Chunked.getWalletStorageKey w (str "lastGuessSubmission")) text2).
Proof.
  unfold GuessPage.migrateOldDataToWalletSpecific, Chunked.setWalletLocalStorage.
  destruct (truthy (getItem st (str "allGuessSubmissions"))
            && negb (truthy (getItem st _))); auto.
  destruct (parse match getItem st (str "allGuessSubmissions") with
                  | Some d => d | None => [] end) as [g|]; auto.
  destruct (stringify g) as [text|] eqn:Hs; auto.
  right. exists g, text. split; [exact Hs|].
  destruct (truthy (getItem st (str "lastGuessSubmission"))); auto.
  destruct (parse match getItem st (str "lastGuessSubmission") with
                  | Some d => d | None => [] end) as [lg|]; auto.
  destruct (stringify lg) as [text2|]; auto.
  right. now exists text2.
Qed.

(** X9: running the migration again changes nothing more, in the chunking
    component and in [GuessPage], as long as [JSON.stringify] never yields
    the empty text; and the migration of [GuessPage], which also copies
    the last guess, changes no entry but the two of the wallet. *)
Theorem migration_idempotent (st : Storage) (w : jsstring) :
  (forall v text, stringify v = Some text -> text <> []) ->
  migrate (migrate st w) w = migrate st w
  /\ migrate2 (migrate2 st w) w = migrate2 st w
  /\ forall key,
       key <> Chunked.getWalletStorageKey w (str "allGuessSubmissions") ->
       key <> Chunked.getWalletStorageKey w (str "lastGuessSubmission") ->
       getItem (migrate2 st w) key = getItem st key.
Proof.
  intros Hstr.
  assert (Hdone : forall s,
            truthy (getItem s (Chunked.getWalletStorageKey w (str "allGuessSubmissions")))
            = true ->
            migrate s w = s /\ migrate2 s w = s).
  { intros s Hm. unfold Chunked.migrateOldDataToWalletSpecific,
      GuessPage.migrateOldDataToWalletSpecific.
    rewrite Hm. now rewrite andb_false_r. }
  assert (Hset : forall s text, text <> [] ->
            truthy (getItem (setItem s (Chunked.getWalletStorageKey w
                                          (str "allGuessSubmissions")) text)
                            (Chunked.getWalletStorageKey w (str "allGuessSubmissions")))
            = true).
  { intros s text Hne. rewrite getItem_setItem_same. now destruct text. }
  split; [|split].
  - destruct (chunked_migrate_cases st w) as [H | (old & g & text & _ & _ & _ & _ & Hs & H)].
    + now rewrite !H.
    + rewrite H. apply Hdone. apply Hset. eapply Hstr, Hs.
  - destruct (guesspage_migrate_cases st w) as [H | (g & text & Hs & [H | (text2 & H)])].
    + now rewrite !H.
    + rewrite H. apply Hdone. apply Hset. eapply Hstr, Hs.
    + rewrite H. apply Hdone. rewrite getItem_setItem_other.
      * apply Hset. eapply Hstr, Hs.
      * intros E. symmetry in E. now apply wallet_keys_differ in E.
  - intros key Hk1 Hk2.
    destruct (guesspage_migrate_cases st w) as [H | (g & text & Hs & [H | (text2 & H)])];
      rewrite H; [reflexivity | now apply getItem_setItem_other |].
    rewrite !getItem_setItem_other by assumption. reflexivity.
Qed.

End MigrationFacts.

Lemma migration_idempotent_witness :
  Chunked.migrateOldDataToWalletSpecific jsstring sample_parse sample_stringify
    (Chunked.migrateOldDataToWalletSpecific jsstring sample_parse sample_stringify
       [(str "allGuessSubmissions", quote_char :: str "abc" ++ [quote_char])]
       sample_wallet)
    sample_wallet
  = Chunked.migrateOldDataToWalletSpecific jsstring sample_parse sample_stringify
      [(str "allGuessSubmissions", quote_char :: str "abc" ++ [quote_char])]
      sample_wallet
  /\ GuessPage.migrateOldDataToWalletSpecific jsstring sample_parse sample_stringify
       (GuessPage.migrateOldDataToWalletSpecific jsstring sample_parse sample_stringify
          [(str "allGuessSubmissions", quote_char :: str "abc" ++ [quote_char])]
          sample_wallet)
       sample_wallet
     = GuessPage.migrateOldDataToWalletSpecific jsstring sample_parse sample_stringify
         [(str "allGuessSubmissions", quote_char :: str "abc" ++ [quote_char])]
         sample_wallet
  /\ forall key,
       key <> Chunked.getWalletStorageKey sample_wallet (str "allGuessSubmissions") ->
       key <> Chunked.getWalletStorageKey sample_wallet (str "lastGuessSubmission") ->
       getItem
         (GuessPage.migrateOldDataToWalletSpecific jsstring sample_parse sample_stringify
            [(str "allGuessSubmissions", quote_char :: str "abc" ++ [quote_char])]
            sample_wallet) key
       = getItem [(str "allGuessSubmissions", quote_char :: str "abc" ++ [quote_char])] key.
Proof.
  apply (migration_idempotent jsstring sample_parse sample_stringify
           [(str "allGuessSubmissions", quote_char :: str "abc" ++ [quote_char])]
           sample_wallet).
  intros v text H. unfold sample_stringify in H. injection H as <-. discriminate.
Defined.

(** ** The block the chunking component fetches *)

Lemma first_byte_value (h : jsstring) :
  valid_hash h ->
  exists v, 0 <= v <= 255 /\ parseInt16 (slice (str "0x" ++ h) 2 4) = Some v.
Proof.
  intros [Hlen Hhex]. rewrite slice_first_byte by lia.
  destruct h as [|c [|d r]]; try discriminate Hlen.
  cbn [is_hex forallb] in Hhex.
  apply andb_prop in Hhex. destruct Hhex as [Hc Hhex].
  apply andb_prop in Hhex. destruct Hhex as [Hd _].
  destruct (parseInt16_two_digits c d Hc Hd) as (v & Hv & Hb).
  exists v. split; [exact Hb | exact Hv].
Qed.

Lemma chunked_dark_red (distance : Z) :
  indication (Chunked.calculateBlockRangeIndication distance) = DarkRed
  <-> 256 < distance.
Proof.
  unfold Chunked.calculateBlockRangeIndication.
  destruct (Z.leb_spec distance 2); [simpl; split; [discriminate | lia]|].
  destruct (Z.leb_spec distance 10); [simpl; split; [discriminate | lia]|].
  destruct (Z.leb_spec distance 256); simpl; split; try discriminate; try lia; auto.
Qed.

(** X10: when [fetchTargetBlockHash] gets as far as a block hash, it has
    used the complex derivation exactly when complex mode is on and the
    indication is dark red (more than 256 blocks between the current and
    the target block); the hash then is that of a block at most 255
    before the target block. Otherwise the hash is that of the target
    block itself. *)
Theorem fetchTargetBlockHash_complex_when_far (web3 : Web3)
    (targetBlockCount currentBlock : Z) (complex : bool)
    (result : Chunked.Fetched) :
  block_hashes_valid web3 ->
  getBlockNumber web3 = Returns currentBlock ->
  Chunked.fetchTargetBlockHash_fetch (Some web3) targetBlockCount complex
  = Returns (Chunked.Found result) ->
  Chunked.rangeIndication result
  = Chunked.calculateBlockRangeIndication (Z.abs (currentBlock - targetBlockCount))
  /\ Chunked.targetBlockNumber result = targetBlockCount
  /\ match Chunked.complexCalculation result with
     | Some offset =>
         complex = true
         /\ indication (Chunked.rangeIndication result) = DarkRed
         /\ exists n,
              Chunked.randomBlockNumber offset = Some n
              /\ targetBlockCount - 255 <= n <= targetBlockCount
              /\ getBlock web3 (Some n) = Returns (Some (Chunked.fetchedHash result))
     | None =>
         (complex = false \/ indication (Chunked.rangeIndication result) <> DarkRed)
         /\ getBlock web3 (Some targetBlockCount)
            = Returns (Some (Chunked.fetchedHash result))
     end.
Proof.
  intros Hchain Hcur Hrun.
  unfold Chunked.fetchTargetBlockHash_fetch in Hrun.
  destruct (targetBlockCount =? 0); [discriminate Hrun|].
  rewrite Hcur in Hrun. cbn [bind] in Hrun.
  set (d := Z.abs (currentBlock - targetBlockCount)) in *.
  destruct (complex && (d >? 256)) eqn:Hbranch.
  - apply andb_prop in Hbranch. destruct Hbranch as [-> Hfar].
    apply Z.gtb_lt in Hfar.
    destruct (getBlock web3 (Some targetBlockCount)) as [tb|e|] eqn:Htb;
      cbn [bind catch] in Hrun; try discriminate Hrun.
    destruct (truthy tb) eqn:Ht; cbn [negb catch] in Hrun; [|discriminate Hrun].
    destruct (truthy_Some tb Ht) as (th & -> & Hne).
    destruct (Hchain _ _ Htb Hne) as (body & -> & Hvalid).
    destruct (first_byte_value body Hvalid) as (v & Hv & Hparse).
    unfold Chunked.complexOffset in Hrun. rewrite Hparse in Hrun.
    cbn [bind num_rem num_rsub option_map Chunked.randomBlockNumber] in Hrun.
    destruct (getBlock web3 (Some (targetBlockCount - Z.rem v 256)))
      as [rb|e|] eqn:Hrb; cbn [bind catch] in Hrun; try discriminate Hrun.
    destruct (truthy rb) eqn:Hr; cbn [negb catch] in Hrun; [|discriminate Hrun].
    destruct (truthy_Some rb Hr) as (rh & -> & _).
    injection Hrun as <-. cbn.
    assert (Hrem : 0 <= Z.rem v 256 < 256) by (apply Z.rem_bound_pos; lia).
    repeat split; auto.
    + apply chunked_dark_red. lia.
    + exists (targetBlockCount - Z.rem v 256). repeat split; auto; lia.
  - destruct (getBlock web3 (Some targetBlockCount)) as [tb|e|] eqn:Htb;
      cbn [bind catch] in Hrun; try discriminate Hrun.
    destruct (truthy tb) eqn:Ht; cbn [negb catch] in Hrun; [|discriminate Hrun].
    destruct (truthy_Some tb Ht) as (th & -> & Hne).
    injection Hrun as <-. cbn.
    repeat split; auto.
    apply andb_false_iff in Hbranch. destruct Hbranch as [-> | Hnear]; [now left|].
    right. rewrite chunked_dark_red.
    rewrite Z.gtb_ltb in Hnear. apply Z.ltb_ge in Hnear. lia.
Qed.

Lemma fetchTargetBlockHash_complex_when_far_witness :
  Chunked.rangeIndication sample_fetched
  = Chunked.calculateBlockRangeIndication (Z.abs (2000 - 1000))
  /\ Chunked.targetBlockNumber sample_fetched = 1000
  /\ match Chunked.complexCalculation sample_fetched with
     | Some offset =>
         true = true
         /\ indication (Chunked.rangeIndication sample_fetched) = DarkRed
         /\ exists n,
              Chunked.randomBlockNumber offset = Some n
              /\ 1000 - 255 <= n <= 1000
              /\ getBlock (sample_web3 2000) (Some n)
                 = Returns (Some (Chunked.fetchedHash sample_fetched))
     | None =>
         (true = false \/ indication (Chunked.rangeIndication sample_fetched) <> DarkRed)
         /\ getBlock (sample_web3 2000) (Some 1000)
            = Returns (Some (Chunked.fetchedHash sample_fetched))
     end.
Proof.
  apply (fetchTargetBlockHash_complex_when_far (sample_web3 2000) 1000 2000 true
           sample_fetched).
  - apply sample_web3_valid.
  - reflexivity.
  - vm_compute. reflexivity.
Defined.

(** ** Matches and marks of the chunking component *)

Lemma collectMatches_In (guessTokens fetchedTokens : list jsstring) (m : jsstring) :
  In m (Chunked.collectMatches guessTokens fetchedTokens)
  <-> exists index token,
        nth_error guessTokens index = Some token
        /\ In token fetchedTokens
        /\ m = index_to_string index ++ str ":" ++ token.
Proof.
  rewrite collectMatches_filter, in_map_iff. split.
  - intros ([index token] & <- & Hin). apply filter_In in Hin.
    destruct Hin as [Hidx Hinc]. apply indexed_In in Hidx.
    apply includes_In in Hinc. now exists index, token.
  - intros (index & token & Hidx & Hf & ->). exists (index, token).
    split; [reflexivity|]. apply filter_In. split.
    + now apply indexed_In.
    + now apply includes_In.
Qed.

Lemma indexed_filter_sorted {A : Type} (p : nat * A -> bool) (l : list A) :
  forall a : nat,
    StronglySorted lt (map fst (filter p (combine (seq a (List.length l)) l)))
    /\ Forall (fun i => (a <= i)%nat)
              (map fst (filter p (combine (seq a (List.length l)) l))).
Proof.
  induction l as [|x l IH]; intros a; simpl; [split; constructor|].
  destruct (IH (S a)) as [Hs Hb].
  assert (Hb' : Forall (fun i => (a < i)%nat)
                  (map fst (filter p (combine (seq (S a) (List.length l)) l)))).
  { eapply Forall_impl; [|exact Hb]. intros i Hi. simpl in Hi. lia. }
  destruct (p (a, x)); simpl.
  - split; [constructor; assumption|].
    constructor; [lia|]. eapply Forall_impl; [|exact Hb']. intros i Hi. simpl in Hi. lia.
  - split; [assumption|].
    eapply Forall_impl; [|exact Hb']. intros i Hi. simpl in Hi. lia.
Qed.

(** The positions of the guess whose token occurs among the fetched
    tokens, from left to right. *)
Lemma collectMatches_positions (guessTokens fetchedTokens : list jsstring) :
  exists positions : list nat,
    StronglySorted lt positions
    /\ (forall index,
          In index positions
          <-> exists token,
                nth_error guessTokens index = Some token /\ In token fetchedTokens)
    /\ Chunked.collectMatches guessTokens fetchedTokens
       = map (fun index =>
                index_to_string index ++ str ":" ++ nth index guessTokens [])
             positions.
Proof.
  exists (map fst (filter (fun '(_, token) => includes fetchedTokens token)
                          (indexed guessTokens))).
  split; [apply indexed_filter_sorted|]. split.
  - intros index. rewrite in_map_iff. split.
    + intros ([i token] & Hi & Hin). simpl in Hi. subst i.
      apply filter_In in Hin. destruct Hin as [Hidx Hinc].
      exists token. split; [now apply indexed_In | now apply includes_In].
    + intros (token & Hidx & Hf). exists (index, token). split; [reflexivity|].
      apply filter_In. split; [now apply indexed_In | now apply includes_In].
  - rewrite collectMatches_filter, map_map. apply map_ext_in.
    intros [index token] Hin. apply filter_In in Hin. destruct Hin as [Hidx _].
    apply indexed_In in Hidx. simpl.
    now rewrite (nth_error_nth _ _ _ Hidx).
Qed.

(** X11: the matches [fetchTargetBlockHash] collects are exactly the
    entries [index:token] for the positions of the guess whose token
    occurs somewhere among the fetched tokens, one entry for each such
    position and in the order of the positions; and there is a match (the
    alert "Match Found!") exactly when the token comparison marks at least
    one fetched token. *)
Theorem collectMatches_marks (guessTokens fetchedTokens : list jsstring) :
  (exists positions : list nat,
     StronglySorted lt positions
     /\ (forall index,
           In index positions
           <-> exists token,
                 nth_error guessTokens index = Some token
                 /\ In token fetchedTokens)
     /\ Chunked.collectMatches guessTokens fetchedTokens
        = map (fun index =>
                 index_to_string index ++ str ":" ++ nth index guessTokens [])
              positions)
  /\ (forall m,
        In m (Chunked.collectMatches guessTokens fetchedTokens)
        <-> exists index token,
              nth_error guessTokens index = Some token
              /\ In token fetchedTokens
              /\ m = index_to_string index ++ str ":" ++ token)
  /\ (List.length (Chunked.collectMatches guessTokens fetchedTokens)
      <= List.length guessTokens)%nat
  /\ (Chunked.collectMatches guessTokens fetchedTokens <> []
      <-> exists token,
            In token fetchedTokens
            /\ Chunked.highlighted guessTokens token = true).
Proof.
  split; [apply collectMatches_positions|].
  split; [intros m; apply collectMatches_In|]. split.
  - rewrite collectMatches_filter, length_map.
    etransitivity; [apply filter_length_le|].
    unfold indexed. rewrite length_combine, length_seq. lia.
  - unfold Chunked.highlighted. split.
    + intros Hne.
      destruct (Chunked.collectMatches guessTokens fetchedTokens) as [|m r] eqn:E;
        [congruence|].
      assert (Hm : In m (Chunked.collectMatches guessTokens fetchedTokens))
        by (rewrite E; now left).
      apply collectMatches_In in Hm. destruct Hm as (index & token & Hidx & Hf & _).
      exists token. split; [exact Hf|]. apply includes_In.
      eapply nth_error_In, Hidx.
    + intros (token & Hf & Hg). apply includes_In in Hg.
      apply In_nth_error in Hg. destruct Hg as (index & Hidx).
      intros Hnil.
      assert (Hm : In (index_to_string index ++ str ":" ++ token)
                      (Chunked.collectMatches guessTokens fetchedTokens))
        by (apply collectMatches_In; now exists index, token).
      rewrite Hnil in Hm. destruct Hm.
Qed.

(** ** The token-by-token component: indication, random block, marks *)

(** X12: in the token-by-token component, once the target block is set
    and the current block number is known (positive), the indication is
    red exactly when [handleVerify] refuses to verify because the target
    block has not been mined yet, and green exactly when its guards let
    the verification go on; the distance shown is the target minus the
    current block number, so it is positive exactly in the red case. As
    long as the current block number is 0 (not fetched yet) or the target
    is 0, the effect leaves the indication as it was: at the start dark
    green with distance 0, although [handleVerify] then refuses every
    positive target as not mined yet. *)
Theorem indication_red_iff_not_mined (targetBlockCount currentBlockNumber : Z)
    (shown : BlockRangeIndication) :
  let ind :=
    Positional.blockRangeIndication_after shown (Some targetBlockCount)
      currentBlockNumber in
  (targetBlockCount <> 0 -> 0 < currentBlockNumber ->
   blockDistance ind = targetBlockCount - currentBlockNumber
   /\ ((indication ind = LightRed \/ indication ind = DarkRed)
       <-> exists text,
             Positional.handleVerify_guards true (Some targetBlockCount)
               currentBlockNumber = Some (AlertWarning, text))
   /\ ((indication ind = LightGreen \/ indication ind = DarkGreen)
       <-> Positional.handleVerify_guards true (Some targetBlockCount)
             currentBlockNumber = None)
   /\ ((indication ind = LightRed \/ indication ind = DarkRed)
       <-> 0 < blockDistance ind))
  /\ (targetBlockCount = 0 \/ currentBlockNumber <= 0 -> ind = shown)
  /\ (0 < targetBlockCount -> currentBlockNumber <= 0 ->
      exists text,
        Positional.handleVerify_guards true (Some targetBlockCount)
          currentBlockNumber = Some (AlertWarning, text))
  /\ (0 < targetBlockCount ->
      Positional.blockRangeIndication_after Positional.initialBlockRangeIndication
        (Some targetBlockCount) 0
      = {| blockDistance := 0; indication := DarkGreen; color := "#10b981" |}
      /\ exists text,
           Positional.handleVerify_guards true (Some targetBlockCount) 0
           = Some (AlertWarning, text)).
Proof.
  cbv zeta. split; [|split; [|split]].
  - intros Hne Hcur.
    unfold Positional.blockRangeIndication_after, Positional.blockRangeEffect,
      Positional.handleVerify_guards.
    destruct (Z.eqb_spec targetBlockCount 0) as [|_]; [contradiction|].
    destruct (Z.gtb_spec currentBlockNumber 0) as [_|]; [|lia].
    cbn [negb andb].
    destruct (Z.ltb_spec currentBlockNumber targetBlockCount) as [Hlt|Hge].
    + destruct (Z.gtb_spec (targetBlockCount - currentBlockNumber) 0); [|lia].
      destruct (targetBlockCount - currentBlockNumber >? 100) eqn:E; cbn;
        (split; [reflexivity|]); (split; [|split]); split;
        try (intros [H0|H0]; discriminate H0); try discriminate; try lia;
        try (intros _; eexists; reflexivity); auto.
    + destruct (Z.gtb_spec (targetBlockCount - currentBlockNumber) 0); [lia|].
      destruct (Z.abs (targetBlockCount - currentBlockNumber) <=? 100) eqn:E; cbn;
        (split; [reflexivity|]); (split; [|split]); split;
        try (intros [H0|H0]; discriminate H0); try (intros [text H0]; discriminate H0);
        try lia; auto.
  - intros H.
    unfold Positional.blockRangeIndication_after, Positional.blockRangeEffect.
    destruct (Z.eqb_spec targetBlockCount 0); [reflexivity|].
    destruct (Z.gtb_spec currentBlockNumber 0); [lia | reflexivity].
  - intros Ht Hc. unfold Positional.handleVerify_guards.
    destruct (Z.eqb_spec targetBlockCount 0); [lia|].
    destruct (Z.ltb_spec currentBlockNumber targetBlockCount); [|lia].
    eexists. reflexivity.
  - intros Ht. split.
    + unfold Positional.blockRangeIndication_after, Positional.blockRangeEffect.
      destruct (Z.eqb_spec targetBlockCount 0); reflexivity.
    + unfold Positional.handleVerify_guards.
      destruct (Z.eqb_spec targetBlockCount 0); [lia|].
      destruct (Z.ltb_spec 0 targetBlockCount); [|lia].
      eexists. reflexivity.
Qed.


(** X13: in complex mode [handleVerify] never compares the guess with the
    target block itself: for a target block with a well-formed hash the
    block it fetches instead lies between 1 and 100 blocks before the
    target. *)
Theorem handleVerify_random_block_before_target (h : jsstring)
    (targetBlockCount : Z) :
  valid_hash h ->
  exists offset n,
    Positional.complexOffset (str "0x" ++ h) targetBlockCount = Returns offset
    /\ Positional.adjustedRanBlockPos offset = Some n
    /\ targetBlockCount - 100 <= n <= targetBlockCount - 1.
Proof.
  intros Hvalid.
  destruct (first_byte_value h Hvalid) as (v & Hv & Hparse).
  unfold Positional.complexOffset. rewrite Hparse.
  cbn [num_rem num_add num_rsub option_map].
  eexists. eexists. split; [reflexivity|]. split; [reflexivity|].
  assert (Hr : 0 <= Z.rem v 100 < 100) by (apply Z.rem_bound_pos; lia).
  lia.
Qed.

Lemma handleVerify_random_block_before_target_witness :
  exists offset n,
    Positional.complexOffset (str "0x" ++ sample_hash) 1000 = Returns offset
    /\ Positional.adjustedRanBlockPos offset = Some n
    /\ 1000 - 100 <= n <= 1000 - 1.
Proof.
  apply (handleVerify_random_block_before_target sample_hash 1000).
  split; reflexivity.
Defined.

Lemma marks_all_true (userTokens fetched : list jsstring) :
  (forall token mark,
     In (token, mark)
        (map (fun '(index, token) =>
                (token,
                 match nth_error userTokens index with
                 | Some u => jsstring_eqb u token
                 | None => false
                 end))
             (indexed fetched)) -> mark = true)
  <-> forall i t, nth_error fetched i = Some t -> nth_error userTokens i = Some t.
Proof.
  split.
  - intros H i t Hi.
    specialize (H t (match nth_error userTokens i with
                     | Some u => jsstring_eqb u t | None => false end)).
    assert (Hin : In (i, t) (indexed fetched)) by now apply indexed_In.
    specialize (H (in_map _ _ _ Hin)).
    destruct (nth_error userTokens i) as [u|]; [|discriminate].
    destruct (jsstring_eqb_spec u t); congruence.
  - intros H token mark Hin. apply in_map_iff in Hin.
    destruct Hin as ([i t] & E & Hi). injection E as <- <-.
    apply indexed_In in Hi. rewrite (H i t Hi). apply jsstring_eqb_refl.
Qed.

(** X14: what [handleVerify] announces and what [renderFetchedTokens]
    shows agree: the verification succeeds exactly when every fetched
    token shown is marked as matching and as many fetched tokens are
    shown as the guess has tokens. *)
Theorem isMatch_iff_all_marked (userTokens : list jsstring)
    (fetchedBlockHash : jsstring) (tokenSize : Z)
    (marks : list (jsstring * bool)) (b : bool) :
  Positional.renderFetchedTokens fetchedBlockHash userTokens tokenSize
  = Returns (Some marks) ->
  Positional.isMatch userTokens fetchedBlockHash tokenSize = Returns b ->
  Positional.fetchedTokens userTokens fetchedBlockHash tokenSize
  = Returns (map fst marks)
  /\ (b = true <->
      List.length marks = List.length userTokens
      /\ forall token mark, In (token, mark) marks -> mark = true).
Proof.
  unfold Positional.renderFetchedTokens, Positional.isMatch.
  destruct (is_empty fetchedBlockHash); [discriminate|].
  destruct (Positional.fetchedTokens userTokens fetchedBlockHash tokenSize)
    as [fetched|e|]; cbn [bind]; try discriminate.
  intros Hm Hb. injection Hm as <-. injection Hb as <-.
  assert (Hfst : map fst (map (fun '(index, token) =>
                    (token,
                     match nth_error userTokens index with
                     | Some u => jsstring_eqb u token
                     | None => false
                     end)) (indexed fetched)) = fetched).
  { rewrite map_map. unfold indexed.
    rewrite <- (map_id fetched) at 3.
    generalize 0%nat. induction fetched as [|t r IH]; intros k; simpl.
    - reflexivity.
    - f_equal. apply IH. }
  split; [now rewrite Hfst|].
  rewrite strict_match_spec, marks_all_true, length_map.
  unfold indexed. rewrite length_combine, length_seq, Nat.min_id. split.
  - intros ->. split; [reflexivity | auto].
  - intros [Hlen H]. apply nth_error_ext. intros i.
    destruct (nth_error fetched i) as [t|] eqn:E.
    + symmetry. now apply H.
    + symmetry. apply nth_error_None. apply nth_error_None in E. lia.
Qed.

Lemma isMatch_iff_all_marked_witness :
  Positional.fetchedTokens [str "9f8"; str "abc"] sample_block_hash 3
  = Returns (map fst [(str "9f8", true); (str "6d0", false)])
  /\ (false = true <->
      List.length [(str "9f8", true); (str "6d0", false)]
      = List.length [str "9f8"; str "abc"]
      /\ forall token mark,
           In (token, mark) [(str "9f8", true); (str "6d0", false)] -> mark = true).
Proof.
  apply (isMatch_iff_all_marked [str "9f8"; str "abc"] sample_block_hash 3
           [(str "9f8", true); (str "6d0", false)] false);
    vm_compute; reflexivity.
Defined.

(** ** [convertBigIntToString] *)

Lemma JSValue_nested_ind (P : JSValue -> Prop) :
  P VNull -> P VUndefined -> (forall z, P (VBigInt z)) ->
  (forall s, P (VString s)) -> (forall n, P (VNumber n)) ->
  (forall b, P (VBool b)) ->
  (forall items, Forall P items -> P (VArray items)) ->
  (forall proto props,
     (forall p, proto = Some p -> P p) ->
     Forall (fun kv => P (snd kv)) props -> P (VObject proto props)) ->
  forall v, P v.
Proof.
  intros HN HU HB HS HNum HBool HA HO.
  fix IH 1. intros [ | | z | s | n | b | items | proto props].
  - exact HN.
  - exact HU.
  - apply HB.
  - apply HS.
  - apply HNum.
  - apply HBool.
  - apply HA. induction items as [|x xs IHxs]; constructor; [apply IH | exact IHxs].
  - apply HO.
    + destruct proto as [p|]; intros q Hq; [injection Hq as <-; apply IH | discriminate].
    + induction props as [|[k x] xs IHxs]; constructor; [apply IH | exact IHxs].
Qed.

Lemma has_key_In {A : Type} (key : jsstring) (props : list (jsstring * A)) :
  GuessPage.has_key key props = true <-> In key (map fst props).
Proof.
  unfold GuessPage.has_key. rewrite existsb_exists, in_map_iff. split.
  - intros ([k v] & Hin & Hk). exists (k, v). split; [|exact Hin].
    simpl. now destruct (jsstring_eqb_spec k key).
  - intros ([k v] & Hk & Hin). exists (k, v). split; [exact Hin|].
    simpl in Hk. subst k. apply jsstring_eqb_refl.
Qed.

Lemma has_key_false {A : Type} (key : jsstring) (props : list (jsstring * A)) :
  GuessPage.has_key key props = false <-> ~ In key (map fst props).
Proof.
  rewrite <- has_key_In. destruct (GuessPage.has_key key props); split;
    congruence.
Qed.

Lemma distinct_keys_NoDup (keys : list jsstring) :
  distinct_keys keys = true <-> NoDup keys.
Proof.
  induction keys as [|k r IH]; simpl.
  - split; [constructor | reflexivity].
  - rewrite andb_true_iff, negb_true_iff, IH. split.
    + intros [Hk Hr]. constructor; [|exact Hr].
      intros Hin. apply includes_In in Hin. congruence.
    + intros H. apply NoDup_cons_iff in H. destruct H as [Hk Hr].
      split; [|exact Hr]. destruct (includes r k) eqn:E; [|reflexivity].
      apply includes_In in E. contradiction.
Qed.

Lemma assign_property_new (props : list (jsstring * JSValue)) (key : jsstring)
    (value : JSValue) :
  ~ In key (map fst props) ->
  GuessPage.assign_property props key value = props ++ [(key, value)].
Proof.
  induction props as [|[k v] r IH]; simpl; intros Hk; [reflexivity|].
  destruct (jsstring_eqb_spec k key) as [->|_]; [tauto|].
  rewrite IH by tauto. reflexivity.
Qed.

Lemma assign_property_no_bigint (props : list (jsstring * JSValue))
    (key : jsstring) (value : JSValue) :
  existsb (fun '(_, x) => has_bigint x) props = false ->
  has_bigint value = false ->
  existsb (fun '(_, x) => has_bigint x) (GuessPage.assign_property props key value)
  = false.
Proof.
  intros Hp Hv. induction props as [|[k v] r IH]; simpl.
  - now rewrite Hv.
  - simpl in Hp. apply orb_false_elim in Hp. destruct Hp as [Hv' Hr].
    destruct (jsstring_eqb k key); simpl.
    + now rewrite Hv, Hr.
    + now rewrite Hv', IH.
Qed.

Lemma set_property_no_bigint (converted : JSValue) (key : jsstring)
    (value : JSValue) :
  has_bigint converted = false -> has_bigint value = false ->
  has_bigint (GuessPage.set_property converted key value) = false.
Proof.
  intros Hc Hv. destruct converted as [ | | | | | | | proto props];
    try exact Hc.
  unfold GuessPage.set_property.
  simpl in Hc. apply orb_false_elim in Hc. destruct Hc as [Hproto Hprops].
  destruct (_ && _ && _).
  - destruct value; simpl in Hv |- *;
      rewrite ?Hproto, ?Hprops, ?Hv; try reflexivity; discriminate.
  - simpl. now rewrite Hproto, assign_property_no_bigint.
Qed.

Lemma convert_fold_no_bigint (props : list (jsstring * JSValue)) :
  Forall (fun kv => has_bigint (GuessPage.convertBigIntToString (snd kv)) = false)
         props ->
  forall converted,
    has_bigint converted = false ->
    has_bigint
      (fold_left (fun converted '(key, v) =>
                    GuessPage.set_property converted key
                      (GuessPage.convertBigIntToString v))
                 props converted) = false.
Proof.
  induction 1 as [|[k v] r Hv _ IH]; intros converted Hc; simpl; [exact Hc|].
  apply IH. now apply set_property_no_bigint.
Qed.

Lemma convert_no_bigint (v : JSValue) :
  has_bigint (GuessPage.convertBigIntToString v) = false.
Proof.
  induction v as [ | | z | s | n | b | items IH | proto props _ IH]
    using JSValue_nested_ind; try reflexivity.
  - simpl. induction IH as [|x xs Hx _ IHxs]; simpl; [reflexivity|].
    now rewrite Hx, IHxs.
  - simpl. now apply convert_fold_no_bigint.
Qed.

Lemma set_property_proto_key (acc : list (jsstring * JSValue)) (x : JSValue) :
  ~ In (str "__proto__") (map fst acc) ->
  exists proto1,
    GuessPage.set_property (VObject None acc) (str "__proto__") x
    = VObject proto1 acc.
Proof.
  intros Hacc. unfold GuessPage.set_property.
  rewrite jsstring_eqb_refl, (proj2 (has_key_false _ _) Hacc). cbn [negb andb].
  destruct x; eexists; reflexivity.
Qed.

Lemma set_property_other (proto : option JSValue)
    (acc : list (jsstring * JSValue)) (k : jsstring) (x : JSValue) :
  k <> str "__proto__" -> ~ In k (map fst acc) ->
  GuessPage.set_property (VObject proto acc) k x = VObject proto (acc ++ [(k, x)]).
Proof.
  intros Hne Hk. unfold GuessPage.set_property.
  destruct (jsstring_eqb_spec k (str "__proto__")); [contradiction|].
  cbn [andb]. now rewrite assign_property_new.
Qed.

(** The loop over the keys of an object whose keys are distinct: no key
    [__proto__] is written, every other key is, in the order of the
    loop. *)
Lemma convert_fold_keys (props : list (jsstring * JSValue)) :
  forall (proto : option JSValue) (acc : list (jsstring * JSValue)),
    NoDup (map fst acc ++ map fst props) ->
    ~ In (str "__proto__") (map fst acc) ->
    proto = None \/ ~ In (str "__proto__") (map fst props) ->
    exists proto' acc',
      fold_left (fun converted '(key, v) =>
                   GuessPage.set_property converted key
                     (GuessPage.convertBigIntToString v))
                props (VObject proto acc)
      = VObject proto' acc'
      /\ map fst acc' = map fst acc ++ without_proto_key (map fst props)
      /\ (~ In (str "__proto__") (map fst props) ->
          proto' = proto
          /\ acc' = acc ++ map (fun '(key, v) =>
                                  (key, GuessPage.convertBigIntToString v)) props).
Proof.
  induction props as [|[k v] r IH]; intros proto acc Hnd Hacc Hproto.
  - exists proto, acc. simpl. rewrite !app_nil_r. auto.
  - cbn [fold_left].
    assert (Hk : ~ In k (map fst acc)).
    { intros Hin. simpl in Hnd. apply NoDup_remove_2 in Hnd.
      apply Hnd. apply in_or_app. now left. }
    assert (Hnd' : forall x, NoDup (map fst (acc ++ [(k, x)]) ++ map fst r)).
    { intros x. rewrite map_app, <- app_assoc. exact Hnd. }
    destruct (jsstring_eqb_spec k (str "__proto__")) as [->|Hne].
    + (* the key [__proto__]: the state still has the initial prototype *)
      destruct Hproto as [->|Hproto];
        [|exfalso; apply Hproto; left; reflexivity].
      destruct (set_property_proto_key acc (GuessPage.convertBigIntToString v) Hacc)
        as [proto1 ->].
      destruct (IH proto1 acc) as (proto' & acc' & Hrun & Hkeys & _).
      * simpl in Hnd. now apply NoDup_remove_1 in Hnd.
      * exact Hacc.
      * right. intros Hin. simpl in Hnd. apply NoDup_remove_2 in Hnd.
        apply Hnd. apply in_or_app. now right.
      * exists proto', acc'. split; [exact Hrun|]. split.
        -- rewrite Hkeys. unfold without_proto_key.
           change (map fst ((str "__proto__", v) :: r))
             with (str "__proto__" :: map fst r).
           cbn [filter]. now rewrite jsstring_eqb_refl.
        -- intros Hno. exfalso. apply Hno. left. reflexivity.
    + rewrite set_property_other by assumption.
      destruct (IH proto (acc ++ [(k, GuessPage.convertBigIntToString v)]))
        as (proto' & acc' & Hrun & Hkeys & Hsame).
      * apply Hnd'.
      * rewrite map_app, in_app_iff. intros [H|[H|[]]]; [tauto | exact (Hne H)].
      * destruct Hproto as [H|H]; [now left|].
        right. intros Hin. apply H. right. exact Hin.
      * exists proto', acc'. split; [exact Hrun|]. split.
        -- rewrite Hkeys, map_app, <- app_assoc. unfold without_proto_key.
           change (map fst ((k, v) :: r)) with (k :: map fst r).
           cbn [filter map fst app].
           destruct (jsstring_eqb_spec k (str "__proto__")); [contradiction|].
           reflexivity.
        -- intros Hno.
           assert (Hno' : ~ In (str "__proto__") (map fst r))
             by (intros Hin; apply Hno; right; exact Hin).
           destruct (Hsame Hno') as [-> ->].
           split; [reflexivity|]. simpl. now rewrite <- app_assoc.
Qed.

Lemma convert_ordinary_object (props : list (jsstring * JSValue)) :
  NoDup (map fst props) -> ~ In (str "__proto__") (map fst props) ->
  forall proto,
    GuessPage.convertBigIntToString (VObject proto props)
    = VObject None (map (fun '(key, v) =>
                           (key, GuessPage.convertBigIntToString v)) props).
Proof.
  intros Hnd Hno proto.
  destruct (convert_fold_keys props None []) as (proto' & acc' & Hrun & _ & Hsame);
    [exact Hnd | intros [] | now left |].
  destruct (Hsame Hno) as [-> ->]. exact Hrun.
Qed.

Lemma ordinary_object (proto : option JSValue)
    (props : list (jsstring * JSValue)) :
  ordinary (VObject proto props) = true
  <-> proto = None /\ NoDup (map fst props)
      /\ ~ In (str "__proto__") (map fst props)
      /\ Forall (fun kv => ordinary (snd kv) = true) props.
Proof.
  simpl. rewrite !andb_true_iff, negb_true_iff, distinct_keys_NoDup,
    has_key_false, forallb_forall, Forall_forall.
  split.
  - intros [[[Hp Hnd] Hno] Hall]. destruct proto; [discriminate|].
    repeat split; try assumption. intros [k x] Hin. apply (Hall (k, x) Hin).
  - intros (-> & Hnd & Hno & Hall). repeat split; try assumption.
    intros [k x] Hin. apply (Hall (k, x) Hin).
Qed.

Lemma convert_ordinary (v : JSValue) :
  ordinary v = true ->
  ordinary (GuessPage.convertBigIntToString v) = true
  /\ (has_bigint v = false -> GuessPage.convertBigIntToString v = v).
Proof.
  induction v as [ | | z | s | n | b | items IH | proto props _ IH]
    using JSValue_nested_ind; try (split; [reflexivity | try reflexivity; discriminate]).
  - simpl. intros Ho. rewrite forallb_forall in Ho. split.
    + apply forallb_forall. intros x Hx. apply in_map_iff in Hx.
      destruct Hx as (y & <- & Hy).
      apply (proj1 (Forall_forall _ _) IH y Hy). now apply Ho.
    + intros Hb. f_equal. rewrite <- (map_id items) at 2. apply map_ext_in.
      intros x Hx. apply (proj1 (Forall_forall _ _) IH x Hx); [now apply Ho|].
      destruct (has_bigint x) eqn:E; [|reflexivity].
      rewrite <- Hb. symmetry. apply existsb_exists. now exists x.
  - intros Ho. apply ordinary_object in Ho. destruct Ho as (-> & Hnd & Hno & Hall).
    rewrite convert_ordinary_object by assumption. split.
    + apply ordinary_object. split; [reflexivity|].
      assert (Hkeys : map fst (map (fun '(key, v) =>
                                      (key, GuessPage.convertBigIntToString v)) props)
                      = map fst props)
        by (rewrite map_map; apply map_ext; now intros [k x]).
      rewrite Hkeys. split; [exact Hnd|]. split; [exact Hno|].
      apply Forall_forall. intros [k x] Hin. apply in_map_iff in Hin.
      destruct Hin as ([k' y] & Heq & Hy). injection Heq as <- <-. simpl.
      apply (proj1 (Forall_forall _ _) IH (k', y) Hy).
      apply (proj1 (Forall_forall _ _) Hall (k', y) Hy).
    + intros Hb. simpl in Hb. f_equal. rewrite <- (map_id props) at 2.
      apply map_ext_in. intros [k x] Hin. f_equal.
      apply (proj1 (Forall_forall _ _) IH (k, x) Hin).
      * apply (proj1 (Forall_forall _ _) Hall (k, x) Hin).
      * simpl. destruct (has_bigint x) eqn:E; [|reflexivity].
        rewrite <- Hb. symmetry. apply existsb_exists. now exists (k, x).
Qed.

(** X15: [convertBigIntToString] leaves no [BigInt] anywhere in its
    result, however deep it was nested, and arrays keep their length. Of
    an object whose keys are distinct it keeps every key in order, the key
    [__proto__] apart: that one never becomes a property of the result
    (its value is dropped, or becomes the prototype). On values that, at
    every depth, have no key [__proto__], no key twice and the prototype
    of plain objects, a value without [BigInt] comes back unchanged, and
    converting twice is converting once. *)
Theorem convertBigIntToString_removes_bigint (obj : JSValue) :
  has_bigint (GuessPage.convertBigIntToString obj) = false
  /\ (forall items,
        obj = VArray items ->
        exists items',
          GuessPage.convertBigIntToString obj = VArray items'
          /\ List.length items' = List.length items)
  /\ (forall proto props,
        obj = VObject proto props -> NoDup (map fst props) ->
        exists proto' props',
          GuessPage.convertBigIntToString obj = VObject proto' props'
          /\ map fst props' = without_proto_key (map fst props)
          /\ GuessPage.has_key (str "__proto__") props' = false
          /\ (GuessPage.has_key (str "__proto__") props = false ->
              proto' = None
              /\ props' = map (fun '(key, v) =>
                                 (key, GuessPage.convertBigIntToString v)) props))
  /\ (ordinary obj = true ->
      (has_bigint obj = false -> GuessPage.convertBigIntToString obj = obj)
      /\ GuessPage.convertBigIntToString (GuessPage.convertBigIntToString obj)
         = GuessPage.convertBigIntToString obj).
Proof.
  split; [apply convert_no_bigint|]. split; [|split].
  - intros items ->. eexists. split; [reflexivity|]. apply length_map.
  - intros proto props -> Hnd.
    destruct (convert_fold_keys props None []) as (proto' & props' & Hrun & Hkeys & Hsame);
      [exact Hnd | intros [] | now left |].
    exists proto', props'. split; [exact Hrun|]. split; [exact Hkeys|]. split.
    + apply has_key_false. rewrite Hkeys. unfold without_proto_key.
      intros Hin. apply filter_In in Hin. destruct Hin as [_ Hin].
      now rewrite jsstring_eqb_refl in Hin.
    + intros Hno. apply has_key_false in Hno. exact (Hsame Hno).
  - intros Ho. destruct (convert_ordinary obj Ho) as [Ho' Hid].
    split; [exact Hid|].
    apply (proj2 (convert_ordinary _ Ho')). apply convert_no_bigint.
Qed.

(** An object as [JSON.parse] builds it from a text with a key
    [__proto__]: the conversion drops that key, though there is no
    [BigInt] in the value. *)
Example convertBigIntToString_proto_key :
  GuessPage.convertBigIntToString
    (VObject None [(str "__proto__", VNumber (Some 5)); (str "a", VNumber (Some 1))])
  = VObject None [(str "a", VNumber (Some 1))]
  /\ GuessPage.convertBigIntToString
       (VObject None [(str "__proto__", VObject None [(str "b", VBigInt 2)]);
                      (str "a", VNumber (Some 1))])
     = VObject (Some (VObject None [(str "b", VString (str "2"))]))
               [(str "a", VNumber (Some 1))].
Proof. split; reflexivity. Qed.

(** ** The stored list of guesses *)

Lemma app_inv_length_eq {A : Type} (a b c d : list A) :
  List.length a = List.length b -> a ++ c = b ++ d -> a = b /\ c = d.
Proof.
  revert b. induction a as [|x a IH]; intros [|y b] Hl H; simpl in *;
    try discriminate; [tauto|].
  injection H as -> H. injection Hl as Hl.
  destruct (IH b Hl H) as [-> ->]. tauto.
Qed.


Lemma findIndex_from_shift (l : list GuessPage.ExportableGuessData) (id : Z) :
  forall i, 0 <= i ->
    (GuessPage.findIndex_from l id 0 = -1 /\ GuessPage.findIndex_from l id i = -1)
    \/ exists k, (k < List.length l)%nat
                 /\ GuessPage.findIndex_from l id 0 = Z.of_nat k
                 /\ GuessPage.findIndex_from l id i = i + Z.of_nat k.
Proof.
  induction l as [|g r IH]; intros i Hi; simpl.
  - now left.
  - destruct (GuessPage.guessId g =? id).
    + right. exists 0%nat. simpl. split; [lia | split; lia].
    + assert (H01 : 0 <= 1) by lia. assert (Hi1 : 0 <= i + 1) by lia.
      destruct (IH 1 H01) as [[H0 H1] | (k & Hk & H0 & H1)];
        destruct (IH (i + 1) Hi1) as [[H0' Hi'] | (k' & Hk' & H0' & Hi')];
        try (rewrite H0 in H0'; lia).
      right. exists (S k). rewrite H1, Hi'. rewrite H0 in H0'.
      assert (k' = k) by lia. subst k'. simpl List.length.
      split; [lia | split; lia].
Qed.

Lemma saveGuess_cons (g d : GuessPage.ExportableGuessData)
    (r : list GuessPage.ExportableGuessData) (id : Z) :
  GuessPage.saveGuess (g :: r) id d
  = if GuessPage.guessId g =? id then d :: r else g :: GuessPage.saveGuess r id d.
Proof.
  unfold GuessPage.saveGuess. simpl GuessPage.findIndex_from.
  destruct (GuessPage.guessId g =? id); [reflexivity|].
  assert (H01 : 0 <= 1) by lia.
  destruct (findIndex_from_shift r id 1 H01) as [[H0 H1] | (k & Hk & H0 & H1)];
    rewrite H0, H1.
  - reflexivity.
  - replace (negb (1 + Z.of_nat k =? -1)) with true
      by (symmetry; apply negb_true_iff, Z.eqb_neq; lia).
    replace (negb (Z.of_nat k =? -1)) with true
      by (symmetry; apply negb_true_iff, Z.eqb_neq; lia).
    replace (Z.to_nat (1 + Z.of_nat k)) with (S k) by lia.
    rewrite Nat2Z.id. reflexivity.
Qed.

Lemma saveGuess_find (existing : list GuessPage.ExportableGuessData)
    (exportableData : GuessPage.ExportableGuessData) (id : Z) :
  GuessPage.guessId exportableData = id ->
  GuessPage.findGuess (GuessPage.saveGuess existing id exportableData) id
  = Some exportableData
  /\ (forall id', id' <> id ->
        GuessPage.findGuess (GuessPage.saveGuess existing id exportableData) id'
        = GuessPage.findGuess existing id')
  /\ (List.length existing
      <= List.length (GuessPage.saveGuess existing id exportableData)
      <= S (List.length existing))%nat
  /\ (NoDup (map GuessPage.guessId existing) ->
      NoDup (map GuessPage.guessId
               (GuessPage.saveGuess existing id exportableData))).
Proof.
  intros Hid. unfold GuessPage.findGuess.
  induction existing as [|g r IH].
  - unfold GuessPage.saveGuess. simpl. rewrite Hid, Z.eqb_refl.
    split; [reflexivity|]. split; [|split; [lia|]].
    + intros id' Hne. destruct (Z.eqb_spec id id'); [congruence | reflexivity].
    + intros _. repeat constructor. intros [].
  - rewrite saveGuess_cons. destruct IH as (IH1 & IH2 & IH3 & IH4).
    destruct (Z.eqb_spec (GuessPage.guessId g) id) as [Hg|Hg].
    + simpl. rewrite Hid, Z.eqb_refl.
      split; [reflexivity|]. split; [|split; [lia|]].
      * intros id' Hne. destruct (Z.eqb_spec id id'); [congruence|].
        destruct (Z.eqb_spec (GuessPage.guessId g) id'); [congruence | reflexivity].
      * intros Hnd. simpl in *. rewrite <- Hg. exact Hnd.
    + simpl. destruct (Z.eqb_spec (GuessPage.guessId g) id); [congruence|].
      split; [exact IH1|]. split; [|split].
      * intros id' Hne. destruct (GuessPage.guessId g =? id'); [reflexivity|].
        now apply IH2.
      * lia.
      * intros Hnd. inversion Hnd as [|? ? Hnotin Hnd']; subst.
        constructor; [|now apply IH4].
        intros Hin. apply Hnotin. apply in_map_iff in Hin.
        destruct Hin as (x & Hx & Hin). apply in_map_iff.
        clear - Hx Hin Hg.
        induction r as [|h r IHr].
        -- unfold GuessPage.saveGuess in Hin. simpl in Hin.
           destruct Hin as [<- | []]. congruence.
        -- rewrite saveGuess_cons in Hin.
           destruct (Z.eqb_spec (GuessPage.guessId h) (GuessPage.guessId exportableData)).
           ++ destruct Hin as [<- | Hin]; [congruence|].
              exists x. split; [exact Hx | now right].
           ++ destruct Hin as [<- | Hin].
              ** exists h. split; [exact Hx | now left].
              ** destruct (IHr Hin) as (y & Hy & Hyin).
                 exists y. split; [exact Hy | now right].
Qed.

Lemma toLowerCase_length (s : jsstring) :
  List.length (toLowerCase s) = List.length s.
Proof. apply length_map. Qed.

(** The key the sliding-window component reads is none of the two the
    receipt handler writes, unless the address is in lower case. *)
Lemma sliding_key_not_written (w : jsstring) :
  toLowerCase w <> w ->
  Sliding.getWalletStorageKey w (str "allGuessSubmissions")
  <> Chunked.getWalletStorageKey w (str "allGuessSubmissions")
  /\ Sliding.getWalletStorageKey w (str "allGuessSubmissions")
     <> Chunked.getWalletStorageKey w (str "lastGuessSubmission").
Proof.
  intros Hcase. unfold Sliding.getWalletStorageKey, Chunked.getWalletStorageKey.
  split; intros H.
  - apply app_inv_tail in H. congruence.
  - apply app_inv_length_eq in H; [|now rewrite toLowerCase_length].
    destruct H as [_ H]. discriminate H.
Qed.

Lemma sliding_key_lower (w key : jsstring) :
  toLowerCase w = w ->
  Sliding.getWalletStorageKey w key = Chunked.getWalletStorageKey w key.
Proof.
  intros H. unfold Sliding.getWalletStorageKey, Chunked.getWalletStorageKey.
  now rewrite H.
Qed.

Section GuessStoreFacts.

Variable parse : jsstring -> option GuessPage.StoredValue.
Variable stringify : GuessPage.StoredValue -> option jsstring.

(** What the storage holds once the receipt handler has saved a guess. *)
Lemma saveToStorage_run (st st' : Storage) (w : jsstring) (id : Z)
    (exportableData : GuessPage.ExportableGuessData)
    (existing : list GuessPage.ExportableGuessData) :
  GuessPage.existingGuesses parse st w = Returns existing ->
  GuessPage.saveToStorage parse stringify st w id exportableData = Returns st' ->
  exists text last,
    stringify (GuessPage.SGuesses (GuessPage.saveGuess existing id exportableData))
    = Some text
    /\ stringify (GuessPage.SGuess exportableData) = Some last
    /\ st' = setItem
               (setItem st (Chunked.getWalletStorageKey w (str "allGuessSubmissions"))
                  text)
               (Chunked.getWalletStorageKey w (str "lastGuessSubmission")) last.
Proof.
  intros Hex Hsave. unfold GuessPage.saveToStorage in Hsave.
  rewrite Hex in Hsave. cbn [bind] in Hsave.
  unfold Chunked.setWalletLocalStorage in Hsave.
  destruct (stringify (GuessPage.SGuesses _)) as [text|]; [|discriminate Hsave].
  cbn [bind] in Hsave.
  destruct (stringify (GuessPage.SGuess _)) as [last|]; [|discriminate Hsave].
  injection Hsave as <-. now exists text, last.
Qed.

Lemma existingGuesses_find (st : Storage) (w : jsstring)
    (existing : list GuessPage.ExportableGuessData) (id : Z) :
  GuessPage.existingGuesses parse st w = Returns existing ->
  find_stored
    (Chunked.getWalletLocalStorage GuessPage.StoredValue parse st w
       (str "allGuessSubmissions")) id
  = GuessPage.findGuess existing id.
Proof.
  unfold GuessPage.existingGuesses.
  destruct (Chunked.getWalletLocalStorage _ parse st w _) as [[[ |l|g| ]|]|e|];
    cbn [bind find_stored]; intros H; try discriminate H;
    injection H as <-; reflexivity.
Qed.


End GuessStoreFacts.


(** ** The form of [GuessPage] *)

Lemma push_if_nil (c : bool) (msg : string) (errors : list jsstring) :
  GuessPage.push_if c msg errors = [] <-> c = false /\ errors = [].
Proof.
  unfold GuessPage.push_if. destruct c.
  - split; [|intros [H _]; discriminate H].
    intros H. apply app_eq_nil in H. destruct H as [_ H]. discriminate H.
  - tauto.
Qed.

Section ValidateFormFacts.

Variable validateHashFormat : jsstring -> bool.
Variable ZERO_HASH : jsstring.

Lemma validateForm_nil_iff (f : GuessPage.Form) :
  GuessPage.validateForm validateHashFormat ZERO_HASH f = []
  <-> GuessPage.num_falsy (GuessPage.formGuessId f) = false
      /\ GuessPage.num_in_range 10 2048 (GuessPage.blockIncrement (GuessPage.numbers f))
         = true
      /\ GuessPage.num_in_range 3 64 (GuessPage.formTokenSize (GuessPage.numbers f))
         = true
      /\ hash_accepted validateHashFormat ZERO_HASH (GuessPage.formActualHash f)
      /\ hash_accepted validateHashFormat ZERO_HASH (GuessPage.secretHash f)
      /\ hash_accepted validateHashFormat ZERO_HASH (GuessPage.formDummyHash f)
      /\ GuessPage.overwrite f = true.
Proof.
  unfold GuessPage.validateForm, hash_accepted. cbv zeta.
  rewrite !push_if_nil.
  destruct f as [gid [bi ts] ah sh dh ow]. cbn.
  assert (He : forall h, h <> [] <-> is_empty h = false)
    by (intros [|c h]; simpl; split; congruence).
  assert (Hz : forall h, h <> ZERO_HASH <-> jsstring_eqb h ZERO_HASH = false).
  { intros h. destruct (jsstring_eqb_spec h ZERO_HASH); split; congruence. }
  rewrite !He, !Hz.
  assert (Hbi : GuessPage.num_falsy bi = false
                /\ GuessPage.num_ltb bi 10 || num_gtb bi 2048 = false
                /\ GuessPage.num_isNaN bi = false
                <-> GuessPage.num_in_range 10 2048 bi = true).
  { destruct bi as [x|]; simpl; [|intuition discriminate].
    rewrite orb_false_iff, andb_true_iff, Z.eqb_neq, Z.ltb_ge, Z.gtb_ltb, Z.ltb_ge,
      !Z.leb_le. intuition lia. }
  assert (Hts : GuessPage.num_falsy ts = false
                /\ GuessPage.num_ltb ts 3 || num_gtb ts 64 = false
                /\ GuessPage.num_isNaN ts = false
                /\ match ts with Some 0 => true | _ => false end = false
                <-> GuessPage.num_in_range 3 64 ts = true).
  { destruct ts as [x|]; simpl; [|intuition discriminate].
    rewrite orb_false_iff, andb_true_iff, Z.eqb_neq, Z.ltb_ge, Z.gtb_ltb, Z.ltb_ge,
      !Z.leb_le. destruct x; intuition (try lia; try discriminate). }
  rewrite <- Hbi, <- Hts.
  destruct (is_empty ah), (is_empty sh), (is_empty dh),
    (validateHashFormat ah), (validateHashFormat sh), (validateHashFormat dh),
    ow; cbn; try tauto; intuition discriminate.
Qed.

(** X17: [validateForm] reports no error exactly when the guess id is a
    number other than zero, the block increment is a number from 10 to
    2048, the token size a number from 3 to 64, overwrite is on, and each
    of the three hashes is non-empty, passes [validateHashFormat] and is
    not [ZERO_HASH]. *)
Theorem validateForm_accepts_iff (f : GuessPage.Form) :
  GuessPage.validateForm validateHashFormat ZERO_HASH f = []
  <-> (exists id, GuessPage.formGuessId f = Some id /\ id <> 0)
      /\ (exists bi,
            GuessPage.blockIncrement (GuessPage.numbers f) = Some bi
            /\ 10 <= bi <= 2048)
      /\ (exists ts,
            GuessPage.formTokenSize (GuessPage.numbers f) = Some ts
            /\ 3 <= ts <= 64)
      /\ hash_accepted validateHashFormat ZERO_HASH (GuessPage.formActualHash f)
      /\ hash_accepted validateHashFormat ZERO_HASH (GuessPage.secretHash f)
      /\ hash_accepted validateHashFormat ZERO_HASH (GuessPage.formDummyHash f)
      /\ GuessPage.overwrite f = true.
Proof.
  rewrite validateForm_nil_iff.
  assert (Hg : GuessPage.num_falsy (GuessPage.formGuessId f) = false
               <-> exists id, GuessPage.formGuessId f = Some id /\ id <> 0).
  { destruct (GuessPage.formGuessId f) as [id|]; simpl.
    - rewrite Z.eqb_neq. split; [intros H; now exists id|].
      intros (id' & E & H). now injection E as ->.
    - split; [discriminate | intros (id & E & _); discriminate]. }
  assert (Hr : forall lo hi v,
             GuessPage.num_in_range lo hi v = true
             <-> exists x, v = Some x /\ lo <= x <= hi).
  { intros lo hi [x|]; simpl.
    - rewrite andb_true_iff, !Z.leb_le. split; [intros H; now exists x|].
      intros (x' & E & H). now injection E as ->.
    - split; [discriminate | intros (x & E & _); discriminate]. }
  rewrite Hg, !Hr. tauto.
Qed.

(** X18: whatever is typed into the two number fields and however often
    the form is cleared, the block increment stays a number from 10 to
    2048 and the token size a number from 3 to 64; so [validateForm] then
    depends on the guess id, the hashes and the overwrite switch alone. *)
Theorem form_numbers_stay_valid (events : list GuessPage.FormEvent)
    (f : GuessPage.Form) :
  GuessPage.numbers f = fold_left GuessPage.formStep events GuessPage.initialForm ->
  (exists bi ts,
     GuessPage.numbers f
     = {| GuessPage.blockIncrement := Some bi; GuessPage.formTokenSize := Some ts |}
     /\ 10 <= bi <= 2048 /\ 3 <= ts <= 64)
  /\ (GuessPage.validateForm validateHashFormat ZERO_HASH f = []
      <-> GuessPage.num_falsy (GuessPage.formGuessId f) = false
          /\ hash_accepted validateHashFormat ZERO_HASH (GuessPage.formActualHash f)
          /\ hash_accepted validateHashFormat ZERO_HASH (GuessPage.secretHash f)
          /\ hash_accepted validateHashFormat ZERO_HASH (GuessPage.formDummyHash f)
          /\ GuessPage.overwrite f = true).
Proof.
  intros Hnum.
  assert (Hinv : forall n,
            GuessPage.num_in_range 10 2048 (GuessPage.blockIncrement n) = true
            /\ GuessPage.num_in_range 3 64 (GuessPage.formTokenSize n) = true ->
            forall evs,
              GuessPage.num_in_range 10 2048
                (GuessPage.blockIncrement (fold_left GuessPage.formStep evs n)) = true
              /\ GuessPage.num_in_range 3 64
                   (GuessPage.formTokenSize (fold_left GuessPage.formStep evs n)) = true).
  { intros n Hn evs. revert n Hn.
    induction evs as [|e evs IH]; intros n Hn; [exact Hn|].
    simpl. apply IH. destruct Hn as [Hb Ht].
    destruct e as [v|v|]; simpl.
    - unfold GuessPage.handleBlockIncrementChange.
      destruct (GuessPage.num_in_range 10 2048 v) eqn:E; simpl; auto.
    - unfold GuessPage.handleTokenSizeChange.
      destruct (GuessPage.num_in_range 3 64 v) eqn:E; simpl; auto.
    - split; reflexivity. }
  destruct (Hinv GuessPage.initialForm (conj eq_refl eq_refl) events) as [Hb Ht].
  rewrite <- Hnum in Hb, Ht. split.
  - destruct (GuessPage.numbers f) as [[bi|] [ts|]]; simpl in Hb, Ht; try discriminate.
    exists bi, ts. split; [reflexivity|]. lia.
  - rewrite validateForm_nil_iff, Hb, Ht. tauto.
Qed.

End ValidateFormFacts.

Lemma form_numbers_stay_valid_witness :
  (exists bi ts,
     GuessPage.numbers sample_form
     = {| GuessPage.blockIncrement := Some bi; GuessPage.formTokenSize := Some ts |}
     /\ 10 <= bi <= 2048 /\ 3 <= ts <= 64)
  /\ (GuessPage.validateForm sample_validateHashFormat sample_zero_hash sample_form = []
      <-> GuessPage.num_falsy (GuessPage.formGuessId sample_form) = false
          /\ hash_accepted sample_validateHashFormat sample_zero_hash
               (GuessPage.formActualHash sample_form)
          /\ hash_accepted sample_validateHashFormat sample_zero_hash
               (GuessPage.secretHash sample_form)
          /\ hash_accepted sample_validateHashFormat sample_zero_hash
               (GuessPage.formDummyHash sample_form)
          /\ GuessPage.overwrite sample_form = true).
Proof.
  apply (form_numbers_stay_valid sample_validateHashFormat sample_zero_hash
           [GuessPage.TokenSizeChange (Some 5); GuessPage.BlockIncrementChange None;
            GuessPage.Clear; GuessPage.TokenSizeChange (Some 100);
            GuessPage.BlockIncrementChange (Some 600)]
           sample_form).
  reflexivity.
Defined.

(** ** Cutting by the pattern and cutting by the loop *)

Lemma hex_not_terminator (c : ascii) :
  is_hex_digit c = true -> is_line_terminator c = false.
Proof.
  destruct c as [[] [] [] [] [] [] [] []]; intros H;
    try discriminate H; reflexivity.
Qed.

Lemma last_cons_nonempty {A : Type} (x : A) (l : list A) (d : A) :
  l <> [] -> last (x :: l) d = last l d.
Proof. destruct l; [congruence | reflexivity]. Qed.

Lemma removelast_cons_nonempty {A : Type} (x : A) (l : list A) :
  l <> [] -> removelast (x :: l) = x :: removelast l.
Proof. destruct l; [congruence | reflexivity]. Qed.

Lemma pieces_nonempty (n : nat) (l : list jsstring) :
  (0 < n)%nat -> pieces_of n l -> Forall (fun t => t <> []) l.
Proof.
  intros Hn [Hall Hlast]. induction l as [|t r IH]; [constructor|].
  destruct r as [|t' r'].
  - constructor; [|constructor]. specialize (Hlast ltac:(discriminate)).
    simpl in Hlast. destruct t; [simpl in Hlast; lia | discriminate].
  - rewrite removelast_cons_nonempty in Hall by discriminate.
    apply Forall_cons_iff in Hall. destruct Hall as [Ht Hall']. constructor.
    + destruct t; [simpl in Ht; lia | discriminate].
    + apply IH; [exact Hall'|]. intros _.
      rewrite last_cons_nonempty in Hlast by discriminate. apply Hlast. discriminate.
Qed.

Lemma pieces_tail (n : nat) (t : jsstring) (r : list jsstring) :
  pieces_of n (t :: r) -> pieces_of n r.
Proof.
  intros [Hall Hlast]. destruct r as [|t' r']; [split; [constructor | congruence]|].
  rewrite removelast_cons_nonempty in Hall by discriminate.
  apply Forall_cons_iff in Hall. destruct Hall as [_ Hall']. split; [assumption|]. intros _.
  rewrite last_cons_nonempty in Hlast by discriminate. apply Hlast. discriminate.
Qed.

Lemma pieces_head (n : nat) (t : jsstring) (r : list jsstring) :
  pieces_of n (t :: r) ->
  (1 <= List.length t <= n)%nat /\ (r <> [] -> List.length t = n).
Proof.
  intros [Hall Hlast]. destruct r as [|t' r'].
  - split; [apply Hlast; discriminate | congruence].
  - rewrite removelast_cons_nonempty in Hall by discriminate.
    apply Forall_cons_iff in Hall. destruct Hall as [Ht _]. split; [|auto].
    (* a full piece; n is at least 1 because the last piece is not empty *)
    rewrite last_cons_nonempty in Hlast by discriminate.
    specialize (Hlast ltac:(discriminate)). lia.
Qed.

Lemma concat_nil_nonempty (l : list jsstring) :
  Forall (fun t => t <> []) l -> List.concat l = [] -> l = [].
Proof.
  intros H Hc. destruct l as [|t r]; [reflexivity|].
  apply Forall_cons_iff in H. destruct H as [Ht _].
  simpl in Hc. apply app_eq_nil in Hc. tauto.
Qed.

(** There is one way only to cut a string into such pieces. *)
Lemma pieces_unique (n : nat) (l1 : list jsstring) :
  (0 < n)%nat ->
  forall l2, pieces_of n l1 -> pieces_of n l2 ->
             List.concat l1 = List.concat l2 -> l1 = l2.
Proof.
  intros Hn. induction l1 as [|t1 r1 IH]; intros l2 P1 P2 Hc.
  - symmetry. apply concat_nil_nonempty; [now apply (pieces_nonempty n) | now symmetry].
  - destruct l2 as [|t2 r2].
    + apply concat_nil_nonempty in Hc; [exact Hc | now apply (pieces_nonempty n)].
    + destruct (pieces_head n t1 r1 P1) as [B1 F1].
      destruct (pieces_head n t2 r2 P2) as [B2 F2].
      pose proof (pieces_nonempty n _ Hn (pieces_tail n t1 r1 P1)) as N1.
      pose proof (pieces_nonempty n _ Hn (pieces_tail n t2 r2 P2)) as N2.
      simpl in Hc.
      assert (Hlen : List.length t1 = List.length t2).
      { destruct r1 as [|a1 r1'], r2 as [|a2 r2'].
        - simpl in Hc. rewrite !app_nil_r in Hc. now subst.
        - specialize (F2 ltac:(discriminate)).
          apply (f_equal (@List.length ascii)) in Hc.
          simpl in Hc. rewrite !length_app in Hc. simpl in Hc. lia.
        - specialize (F1 ltac:(discriminate)).
          apply (f_equal (@List.length ascii)) in Hc.
          simpl in Hc. rewrite !length_app in Hc. simpl in Hc. lia.
        - rewrite F1, F2 by discriminate. reflexivity. }
      destruct (app_inv_length_eq t1 t2 _ _ Hlen Hc) as [-> Hr].
      f_equal. apply IH; [eapply pieces_tail; eassumption
                         | eapply pieces_tail; eassumption | exact Hr].
Qed.

Lemma match_runs_pieces (n : nat) (s : jsstring) :
  forall cur : jsstring,
    Forall (fun c => is_line_terminator c = false) s ->
    (List.length cur < n)%nat ->
    List.concat (match_runs n cur s) = cur ++ s
    /\ pieces_of n (match_runs n cur s)
    /\ (cur ++ s = [] -> match_runs n cur s = []).
Proof.
  induction s as [|c s IH]; intros cur Hs Hcur.
  - simpl. rewrite app_nil_r. destruct cur as [|a cur].
    + split; [reflexivity|]. split; [|reflexivity].
      split; [constructor | congruence].
    + split; [simpl; now rewrite app_nil_r|]. split; [|discriminate].
      split; [constructor|]. intros _. simpl in *. lia.
  - apply Forall_cons_iff in Hs. destruct Hs as [Hc Hs].
    simpl. rewrite Hc.
    assert (Hlen : List.length (cur ++ [c]) = S (List.length cur))
      by (rewrite length_app; simpl; lia).
    destruct (Nat.eqb_spec (List.length (cur ++ [c])) n) as [Hfull|Hshort].
    + destruct (IH [] Hs ltac:(simpl; lia)) as (Hcat & Hp & Hnil).
      split; [simpl; rewrite Hcat, <- app_assoc; reflexivity|].
      split; [|intros H; apply app_eq_nil in H; destruct H; discriminate].
      destruct (match_runs n [] s) as [|t r] eqn:E.
      * split; [constructor|]. intros _. simpl. lia.
      * destruct Hp as [Hall Hlast]. split.
        -- rewrite removelast_cons_nonempty by discriminate.
           constructor; assumption.
        -- intros _. rewrite last_cons_nonempty by discriminate.
           apply Hlast. discriminate.
    + destruct (IH (cur ++ [c]) Hs ltac:(lia)) as (Hcat & Hp & Hnil).
      rewrite <- app_assoc in Hcat. simpl in Hcat.
      split; [exact Hcat|]. split; [exact Hp|].
      intros H. apply app_eq_nil in H. destruct H; discriminate.
Qed.

Lemma hex_no_terminator (h : jsstring) :
  is_hex h = true -> Forall (fun c => is_line_terminator c = false) h.
Proof.
  unfold is_hex. rewrite forallb_forall, Forall_forall.
  intros H c Hc. apply hex_not_terminator. now apply H.
Qed.

(** On hexadecimal digits the pattern [.{1,n}] cuts as the loop of the
    chunking [tokenize] does. *)
Lemma regex_chunks_loop_chunks (h : jsstring) (n : Z) (fuel : nat) :
  is_hex h = true -> 1 <= n -> (List.length h < fuel)%nat ->
  Chunked.tokenize fuel h n = Returns (match_runs (Z.to_nat n) [] h).
Proof.
  intros Hh Hn Hfuel. unfold Chunked.tokenize. rewrite replace_leading_hex by exact Hh.
  destruct (match_runs_pieces (Z.to_nat n) h [] (hex_no_terminator h Hh) ltac:(simpl; lia))
    as (Hcat & Hp & Hnil).
  destruct h as [|c h'] eqn:Eh.
  - destruct fuel as [|fuel]; [simpl in Hfuel; lia|]. reflexivity.
  - rewrite <- Eh in *. assert (Hlen : 0 < strlen h) by (subst h; unfold strlen; simpl; lia).
    destruct (chunk_loop_spec h n Hn fuel 0 []) as (rest & Hrun & Hne & Hc & _ & Hall & Hlast).
    + lia.
    + unfold strlen. lia.
    + rewrite Hrun. simpl. f_equal.
      apply (pieces_unique (Z.to_nat n)); [lia | | exact Hp |].
      * split.
        -- eapply Forall_impl; [|exact Hall]. unfold strlen. intros t Ht. simpl in Ht. lia.
        -- intros _. unfold strlen in Hlast. lia.
      * rewrite Hc, Hcat. reflexivity.
Qed.

(** X19: on a string of hexadecimal digits and a token size of at least 1,
    the tokens [handleVerify] cuts with the pattern [.{1,tokenSize}] are
    the tokens the loop of the chunking [tokenize] cuts: the two components
    agree on what the tokens of a hash are. *)
Theorem matchTokens_is_chunked_tokenize (h : jsstring) (n : Z) (fuel : nat) :
  is_hex h = true -> 1 <= n -> (List.length h < fuel)%nat ->
  Positional.matchTokens h n = Chunked.tokenize fuel h n.
Proof.
  intros Hh Hn Hfuel. rewrite (regex_chunks_loop_chunks h n fuel Hh Hn Hfuel).
  unfold Positional.matchTokens.
  destruct (Z.eqb_spec n 0); [lia|]. destruct (Z.ltb_spec n 0); [lia | reflexivity].
Qed.

Lemma matchTokens_is_chunked_tokenize_witness :
  Positional.matchTokens sample_hash 3 = Chunked.tokenize 65 sample_hash 3.
Proof.
  apply (matchTokens_is_chunked_tokenize sample_hash 3 65).
  - reflexivity.
  - lia.
  - vm_compute. lia.
Defined.

Lemma replace_first_prefixed (h : jsstring) :
  replace_first (str "0x" ++ h) (str "0x") = h.
Proof.
  cbn [str list_ascii_of_string app replace_first startsWith].
  rewrite !Ascii.eqb_refl. reflexivity.
Qed.

Lemma ceil_div_covers (a n : Z) :
  0 <= a -> 1 <= n -> a <= n * ceil_div a n.
Proof.
  intros Ha Hn. unfold ceil_div.
  pose proof (Z.mod_pos_bound (a + n - 1) n ltac:(lia)).
  pose proof (Z.div_mod (a + n - 1) n ltac:(lia)). lia.
Qed.

Lemma pieces_count (n : Z) (h : jsstring) (fuel : nat) (u : list jsstring) :
  is_hex h = true -> 1 <= n ->
  Chunked.tokenize fuel h n = Returns u ->
  strlen h <= n * Z.of_nat (List.length u) /\ List.concat u = h.
Proof.
  intros Hh Hn Hu. unfold Chunked.tokenize in Hu.
  rewrite replace_leading_hex in Hu by exact Hh.
  destruct h as [|c h'] eqn:Eh.
  - rewrite chunk_loop_end in Hu by (unfold strlen; simpl; lia).
    injection Hu as <-. unfold strlen. simpl. split; [lia | reflexivity].
  - rewrite <- Eh in *.
    assert (Hlen : 0 < strlen h) by (subst h; unfold strlen; simpl; lia).
    destruct (chunk_loop_spec h n Hn (S (List.length h)) 0 [])
      as (rest & Hrun & _ & Hc & Hcnt & _); [lia | unfold strlen; lia |].
    pose proof (chunk_loop_deterministic _ _ _ _ _ _ _ _ Hu Hrun) as ->.
    simpl. rewrite Hcnt, Z.sub_0_r. split; [|exact Hc].
    apply ceil_div_covers; lia.
Qed.

(** X20: a right guess is accepted. When the stored guess tokens are the
    chunks of a string of hexadecimal digits, as the chunking [tokenize]
    cuts them for a token size of at least 1, and the block mined has this
    very hash (behind its [0x]), [handleVerify] reports a match. *)
Theorem isMatch_complete (h : jsstring) (n : Z) (fuel : nat)
    (userTokens : list jsstring) :
  is_hex h = true -> 1 <= n ->
  Chunked.tokenize fuel h n = Returns userTokens ->
  Positional.isMatch userTokens (str "0x" ++ h) n = Returns true.
Proof.
  intros Hh Hn Hu.
  destruct (pieces_count n h fuel userTokens Hh Hn Hu) as [Hcover _].
  pose proof (regex_chunks_loop_chunks h n (S (List.length h)) Hh Hn ltac:(lia)) as Hr.
  unfold Chunked.tokenize in Hu, Hr.
  pose proof (chunk_loop_deterministic _ _ _ _ _ _ _ _ Hu Hr) as Hut.
  unfold Positional.isMatch, Positional.fetchedTokens.
  rewrite replace_first_prefixed, substring_prefix by lia.
  rewrite firstn_all2 by (unfold strlen in Hcover; lia).
  unfold Positional.matchTokens.
  destruct (Z.eqb_spec n 0); [lia|]. destruct (Z.ltb_spec n 0); [lia|].
  simpl. f_equal. apply strict_match_spec. symmetry. exact Hut.
Qed.

Lemma isMatch_complete_witness :
  Positional.isMatch sample_tokens (str "0x" ++ sample_hash) 3 = Returns true.
Proof.
  apply (isMatch_complete sample_hash 3 65 sample_tokens).
  - reflexivity.
  - lia.
  - vm_compute. reflexivity.
Defined.

(** X21: only a right guess is accepted. For a token size of at least 1 and
    a block hash made of [0x] and hexadecimal digits, a match reported by
    [handleVerify] means that the guess tokens, put together, are the
    first [tokenSize * userTokens.length] digits of the block hash, and
    each token but the last has [tokenSize] characters. *)
Theorem isMatch_sound (h : jsstring) (n : Z) (userTokens : list jsstring) :
  is_hex h = true -> 1 <= n ->
  Positional.isMatch userTokens (str "0x" ++ h) n = Returns true ->
  List.concat userTokens
  = firstn (Z.to_nat n * List.length userTokens) h
  /\ Forall (fun t => strlen t = n) (removelast userTokens).
Proof.
  intros Hh Hn Hm.
  unfold Positional.isMatch, Positional.fetchedTokens, Positional.matchTokens in Hm.
  rewrite replace_first_prefixed, substring_prefix in Hm by lia.
  destruct (Z.eqb_spec n 0); [lia|]. destruct (Z.ltb_spec n 0); [lia|].
  simpl in Hm. injection Hm as Hm. apply strict_match_spec in Hm.
  replace (Z.to_nat (n * Z.of_nat (List.length userTokens)))
    with (Z.to_nat n * List.length userTokens)%nat in Hm by lia.
  set (cut := firstn (Z.to_nat n * List.length userTokens) h) in *.
  assert (Hcut : Forall (fun c => is_line_terminator c = false) cut).
  { apply Forall_forall. intros c Hc.
    apply (proj1 (Forall_forall _ _) (hex_no_terminator h Hh)).
    unfold cut in Hc. rewrite <- (firstn_skipn (Z.to_nat n * List.length userTokens) h).
    apply in_or_app. now left. }
  destruct (match_runs_pieces (Z.to_nat n) cut [] Hcut ltac:(simpl; lia))
    as (Hcat & [Hall _] & _).
  rewrite Hm in Hcat, Hall. split; [exact Hcat|].
  eapply Forall_impl; [|exact Hall]. unfold strlen. intros t Ht. simpl in Ht. lia.
Qed.

Lemma isMatch_sound_witness :
  List.concat sample_tokens
  = firstn (Z.to_nat 3 * List.length sample_tokens) sample_hash
  /\ Forall (fun t => strlen t = 3) (removelast sample_tokens).
Proof.
  apply (isMatch_sound sample_hash 3 sample_tokens).
  - reflexivity.
  - lia.
  - vm_compute. reflexivity.
Defined.

(** ** A hash against itself *)

Lemma filter_includes_self (a : list jsstring) :
  filter (includes a) a = a.
Proof.
  apply forallb_filter_id. apply forallb_forall. intros t Ht.
  now apply includes_In.
Qed.

(** X22: a hash compared with itself matches in full. For a non-empty
    hash and a positive token size, [findMatchingTokens] returns every
    distinct token of the hash, in the order of its first occurrence; when
    the size is not above the length of the cleaned hash, the result holds
    its first [size] characters and so is not empty. *)
Theorem findMatchingTokens_same_hash (h : jsstring) (s : Z) :
  h <> [] -> 0 < s ->
  exists clean,
    Sliding.removePrefix (toLowerCase h) = Returns clean
    /\ Sliding.findMatchingTokens h h s
       = Returns (distinct (Sliding.tokenize_loop clean s))
    /\ (s <= strlen clean ->
        In (firstn (Z.to_nat s) clean) (distinct (Sliding.tokenize_loop clean s))).
Proof.
  intros Hh Hs. eexists. split; [reflexivity|]. split.
  - rewrite (findMatchingTokens_run h h s Hh Hh Hs _ _ _ _
               eq_refl eq_refl eq_refl eq_refl).
    now rewrite filter_includes_self.
  - intros Hle. apply distinct_In.
    set (clean := if startsWith (toLowerCase h) (str "0x")
                  then slice_from (toLowerCase h) 2 else toLowerCase h) in *.
    replace s with (Z.of_nat (Z.to_nat s)) at 2 by lia.
    change (firstn (Z.to_nat s) clean) with (window clean 0 (Z.to_nat s)).
    apply window_in_tokens; unfold strlen in Hle; lia.
Qed.

Lemma findMatchingTokens_same_hash_witness :
  exists clean,
    Sliding.removePrefix (toLowerCase sample_block_hash) = Returns clean
    /\ Sliding.findMatchingTokens sample_block_hash sample_block_hash 3
       = Returns (distinct (Sliding.tokenize_loop clean 3))
    /\ (3 <= strlen clean ->
        In (firstn (Z.to_nat 3) clean) (distinct (Sliding.tokenize_loop clean 3))).
Proof.
  apply (findMatchingTokens_same_hash sample_block_hash 3).
  - discriminate.
  - lia.
Defined.
